(** * Good Time Intervals: a shallow embedding of [stingray/gti.py]

    The module [stingray.gti] manipulates lists of good time intervals
    (GTIs): two-column arrays whose rows are [start, stop] pairs.  This
    development embeds its pure functions in Rocq and states the properties
    of the interval algebra about the embedded functions.

    Conventions of the embedding.
    - A time value is an exact integer ([Z]).  The functions compare, add
      and subtract time values; rounding of the extended-precision floats
      of the source is outside this model.  The sum of [gti_len] is taken
      as numpy takes it on arrays of 64-bit integers, with its
      wrap-around.
    - A two-dimensional array of shape (n, 2) is a [list (Z * Z)]; the
      arguments of the functions are such arrays, and the empty list stands
      for the array of shape (0, 2).  The array that [np.array] builds from
      an empty list of rows has one dimension only: the type [ndarray]
      tells it from the arrays of shape (n, 2) where a function goes on
      with what [np.array] has built.
    - A Python list of rows that has not yet been checked to be rectangular
      (the [btis] of [get_btis]) is a [list (list Z)].
    - An exception is a value [Raise e] of the type [result]; the
      assertion messages of the source select the constructor of [error].
    - [np.argsort] sorts, and the order that it gives to equal values is
      left open: it is a parameter of the functions that sort
      ([TieOrder]).
    - The module imports [division] from [__future__]: [/] is the true
      division, whose quotient is a float also when it is whole.
    - The half-widths [dt] of [create_gti_mask] are kept doubled
      ([widths]), so that the default [(time[1] - time[0]) / 2] is
      exact. *)

From Stdlib Require Import ZArith List Bool Lia Permutation Sorted.
Import ListNotations.
Open Scope Z_scope.

Set Implicit Arguments.

(** ** Exceptions *)

Inductive error : Type :=
| GtiIncorrect      (* AssertionError: 'This GTI is incorrect' *)
| GtiOverlaps       (* AssertionError: 'This GTI has overlaps' *)
| EmptyNoBounds     (* AssertionError: 'Empty GTI and no valid start_time ...' *)
| NotExclusive      (* ValueError raised by append_gtis *)
| NoChunks          (* AssertionError: 'No GTIs are equal to or longer ...' *)
| IndexError        (* indexing outside an array, or with too many indices *)
| ShapeError        (* operands that cannot be broadcast together *)
| ZeroStep          (* np.arange with a zero step *)
| TypeError.        (* a float where numpy needs an integer *)

Inductive result (A : Type) : Type :=
| Ok (a : A)
| Raise (e : error).

Arguments Ok {A} a.
Arguments Raise {A} e.

Definition bind {A B : Type} (r : result A) (k : A -> result B) : result B :=
  match r with
  | Ok a => k a
  | Raise e => Raise e
  end.

Notation "x <- c ;; k" := (bind c (fun x => k))
  (at level 61, c at next level, right associativity).
Notation "c ;;; k" := (bind c (fun _ => k))
  (at level 61, right associativity).

(** ** Arrays *)

Definition gti : Type := list (Z * Z).

(** [gti[:, 0]] and [gti[:, 1]] *)
Definition col0 (g : gti) : list Z := map fst g.
Definition col1 (g : gti) : list Z := map snd g.

(** The array that [np.array] builds from a list of rows of two numbers:
    an array of shape (n, 2), but the array of shape (0,), of one dimension,
    when the list has no row.  A value of type [gti] passed to a function
    is an array of shape (n, 2). *)
Inductive ndarray : Type :=
| Flat
| Table (rows : gti).

Definition np_array (final_gti : gti) : ndarray :=
  match final_gti with
  | [] => Flat
  | _ :: _ => Table final_gti
  end.

(** [gti[:, 0]], the first indexing that [check_gtis] and [cross_two_gtis]
    do, raises IndexError on an array of one dimension. *)
Definition two_dimensional (a : ndarray) : result gti :=
  match a with
  | Flat => Raise IndexError
  | Table rows => Ok rows
  end.

(** [np.all] *)
Definition np_all (l : list bool) : bool := forallb (fun b => b) l.
(** [np.any] *)
Definition np_any (l : list bool) : bool := existsb (fun b => b) l.

(** elementwise [a >= b] on arrays of the same length *)
Definition ge_arr (a b : list Z) : list bool :=
  map (fun p => fst p >=? snd p) (combine a b).

(** ** check_gtis *)

Definition check_gtis (g : gti) : result unit :=
  let gti_start := col0 g in
  let gti_end := col1 g in
  if negb (np_all (ge_arr gti_end gti_start)) then Raise GtiIncorrect
  else if negb (np_all (ge_arr (tl gti_start) (removelast gti_end)))
       then Raise GtiOverlaps
       else Ok tt.


(** The invariant of an interval list, by recursion on the list. *)
Fixpoint well_behaved (g : gti) : Prop :=
  match g with
  | [] => True
  | (a, b) :: r =>
      a <= b /\
      match r with
      | [] => True
      | (c, _) :: _ => b <= c
      end /\
      well_behaved r
  end.

(** ** Array primitives of numpy used by the module *)

(** Insertion sort by a key, which keeps the order of equal keys. *)
Fixpoint insert_by (A : Type) (key : A -> Z) (x : A) (l : list A) : list A :=
  match l with
  | [] => [x]
  | y :: r => if key x <=? key y then x :: l else y :: insert_by key x r
  end.

Definition sort_by (A : Type) (key : A -> Z) (l : list A) : list A :=
  fold_right (insert_by key) [] l.

(** The positions of an array in the order of the insertion sort. *)
Definition insertion_argsort (a : list Z) : list nat :=
  map snd (sort_by fst (combine a (seq 0 (length a)))).

(** [a[order]] for an index array [order] *)
Definition take (A : Type) (d : A) (a : list A) (order : list nat) : list A :=
  map (fun i => nth i a d) order.

Fixpoint nondecreasing (l : list Z) : bool :=
  match l with
  | x :: ((y :: _) as r) => (x <=? y) && nondecreasing r
  | _ => true
  end.

(** [order] holds every position of [a] once, and the values of [a] taken
    in this order do not decrease. *)
Definition sorts (a : list Z) (order : list nat) : bool :=
  (length order =? length a)%nat
  && forallb (fun i => existsb (Nat.eqb i) order) (seq 0 (length a))
  && nondecreasing (take 0 a order).

(** [np.argsort] returns positions that sort the array, and promises
    nothing about the order of equal values: its default sort is not
    stable.  [tie_order] stands for the order that numpy gives on each
    array; all that is known of it is that it sorts, so that it is
    followed where it does, and any function stands for one admissible
    behaviour of [np.argsort]. *)
Class TieOrder : Type := tie_order : list Z -> list nat.

Definition argsort {ties : TieOrder} (a : list Z) : list nat :=
  let order := tie_order a in
  if sorts a order then order else insertion_argsort a.

(** [np.sort] of a one-dimensional array *)
Definition np_sort (a : list Z) : list Z := sort_by (fun x => x) a.

(** [np.argmax]: position of the first maximum, [None] (ValueError) on an
    empty array. *)
Fixpoint argmax_from (best : Z) (bi i : nat) (l : list Z) : nat :=
  match l with
  | [] => bi
  | x :: r =>
      if best <? x then argmax_from x i (S i) r
      else argmax_from best bi (S i) r
  end.

Definition argmax (l : list Z) : option nat :=
  match l with
  | [] => None
  | x :: r => Some (argmax_from x 0%nat 1%nat r)
  end.

(** [a[a < e]] *)
Definition below (e : Z) (a : list Z) : list Z :=
  filter (fun x => x <? e) a.

(** [a[m]] for a boolean mask [m] *)
Fixpoint select (A : Type) (a : list A) (m : list bool) : list A :=
  match a, m with
  | x :: a', b :: m' => if b then x :: select a' m' else select a' m'
  | _, _ => []
  end.

(** [np.cumsum] *)
Fixpoint cumsum_from (acc : Z) (l : list Z) : list Z :=
  match l with
  | [] => []
  | x :: r => (acc + x) :: cumsum_from (acc + x) r
  end.

Definition cumsum (l : list Z) : list Z := cumsum_from 0 l.

(** [np.roll(a, 1)] *)
Definition roll1 (A : Type) (a : list A) : list A :=
  match a with
  | [] => []
  | x :: r => last a x :: removelast a
  end.

(** [a.flatten()] of an (n, 2) array *)
Fixpoint flatten (g : gti) : list Z :=
  match g with
  | [] => []
  | (a, b) :: r => a :: b :: flatten r
  end.

(** every second element, from the first: [a[::2]] *)
Fixpoint every_other (A : Type) (a : list A) : list A :=
  match a with
  | [] => []
  | [x] => [x]
  | x :: _ :: r => x :: every_other r
  end.

(** [a[start:stop:2]] with Python's treatment of negative bounds *)
Definition slice_bound (len i : Z) : nat :=
  Z.to_nat (Z.max 0 (Z.min len (if i <? 0 then i + len else i))).

Definition slice2 (A : Type) (a : list A) (start stop : Z) : list A :=
  let len := Z.of_nat (length a) in
  let lo := slice_bound len start in
  let hi := slice_bound len stop in
  every_other (firstn (hi - lo) (skipn lo a)).

(** [np.arange(start, stop, step)]: ceil((stop - start) / step) values. *)
Definition arange (start stop step : Z) : result (list Z) :=
  if step =? 0 then Raise ZeroStep
  else
    let n := Z.to_nat (- ((start - stop) / step)) in
    Ok (map (fun k => start + Z.of_nat k * step) (seq 0 n)).

(** A number of Python: an [int], or the [float] that the division [/]
    returns (the module imports [division] from [__future__]), kept as the
    quotient that it stands for. *)
Inductive number : Type :=
| Int (n : Z)
| Float (numerator denominator : Z).

Definition true_div (a b : Z) : number := Float a b.

(** [np.ones(shape)]: a float is refused as a shape. *)
Definition np_ones (shape : number) : result (list Z) :=
  match shape with
  | Int n => Ok (repeat 1 (Z.to_nat n))
  | Float _ _ => Raise TypeError
  end.

(** [a[i]] for a position [i] *)
Definition at_index (a : list Z) (i : nat) : result Z :=
  match nth_error a i with
  | Some x => Ok x
  | None => Raise IndexError
  end.

(** [time[1] - time[0]] *)
Definition bin_time (time : list Z) : result Z :=
  t1 <- at_index time 1 ;;
  t0 <- at_index time 0 ;;
  Ok (t1 - t0).

(** Binary operation on two arrays with numpy's broadcasting of a
    one-element operand. *)
Definition broadcast2 (f : Z -> Z -> Z) (a b : list Z) : result (list Z) :=
  if (length a =? length b)%nat then
    Ok (map (fun p => f (fst p) (snd p)) (combine a b))
  else
    match a, b with
    | _, [y] => Ok (map (fun x => f x y) a)
    | [x], _ => Ok (map (fun y => f x y) b)
    | _, _ => Raise ShapeError
    end.

(** Modelled from the spec: [assign_value_if_none] of [stingray.io], which
    is not among the sources; an optional argument that is not supplied
    takes the given default. *)
Definition assign_value_if_none (A : Type) (value : option A) (default : A)
  : A :=
  match value with
  | Some v => v
  | None => default
  end.

(** ** create_gti_mask *)

(** The [safe_interval] argument: a number, or a pair of numbers. *)
Inductive safe_interval_arg : Type :=
| Scalar (v : Z)
| Margins (at_start at_end : Z).

Definition safe_pair (s : safe_interval_arg) : Z * Z :=
  match s with
  | Scalar v => (v, v)
  | Margins a b => (a, b)
  end.

(** [mask[good] = True] *)
Definition set_true (mask good : list bool) : result (list bool) :=
  if (length good =? length mask)%nat then
    Ok (map (fun p => fst p || snd p) (combine mask good))
  else Raise IndexError.

(** The samples whose window lies in [limmin, limmax].  The half-widths
    come doubled ([width] is [2 * dt]): the default half-width, half the
    distance of the first two samples, need not be an integer, and
    [time - dt >= limmin] is the comparison
    [2 * time - width >= 2 * limmin]. *)
Definition good_samples (time width : list Z) (limmin limmax : Z)
  : result (list bool) :=
  lower <- broadcast2 (fun t w => 2 * t - w) time width ;;
  upper <- broadcast2 (fun t w => 2 * t + w) time width ;;
  let cond1 := map (fun x => x >=? 2 * limmin) lower in
  let cond2 := map (fun x => x <=? 2 * limmax) upper in
  Ok (map (fun p => fst p && snd p) (combine cond1 cond2)).

(** One iteration of the loop over the GTIs; the state is the mask and the
    kept rows of [newgtis]. *)
Definition mask_step (time width : list Z) (safe : Z * Z) (min_length : Z)
  (state : list bool * gti) (g : Z * Z) : result (list bool * gti) :=
  let '(mask, newgtis) := state in
  let '(limmin, limmax) := g in
  let limmin := limmin + fst safe in
  let limmax := limmax - snd safe in
  if limmax - limmin >=? min_length then
    good <- good_samples time width limmin limmax ;;
    mask <- set_true mask good ;;
    Ok (mask, newgtis ++ [(limmin, limmax)])
  else Ok state.

Fixpoint mask_loop (time width : list Z) (safe : Z * Z) (min_length : Z)
  (gtis : gti) (state : list bool * gti) : result (list bool * gti) :=
  match gtis with
  | [] => Ok state
  | g :: r =>
      state <- mask_step time width safe min_length state g ;;
      mask_loop time width safe min_length r state
  end.

(** What [create_gti_mask] returns: the mask, with the new GTIs when
    [return_new_gtis] is set. *)
Inductive mask_result : Type :=
| MaskOnly (mask : list bool)
| MaskAndGtis (mask : list bool) (new_gtis : gti).

Definition mask_of (r : mask_result) : list bool :=
  match r with
  | MaskOnly m => m
  | MaskAndGtis m _ => m
  end.

(** The doubled half-widths: of [dt] when it is given, and the distance
    [bintime] of the first two samples for every sample otherwise. *)
Definition widths (time : list Z) (dt : option (list Z)) (bintime : Z)
  : list Z :=
  assign_value_if_none (option_map (map (Z.mul 2)) dt)
    (map (fun _ => bintime) time).

(** The default of [dt] is an argument of the call of
    [assign_value_if_none]: [time[1] - time[0]] is computed whether or not
    [dt] is given, and raises IndexError on a time axis of fewer than two
    samples. *)
Definition create_gti_mask (time : list Z) (gtis : gti)
  (safe_interval : safe_interval_arg) (min_length : Z)
  (return_new_gtis : bool) (dt : option (list Z)) : result mask_result :=
  check_gtis gtis ;;;
  bintime <- bin_time time ;;
  let width := widths time dt bintime in
  let mask := repeat false (length time) in
  let safe_interval := safe_pair safe_interval in
  res <- mask_loop time width safe_interval min_length gtis (mask, []) ;;
  if return_new_gtis then Ok (MaskAndGtis (fst res) (snd res))
  else Ok (MaskOnly (fst res)).

(** ** cross_two_gtis *)

(** [pair[tag]] for the two-element lists [gti_start] and [gti_end] *)
Definition series (A : Type) (pair : A * A) (tag : bool) : A :=
  if tag then snd pair else fst pair.

(** The body of the [try] block: the candidate start [s] and the position
    [so_pos]; [None] when an exception is caught. *)
Definition candidate (gti_start : list Z * list Z) (this_series : bool)
  (e : Z) : option (Z * nat) :=
  let other_series := negb this_series in
  match argmax (below e (series gti_start this_series)),
        argmax (below e (series gti_start other_series)) with
  | Some st_pos, Some so_pos =>
      match nth_error (series gti_start this_series) st_pos,
            nth_error (series gti_start other_series) so_pos with
      | Some st, Some so => Some (Z.max st so, so_pos)
      | _, _ => None
      end
  | _, _ => None
  end.

(** The test of point 2 of the loop.  [so_pos] has just indexed the start
    column of the same series, so it is a position of its end column. *)
Definition closing_inside (gti_end : list Z * list Z) (other_series : bool)
  (so_pos : nat) (s e : Z) : bool :=
  let cond1 :=
    map (fun x => (x >? s) && (x <? e)) (series gti_end other_series) in
  let cond2 := nth so_pos (series gti_end other_series) 0 <? s in
  np_any (map (fun c => c || cond2) cond1).

(** One iteration of the loop over the sorted ends; the state is
    [(last_end, final_gti)]. *)
Definition cross_step (gti_start gti_end : list Z * list Z)
  (state : Z * gti) (ev : bool * Z) : Z * gti :=
  let '(last_end, final_gti) := state in
  let '(this_series, e) := ev in
  let other_series := negb this_series in
  match candidate gti_start this_series e with
  | None => state
  | Some (s, so_pos) =>
      if s <=? last_end then state
      else if negb (closing_inside gti_end other_series so_pos s e)
           then (e, final_gti ++ [(s, e)])
           else state
  end.

(** The sorted columns [conc_start], [conc_end], [conc_tag]. *)
Definition conc_sorted {ties : TieOrder} (gti0 gti1 : gti)
  : list Z * list Z * list bool :=
  let gti0_tag := map (fun _ => false) (col0 gti0) in
  let gti1_tag := map (fun _ => true) (col0 gti1) in
  let conc_start := col0 gti0 ++ col0 gti1 in
  let conc_end := col1 gti0 ++ col1 gti1 in
  let conc_tag := gti0_tag ++ gti1_tag in
  let order := argsort conc_end in
  (take 0 conc_start order, take 0 conc_end order, take false conc_tag order).

(** The result is the list [final_gti] of the rows that the sweep has
    emitted.  The function returns [np.array(final_gti)]: the array of
    these rows, which has one dimension when there is none
    ([np_array]). *)
Definition cross_two_gtis {ties : TieOrder} (gti0 gti1 : gti) : result gti :=
  check_gtis gti0 ;;;
  check_gtis gti1 ;;;
  let gti_start := (col0 gti0, col0 gti1) in
  let gti_end := (col1 gti0, col1 gti1) in
  let '(conc_start, conc_end, conc_tag) := conc_sorted gti0 gti1 in
  match conc_start with
  | [] => Raise IndexError
  | c0 :: _ =>
      let last_end := c0 - 1 in
      Ok (snd (fold_left (cross_step gti_start gti_end)
                 (combine conc_tag conc_end) (last_end, [])))
  end.

(** ** get_btis *)

(** The result is the list [btis] that the function hands to
    [np.asarray]. *)
Definition get_btis (gtis : gti) (start_time stop_time : option Z)
  : result (list (list Z)) :=
  match gtis with
  | [] =>
      match start_time, stop_time with
      | Some t0, Some t1 => Ok [[t0; t1]]
      | _, _ => Raise EmptyNoBounds
      end
  | first :: _ =>
      check_gtis gtis ;;;
      let final := last gtis first in
      let start_time := assign_value_if_none start_time (fst first) in
      let stop_time := assign_value_if_none stop_time (snd final) in
      let btis :=
        if fst first - start_time <=? 0 then []
        else [[fst first - start_time]] in
      let flat_gtis := flatten gtis in
      let new_flat_btis :=
        combine (slice2 flat_gtis 1 (-2)) (slice2 flat_gtis 2 (-1)) in
      let btis := btis ++ map (fun p => [fst p; snd p]) new_flat_btis in
      let btis :=
        if stop_time - snd final >? 0
        then btis ++ [[fst first - stop_time]]
        else btis in
      Ok btis
  end.

(** An array built from a list of rows, used as a GTI array: [gti[:, 0]]
    needs two dimensions, which [np.asarray] gives only to a non-empty
    list of rows of one length. *)
Fixpoint rows_as_pairs (rows : list (list Z)) : result gti :=
  match rows with
  | [] => Ok []
  | [a; b] :: r => g <- rows_as_pairs r ;; Ok ((a, b) :: g)
  | _ :: _ => Raise IndexError
  end.

Definition as_gti (rows : list (list Z)) : result gti :=
  match rows with
  | [] => Raise IndexError
  | _ => rows_as_pairs rows
  end.

(** ** check_separate, append_gtis, join_gtis *)

Definition check_separate (gti0 gti1 : gti) : result bool :=
  if (length gti0 =? 0)%nat || (length gti1 =? 0)%nat then Ok true
  else
    check_gtis gti0 ;;;
    check_gtis gti1 ;;;
    let gti0_start := hd 0 (col0 gti0) in
    let gti0_end := last (col1 gti0) 0 in
    let gti1_start := hd 0 (col0 gti1) in
    let gti1_end := last (col1 gti1) 0 in
    if (gti0_end <=? gti1_start) || (gti1_end <=? gti0_start) then Ok true
    else Ok false.

Definition append_gtis (gti0 gti1 : gti) : result gti :=
  check_gtis gti0 ;;;
  check_gtis gti1 ;;;
  separate <- check_separate gti0 gti1 ;;
  if negb separate then Raise NotExclusive
  else Ok (gti0 ++ gti1).

(** [np.asarray(list(zip(-np.ones(n), np.ones(n))))], flattened by
    [np.append] *)
Definition boundary_types (n : number) : result (list Z) :=
  opening <- np_ones n ;;
  closing <- np_ones n ;;
  Ok (flatten (combine (map Z.opp opening) closing)).

(** The sorted boundaries [g_all] and their types [g_type_all].  The
    count [len(g0) / 2] that [np.ones] is given is a float. *)
Definition sorted_boundaries {ties : TieOrder} (gti0 gti1 : gti)
  : result (list Z * list Z) :=
  let g0 := flatten gti0 in
  g0_type <- boundary_types (true_div (Z.of_nat (length g0)) 2) ;;
  let g1 := flatten gti1 in
  g1_type <- boundary_types (true_div (Z.of_nat (length g1)) 2) ;;
  let g_all := g0 ++ g1 in
  let g_type_all := g0_type ++ g1_type in
  let order := argsort g_all in
  Ok (take 0 g_all order, take 0 g_type_all order).

(** [np.sort(final_gti, axis=0)]: each column is sorted on its own. *)
Definition sort_axis0 (g : gti) : gti :=
  combine (np_sort (col0 g)) (np_sort (col1 g)).

Definition join_gtis {ties : TieOrder} (gti0 gti1 : gti) : result gti :=
  check_gtis gti0 ;;;
  check_gtis gti1 ;;;
  separate <- check_separate gti0 gti1 ;;
  if separate then append_gtis gti0 gti1
  else
    boundaries <- sorted_boundaries gti0 gti1 ;;
    let '(g_all, g_type_all) := boundaries in
    let sums := cumsum g_type_all in
    let closing_bins := map (fun x => x =? 0) sums in
    let starting_bins := roll1 closing_bins in
    let starting_times := select g_all starting_bins in
    let closing_times := select g_all closing_bins in
    let final_gti := combine starting_times closing_times in
    Ok (sort_axis0 final_gti).

(** ** time_intervals_from_gtis *)

Fixpoint chunk_starts (gtis : gti) (chunk_length : Z)
  (spectrum_start_times : list Z) : result (list Z) :=
  match gtis with
  | [] => Ok spectrum_start_times
  | g :: r =>
      if snd g - fst g <? chunk_length
      then chunk_starts r chunk_length spectrum_start_times
      else
        newtimes <- arange (fst g) (snd g - chunk_length) chunk_length ;;
        chunk_starts r chunk_length (spectrum_start_times ++ newtimes)
  end.

Definition time_intervals_from_gtis (gtis : gti) (chunk_length : Z)
  : result (list Z * list Z) :=
  spectrum_start_times <- chunk_starts gtis chunk_length [] ;;
  if (0 <? length spectrum_start_times)%nat
  then Ok (spectrum_start_times,
           map (fun t => t + chunk_length) spectrum_start_times)
  else Raise NoChunks.

(** * The rules of the specification

    The definitions of this part follow the words of the specification,
    not the code; the theorems compare them with the functions above. *)

(** The rows of the two series with their tag, in the order of the
    concatenation, and their columns. *)
Definition tagged (tag : bool) (g : gti) : list (Z * Z * bool) :=
  map (fun p => (p, tag)) g.

Definition tagged_rows (gti0 gti1 : gti) : list (Z * Z * bool) :=
  tagged false gti0 ++ tagged true gti1.

Definition row_start (r : Z * Z * bool) : Z := fst (fst r).
Definition row_end (r : Z * Z * bool) : Z := snd (fst r).
Definition row_tag (r : Z * Z * bool) : bool := snd r.

Definition event_of (r : Z * Z * bool) : bool * Z := (row_tag r, row_end r).

(** The order of a sort by [key]. *)
Definition key_le (A : Type) (key : A -> Z) (x y : A) : Prop :=
  key x <= key y.

(** The order of the sweep: events by increasing stop. *)
Definition stop_le (x y : bool * Z) : Prop := snd x <= snd y.

(** The stop events of the two series in the order of the sweep:
    [(tag, stop)], by increasing stop; of two events of one stop, the one
    of the first series, or the earlier one of a series, comes first. *)
Definition stop_events (gti0 gti1 : gti) : list (bool * Z) :=
  map event_of (sort_by row_end (tagged_rows gti0 gti1)).

Module SweepRule.

(** The latest start of a series strictly before [e]. *)
Definition latest_start (starts : list Z) (e : Z) : option Z :=
  match below e starts with
  | [] => None
  | x :: r => Some (fold_left Z.max r x)
  end.

(** (a) the candidate start lies at or before the previously emitted
    stop *)
Definition at_or_before (prev : option Z) (s : Z) : bool :=
  match prev with
  | Some p => s <=? p
  | None => false
  end.

(** (b) the other series closes an interval strictly inside the
    candidate *)
Definition closes_inside (other : gti) (s e : Z) : bool :=
  existsb (fun p => (s <? snd p) && (snd p <? e)) other.

(** (c) the first interval of the other series that starts at its latest
    start [so] has its stop before the candidate start *)
Fixpoint stop_of (other : gti) (so : Z) : option Z :=
  match other with
  | [] => None
  | (a, b) :: r => if a =? so then Some b else stop_of r so
  end.

Definition ended_before (other : gti) (so s : Z) : bool :=
  match stop_of other so with
  | Some b => b <? s
  | None => false
  end.

(** The sweep, for a rule [reject other prev so s e] that decides
    whether the candidate [s, e] is refused. *)
Section Sweep.
Variable reject : gti -> option Z -> Z -> Z -> Z -> bool.
Variables gti0 gti1 : gti.

Definition emitted (tag : bool) (prev : option Z) (e : Z)
  : option (Z * Z) :=
  let this := if tag then gti1 else gti0 in
  let other := if tag then gti0 else gti1 in
  match latest_start (col0 this) e, latest_start (col0 other) e with
  | Some st, Some so =>
      let s := Z.max st so in
      if reject other prev so s e then None else Some (s, e)
  | _, _ => None
  end.

Fixpoint sweep (events : list (bool * Z)) (prev : option Z) : gti :=
  match events with
  | [] => []
  | (tag, e) :: r =>
      match emitted tag prev e with
      | Some iv => iv :: sweep r (Some e)
      | None => sweep r prev
      end
  end.
End Sweep.

(** (c), read as "at or before the candidate start" *)
Definition ended_by (other : gti) (so s : Z) : bool :=
  match stop_of other so with
  | Some b => b <=? s
  | None => false
  end.

(** The rule as the specification states it: (a) or (b). *)
Definition stated_reject (other : gti) (prev : option Z) (so s e : Z)
  : bool :=
  at_or_before prev s || closes_inside other s e.

(** The rule with the third test: (a), (b) or (c). *)
Definition full_reject (other : gti) (prev : option Z) (so s e : Z)
  : bool :=
  at_or_before prev s || closes_inside other s e || ended_before other so s.

Definition lax_reject (other : gti) (prev : option Z) (so s e : Z)
  : bool :=
  at_or_before prev s || closes_inside other s e || ended_by other so s.

Definition stated_cross (gti0 gti1 : gti) : gti :=
  sweep stated_reject gti0 gti1 (stop_events gti0 gti1) None.

Definition full_cross (gti0 gti1 : gti) : gti :=
  sweep full_reject gti0 gti1 (stop_events gti0 gti1) None.

End SweepRule.

(** The signed boundaries of one interval list, in the order of
    [flatten]. *)
Definition signed (g : gti) : list (Z * Z) :=
  flat_map (fun p => [(fst p, -1); (snd p, 1)]) g.

Module JoinRule.

(** The signed events in the order of the sweep: [(time, weight)] with
    weight -1 for a start and +1 for a stop, by increasing time; of two
    events of one time, the one of the first list, or the earlier one of a
    list, comes first. *)
Definition boundaries (gti0 gti1 : gti) : list (Z * Z) :=
  sort_by fst (signed gti0 ++ signed gti1).

(** The running sum [running] over the boundaries seen so far; [opened]
    is the start of the merged interval that is open, if one is.  A
    merged interval closes where the sum returns to zero, and the next
    boundary opens the next one. *)
Fixpoint merge (events : list (Z * Z)) (running : Z) (opened : option Z)
  : gti :=
  match events with
  | [] => []
  | (t, w) :: r =>
      let start := match opened with Some s => s | None => t end in
      if running + w =? 0 then (start, t) :: merge r 0 None
      else merge r (running + w) (Some start)
  end.

Definition merged (gti0 gti1 : gti) : gti :=
  merge (boundaries gti0 gti1) 0 None.

End JoinRule.

(** The sorted concatenation of two interval lists (by start). *)
Definition sorted_concat (gti0 gti1 : gti) : gti :=
  sort_by fst (gti0 ++ gti1).

(** The rows [[a; b]] of an array of pairs. *)
Definition rows_of (g : gti) : list (list Z) :=
  map (fun p => [fst p; snd p]) g.

(** The bad time intervals as the specification lists them. *)
Fixpoint gaps (g : gti) : gti :=
  match g with
  | (_, b) :: (((c, _) :: _) as r) =>
      if b <? c then (b, c) :: gaps r else gaps r
  | _ => []
  end.

Definition stated_btis (gtis : gti) (start_time stop_time : Z) : gti :=
  match gtis with
  | [] => [(start_time, stop_time)]
  | first :: _ =>
      let final := last gtis first in
      (if start_time <? fst first then [(start_time, fst first)] else [])
      ++ gaps gtis
      ++ (if stop_time >? snd final then [(snd final, stop_time)] else [])
  end.

(** The chunks of one GTI as the specification lists them: consecutive
    windows from the start, while a whole window still fits. *)
Fixpoint stated_windows (fuel : nat) (t stop chunk_length : Z) : gti :=
  match fuel with
  | O => []
  | S fuel' =>
      if t + chunk_length <=? stop
      then (t, t + chunk_length)
             :: stated_windows fuel' (t + chunk_length) stop chunk_length
      else []
  end.

Definition stated_chunks (gtis : gti) (chunk_length : Z) : gti :=
  flat_map (fun g => stated_windows (Z.to_nat (snd g - fst g)) (fst g)
                       (snd g) chunk_length) gtis.

(** The interval [g] shrunk by the safety margins, and the window of a
    sample of time [t] and half-width [d] lying within an interval. *)
Definition shrunk (safe : Z * Z) (g : Z * Z) : Z * Z :=
  (fst g + fst safe, snd g - snd safe).

Definition window_within (t d : Z) (iv : Z * Z) : Prop :=
  fst iv <= t - d /\ t + d <= snd iv.

Definition long_enough (min_length : Z) (iv : Z * Z) : Prop :=
  min_length <= snd iv - fst iv.

(** ** Auxiliary definitions of the proofs *)

(** The pairs [(stop_i, start_{i+1})] of the consecutive intervals. *)
Fixpoint between (g : gti) : gti :=
  match g with
  | (_, b) :: (((c, _) :: _) as r) => (b, c) :: between r
  | _ => []
  end.

(** The sum of an array. *)
Definition total (l : list Z) : Z := fold_right Z.add 0 l.

(** The total length of an interval list without the wrap-around. *)
Definition exact_len (g : gti) : Z :=
  total (map (fun p => snd p - fst p) g).

(** The event of the other series at the same stop. *)
Definition flip (ev : bool * Z) : bool * Z := (negb (fst ev), snd ev).

(** The series of an event and the other one. *)
Definition this_gti (gti0 gti1 : gti) (tag : bool) : gti :=
  if tag then gti1 else gti0.

Definition other_gti (gti0 gti1 : gti) (tag : bool) : gti :=
  if tag then gti0 else gti1.

(** The intervals of a list are not empty. *)
Definition positive (g : gti) : Prop := Forall (fun p => fst p < snd p) g.

(** Two interval lists touch when an interval of one stops where an
    interval of the other starts. *)
Definition touching (gti0 gti1 : gti) : Prop :=
  exists p q, In p gti0 /\ In q gti1 /\ (snd p = fst q \/ snd q = fst p).

(** * Further functions of the module *)

(** ** cross_gtis *)

(** The loop of [cross_gtis].  [gti0] is an element of [gti_list] or the
    array that [cross_two_gtis] has built with [np.array(final_gti)]: that
    array has one dimension when [final_gti] is empty, and [gti0[:, 0]]
    raises on it in the next call. *)
Fixpoint cross_rest {ties : TieOrder} (gti0 : ndarray) (rest : list gti)
  : result ndarray :=
  match rest with
  | [] => Ok gti0
  | g :: r =>
      rows <- two_dimensional gti0 ;;
      final_gti <- cross_two_gtis rows g ;;
      cross_rest (np_array final_gti) r
  end.

Definition cross_gtis {ties : TieOrder} (gti_list : list gti)
  : result ndarray :=
  match gti_list with
  | [] => Raise IndexError
  | [g] => Ok (Table g)
  | gti0 :: rest => cross_rest (Table gti0) rest
  end.

(** [check_gtis] of an array that a function of the module has
    returned. *)
Definition check_array (a : ndarray) : result unit :=
  rows <- two_dimensional a ;;
  check_gtis rows.

(** ** gti_len *)

(** The wrap-around of the signed 64-bit integers of numpy. *)
Definition wrap64 (z : Z) : Z := (z + 2 ^ 63) mod 2 ^ 64 - 2 ^ 63.

(** [np.sum([g[1] - g[0] for g in gti])] on an array of 64-bit integers:
    each difference, and their sum, wraps around. *)
Definition gti_len (g : gti) : Z :=
  fold_left (fun acc d => wrap64 (acc + d))
    (map (fun p => wrap64 (snd p - fst p)) g) 0.

(** ** gti_border_bins and bin_intervals_from_gtis *)

(** [np.argmin]: position of the first minimum, [None] on an empty
    array. *)
Fixpoint argmin_from (best : Z) (bi i : nat) (l : list Z) : nat :=
  match l with
  | [] => bi
  | x :: r =>
      if x <? best then argmin_from x i (S i) r
      else argmin_from best bi (S i) r
  end.

Definition argmin (l : list Z) : option nat :=
  match l with
  | [] => None
  | x :: r => Some (argmin_from x 0%nat 1%nat r)
  end.

(** The two functions compare times with the edges [time - bintime / 2]
    and [time + bintime / 2] of the bins.  Half a bin time need not be an
    integer: the definitions below hold every such comparison with both
    sides doubled, which is the same comparison. *)

(** The bins whose edges lie within [g], the edges included or ([strict])
    excluded. *)
Definition enclosed (strict : bool) (time : list Z) (bintime : Z)
  (g : Z * Z) : list bool :=
  map (fun t =>
         if strict
         then (2 * t - bintime >? 2 * fst g) && (2 * t + bintime <? 2 * snd g)
         else (2 * t - bintime >=? 2 * fst g)
              && (2 * t + bintime <=? 2 * snd g))
      time.

(** [startbin] and [stopbin] of one GTI, after the two corrections by
    one. *)
Definition border_bins (time : list Z) (bintime : Z) (g : Z * Z)
  : result (Z * Z) :=
  match argmin (map (fun t => Z.abs (2 * t - bintime - 2 * fst g)) time),
        argmin (map (fun t => Z.abs (2 * t + bintime - 2 * snd g)) time)
  with
  | Some startbin, Some stopbin =>
      t_start <- at_index time startbin ;;
      let startbin :=
        if t_start <? fst g then Z.of_nat startbin + 1
        else Z.of_nat startbin in
      t_stop <- at_index time stopbin ;;
      let stopbin :=
        if 2 * t_stop <? 2 * snd g + bintime then Z.of_nat stopbin + 1
        else Z.of_nat stopbin in
      Ok (startbin, stopbin)
  | _, _ => Raise IndexError
  end.

(** The loop of [gti_border_bins] (the line that it prints for a GTI
    without a bin is not modelled). *)
Fixpoint border_loop (time : list Z) (bintime : Z) (gtis : gti)
  (spectrum_start_bins spectrum_stop_bins : list Z)
  : result (list Z * list Z) :=
  match gtis with
  | [] => Ok (spectrum_start_bins, spectrum_stop_bins)
  | g :: r =>
      let good := enclosed false time bintime g in
      let t_good := select time good in
      if (length t_good =? 0)%nat
      then border_loop time bintime r spectrum_start_bins spectrum_stop_bins
      else
        bins <- border_bins time bintime g ;;
        border_loop time bintime r
          (spectrum_start_bins ++ [fst bins])
          (spectrum_stop_bins ++ [snd bins])
  end.

Definition gti_border_bins (gtis : gti) (time : list Z)
  : result (list Z * list Z) :=
  bintime <- bin_time time ;;
  bins <- border_loop time bintime gtis [] [] ;;
  if (0 <? length (fst bins))%nat then Ok bins else Raise NoChunks.

(** [np.long(chunk_length / bintime)]: the quotient truncated towards
    zero; with a bin time of zero the quotient is not a finite number and
    the conversion raises. *)
Definition whole_bins (chunk_length bintime : Z) : option Z :=
  if bintime =? 0 then None else Some (Z.quot chunk_length bintime).

Fixpoint bin_loop (time : list Z) (bintime chunk_length nbin : Z)
  (gtis : gti) (spectrum_start_bins : list Z) : result (list Z) :=
  match gtis with
  | [] => Ok spectrum_start_bins
  | g :: r =>
      if snd g - fst g <? chunk_length
      then bin_loop time bintime chunk_length nbin r spectrum_start_bins
      else
        let good := enclosed true time bintime g in
        let t_good := select time good in
        if (length t_good =? 0)%nat
        then bin_loop time bintime chunk_length nbin r spectrum_start_bins
        else
          bins <- border_bins time bintime g ;;
          newbins <- arange (fst bins) (snd bins - nbin + 1) nbin ;;
          bin_loop time bintime chunk_length nbin r
            (spectrum_start_bins ++ newbins)
  end.

(** [None] stands for the exception of the conversion to an integer (see
    [whole_bins]), which is not among the exceptions of [error]. *)
Definition bin_intervals_from_gtis (gtis : gti) (chunk_length : Z)
  (time : list Z) : option (result (list Z * list Z)) :=
  match bin_time time with
  | Raise e => Some (Raise e)
  | Ok bintime =>
      match whole_bins chunk_length bintime with
      | None => None
      | Some nbin =>
          Some (spectrum_start_bins <-
                  bin_loop time bintime chunk_length nbin gtis [] ;;
                if (0 <? length spectrum_start_bins)%nat
                then Ok (spectrum_start_bins,
                         map (fun b => b + nbin) spectrum_start_bins)
                else Raise NoChunks)
      end
  end.

(** ** Auxiliary definitions of the further proofs *)

(** An interval list whose intervals are not empty and lie strictly
    apart. *)
Fixpoint strictly_behaved (g : gti) : Prop :=
  match g with
  | [] => True
  | (a, b) :: r =>
      a < b /\
      match r with
      | [] => True
      | (c, _) :: _ => b < c
      end /\
      strictly_behaved r
  end.

(** The stop events of a list crossed with itself, the two events of an
    interval side by side. *)
Definition twin_events (g : gti) : list (bool * Z) :=
  flat_map (fun p => [(false, snd p); (true, snd p)]) g.

(** A start time and a later one at least a chunk apart. *)
Definition chunk_apart (chunk_length : Z) (t u : Z) : Prop :=
  t + chunk_length <= u.

(** The window of a start time lies in [g] and ends before [g] stops. *)
Definition window_in (chunk_length : Z) (g : Z * Z) (t : Z) : Prop :=
  fst g <= t /\ t + chunk_length < snd g.

(** The window of a sample of time [t] and doubled half-width [w] lying
    within an interval. *)
Definition window_fits (t w : Z) (iv : Z * Z) : Prop :=
  2 * fst iv <= 2 * t - w /\ 2 * t + w <= 2 * snd iv.

(** The shrinking of [g] collapses: its stop comes before its start. *)
Definition collapses (safe : Z * Z) (g : Z * Z) : bool :=
  snd (shrunk safe g) <? fst (shrunk safe g).

(** The test of [create_gti_mask] on a shrunk interval. *)
Definition keeps (min_length : Z) (iv : Z * Z) : bool :=
  snd iv - fst iv >=? min_length.

(** An interval that stops at or before the start of another. *)
Definition precedes (p q : Z * Z) : Prop := snd p <= fst q.

(** The order that leaves equal values as they come: the one of the
    insertion sort, which numpy runs on short arrays. *)
Definition first_come : TieOrder := insertion_argsort.

(** Two validated lists of eighteen rows in all.  The rows [2,3] and [3,3]
    of the second one have the least stop, and [3,3] is an empty
    interval. *)
Definition tie_a : gti :=
  [(2, 4); (10, 11); (12, 13); (14, 15); (16, 17)].

Definition tie_b : gti :=
  [(2, 3); (3, 3); (10, 11); (12, 13); (14, 15); (16, 17); (18, 19);
   (20, 21); (22, 23); (24, 25); (26, 27); (28, 29); (30, 31)].

(** A bin index that may bound a slice of the time axis. *)
Definition slice_index (time : list Z) (b : Z) : Prop :=
  0 <= b <= Z.of_nat (length time).

(** The bin of the sample [t] lies within [g], its edges included. *)
Definition bin_within (bintime : Z) (g : Z * Z) (t : Z) : Prop :=
  2 * fst g <= 2 * t - bintime /\ 2 * t + bintime <= 2 * snd g.

(** A chunk of [nbin] bins that starts at the bin [b] of the time axis. *)
Definition chunk_of_bins (time : list Z) (nbin b : Z) : Prop :=
  0 <= b /\ b + nbin <= Z.of_nat (length time).

(** Every interval of [gti0] stops at or before the start of every
    interval of [gti1]. *)
Definition all_before (gti0 gti1 : gti) : Prop :=
  forall p q, In p gti0 -> In q gti1 -> snd p <= fst q.

(** * Properties *)

Lemma ge_arr_cols_all (g : gti) :
  np_all (ge_arr (col1 g) (col0 g)) = true <->
  Forall (fun p => fst p <= snd p) g.
Proof.
  induction g as [|[a b] r IH]; simpl.
  - split; auto.
  - rewrite andb_true_iff, IH, Forall_cons_iff. simpl.
    rewrite Z.geb_le. tauto.
Qed.

Lemma removelast_cons2 (A : Type) (x y : A) (l : list A) :
  removelast (x :: y :: l) = x :: removelast (y :: l).
Proof. reflexivity. Qed.

Lemma ge_arr_overlap_all (g : gti) :
  Forall (fun p => fst p <= snd p) g ->
  (np_all (ge_arr (tl (col0 g)) (removelast (col1 g))) = true <->
   well_behaved g).
Proof.
  induction g as [|[a b] r IH]; intros HF.
  - simpl; tauto.
  - inversion HF as [|? ? Hab HF']; subst. simpl in Hab.
    destruct r as [|[c d] r'].
    + simpl. intuition.
    + specialize (IH HF').
      change (col1 ((a, b) :: (c, d) :: r'))
        with (b :: col1 ((c, d) :: r')).
      change (col0 ((a, b) :: (c, d) :: r'))
        with (a :: c :: col0 r').
      unfold col1 at 1. simpl map.
      rewrite removelast_cons2.
      change (tl (a :: c :: col0 r')) with (c :: col0 r').
      unfold ge_arr. simpl combine. simpl map. simpl np_all.
      rewrite andb_true_iff, Z.geb_le.
      change (c :: col0 r') with (col0 ((c, d) :: r')) in IH.
      simpl tl in IH. unfold ge_arr, col1 in IH. simpl map in IH.
      rewrite IH.
      change (well_behaved ((a, b) :: (c, d) :: r'))
        with (a <= b /\ b <= c /\ well_behaved ((c, d) :: r')).
      tauto.
Qed.

Lemma well_behaved_Forall (g : gti) :
  well_behaved g -> Forall (fun p => fst p <= snd p) g.
Proof.
  induction g as [|[a b] r IH]; intros H; constructor.
  - simpl in *; tauto.
  - apply IH. simpl in H. tauto.
Qed.

Lemma check_gtis_Ok (g : gti) :
  check_gtis g = Ok tt <-> well_behaved g.
Proof.
  unfold check_gtis.
  destruct (np_all (ge_arr (col1 g) (col0 g))) eqn:E1; simpl.
  - apply ge_arr_cols_all in E1.
    destruct (np_all (ge_arr (tl (col0 g)) (removelast (col1 g)))) eqn:E2;
      simpl.
    + apply ge_arr_overlap_all in E2; auto. tauto.
    + split; [discriminate|]. intros H.
      apply ge_arr_overlap_all in H; auto. congruence.
  - split; [discriminate|]. intros H.
    apply well_behaved_Forall, ge_arr_cols_all in H. congruence.
Qed.

(** ** Sorting and argsort *)

Section SortBy.
Variable A : Type.
Variable key : A -> Z.

Lemma insert_by_perm (x : A) (l : list A) :
  Permutation (insert_by key x l) (x :: l).
Proof.
  induction l as [|y r IH]; simpl.
  - apply Permutation_refl.
  - destruct (key x <=? key y).
    + apply Permutation_refl.
    + eapply perm_trans; [apply perm_skip, IH|apply perm_swap].
Qed.

Lemma sort_by_perm (l : list A) : Permutation (sort_by key l) l.
Proof.
  induction l as [|x r IH]; simpl.
  - constructor.
  - eapply perm_trans; [apply insert_by_perm|]. apply perm_skip, IH.
Qed.

Lemma insert_by_sorted (x : A) (l : list A) :
  StronglySorted (key_le key) l -> StronglySorted (key_le key) (insert_by key x l).
Proof.
  induction l as [|y r IH]; intros Hs; simpl.
  - repeat constructor.
  - inversion Hs as [|? ? Hr Hy]; subst.
    destruct (key x <=? key y) eqn:E.
    + apply Z.leb_le in E. constructor; [exact Hs|].
      constructor; [exact E|].
      eapply Forall_impl; [|exact Hy]. unfold key_le. intros; lia.
    + apply Z.leb_gt in E. constructor; [apply IH, Hr|].
      eapply Permutation_Forall;
        [apply Permutation_sym, insert_by_perm|].
      constructor; [unfold key_le; lia|exact Hy].
Qed.

Lemma sort_by_sorted (l : list A) : StronglySorted (key_le key) (sort_by key l).
Proof.
  induction l as [|x r IH]; simpl.
  - constructor.
  - apply insert_by_sorted, IH.
Qed.

Lemma sort_by_of_sorted (l : list A) :
  StronglySorted (key_le key) l -> sort_by key l = l.
Proof.
  induction l as [|x r IH]; intros Hs; simpl; [reflexivity|].
  inversion Hs as [|? ? Hr Hx]; subst. rewrite (IH Hr).
  destruct r as [|y r']; [reflexivity|]. simpl.
  inversion Hx as [|? ? Hxy _]; subst. unfold key_le in Hxy.
  apply Z.leb_le in Hxy. rewrite Hxy. reflexivity.
Qed.

End SortBy.

Lemma insert_by_map (A B : Type) (key : B -> Z) (g : A -> B) (x : A)
  (l : list A) :
  insert_by key (g x) (map g l) = map g (insert_by (fun a => key (g a)) x l).
Proof.
  induction l as [|y r IH]; simpl; [reflexivity|].
  destruct (key (g x) <=? key (g y)); simpl; [reflexivity|].
  rewrite IH. reflexivity.
Qed.

Lemma sort_by_map (A B : Type) (key : B -> Z) (g : A -> B) (l : list A) :
  sort_by key (map g l) = map g (sort_by (fun a => key (g a)) l).
Proof.
  induction l as [|x r IH]; simpl; [reflexivity|].
  rewrite IH. apply insert_by_map.
Qed.

Lemma combine_seq_nth (A : Type) (rows : list A) (k : nat) (r : A)
  (i : nat) :
  In (r, i) (combine rows (seq k (length rows))) ->
  (k <= i)%nat /\ nth_error rows (i - k) = Some r.
Proof.
  revert k. induction rows as [|x rows IH]; intros k; simpl; [tauto|].
  intros [E|Hin].
  - injection E as <- <-. split; [lia|]. rewrite Nat.sub_diag. reflexivity.
  - apply IH in Hin. destruct Hin as [Hk Hn]. split; [lia|].
    replace (i - k)%nat with (S (i - S k)) by lia. exact Hn.
Qed.

Lemma map_fst_combine_seq (A : Type) (rows : list A) (k : nat) :
  map fst (combine rows (seq k (length rows))) = rows.
Proof.
  revert k. induction rows as [|x rows IH]; intros k; simpl; [reflexivity|].
  rewrite IH. reflexivity.
Qed.

Lemma combine_map_seq (A : Type) (key : A -> Z) (rows : list A) (k : nat) :
  combine (map key rows) (seq k (length rows)) =
  map (fun p => (key (fst p), snd p)) (combine rows (seq k (length rows))).
Proof.
  revert k. induction rows as [|x rows IH]; intros k; simpl; [reflexivity|].
  rewrite IH. reflexivity.
Qed.

(** Indexing the columns of an array with the positions of the insertion
    sort of its key column sorts the rows by the key. *)
Lemma take_insertion_argsort (A B : Type) (key : A -> Z) (f : A -> B)
  (d : B) (rows : list A) :
  take d (map f rows) (insertion_argsort (map key rows))
  = map f (sort_by key rows).
Proof.
  unfold insertion_argsort, take. rewrite length_map, combine_map_seq.
  rewrite (sort_by_map fst). simpl. rewrite !map_map. simpl.
  rewrite <- (map_fst_combine_seq rows 0) at 3.
  rewrite (sort_by_map key fst), map_map.
  apply map_ext_in. intros [r i] Hin. simpl.
  assert (Hd : In (r, i) (combine rows (seq 0 (length rows)))).
  { eapply Permutation_in; [apply sort_by_perm|exact Hin]. }
  apply combine_seq_nth in Hd. destruct Hd as [_ Hn].
  rewrite Nat.sub_0_r in Hn.
  apply nth_error_nth. rewrite nth_error_map, Hn. reflexivity.
Qed.

Lemma nondecreasing_sorted (l : list Z) :
  nondecreasing l = true -> StronglySorted Z.le l.
Proof.
  induction l as [|x r IH]; intros H; [constructor|].
  destruct r as [|y r'].
  - repeat constructor.
  - change ((x <=? y) && nondecreasing (y :: r') = true) in H.
    apply andb_true_iff in H. destruct H as [Hxy Hr].
    apply Z.leb_le in Hxy. specialize (IH Hr).
    constructor; [exact IH|].
    inversion IH as [|? ? _ Hy]; subst.
    constructor; [exact Hxy|].
    eapply Forall_impl; [|exact Hy]. simpl. intros; lia.
Qed.

(** What the test [sorts] says of an order. *)
Lemma sorts_spec (a : list Z) (order : list nat) :
  sorts a order = true ->
  Permutation order (seq 0 (length a)) /\
  StronglySorted Z.le (take 0 a order).
Proof.
  unfold sorts. intros H.
  apply andb_true_iff in H. destruct H as [H Hs].
  apply andb_true_iff in H. destruct H as [Hl Hall].
  apply Nat.eqb_eq in Hl. split; [|apply nondecreasing_sorted, Hs].
  apply Permutation_sym, NoDup_Permutation_bis.
  - apply seq_NoDup.
  - rewrite length_seq. lia.
  - intros i Hi. rewrite forallb_forall in Hall. specialize (Hall i Hi).
    apply existsb_exists in Hall. destruct Hall as (j & Hj & E).
    apply Nat.eqb_eq in E. subst j. exact Hj.
Qed.

Lemma map_snd_combine_seq (A : Type) (rows : list A) (k : nat) :
  map snd (combine rows (seq k (length rows))) = seq k (length rows).
Proof.
  revert k. induction rows as [|x rows IH]; intros k; simpl; [reflexivity|].
  rewrite IH. reflexivity.
Qed.

Lemma insertion_argsort_perm (a : list Z) :
  Permutation (insertion_argsort a) (seq 0 (length a)).
Proof.
  unfold insertion_argsort.
  eapply perm_trans; [apply Permutation_map, sort_by_perm|].
  rewrite map_snd_combine_seq. apply Permutation_refl.
Qed.

(** Whatever the order of equal values, [np.argsort] returns every
    position once, and the values in its order do not decrease. *)
Lemma argsort_spec {ties : TieOrder} (a : list Z) :
  Permutation (argsort a) (seq 0 (length a)) /\
  StronglySorted Z.le (take 0 a (argsort a)).
Proof.
  unfold argsort. destruct (sorts a (tie_order a)) eqn:E.
  - apply sorts_spec, E.
  - split; [apply insertion_argsort_perm|].
    pose proof (@take_insertion_argsort Z Z (fun x => x) (fun x => x) 0 a)
      as H.
    rewrite !map_id in H. rewrite H.
    exact (sort_by_sorted (fun x => x) a).
Qed.

Lemma map_nth_seq (A : Type) (d : A) (rows : list A) :
  map (fun i => nth i rows d) (seq 0 (length rows)) = rows.
Proof.
  induction rows as [|x r IH]; [reflexivity|].
  cbn [length seq map nth]. f_equal.
  rewrite <- seq_shift, map_map. exact IH.
Qed.

Lemma sorted_by_key (A : Type) (key : A -> Z) (l : list A) :
  StronglySorted Z.le (map key l) -> StronglySorted (key_le key) l.
Proof.
  induction l as [|x r IH]; intros H; [constructor|].
  simpl in H. inversion H as [|? ? Hr Hx]; subst.
  constructor; [apply IH, Hr|]. rewrite Forall_map in Hx. exact Hx.
Qed.

(** Indexing the columns of an array with the [argsort] of its key column
    puts the rows in an order in which the keys do not decrease. *)
Lemma argsort_rows {ties : TieOrder} (A : Type) (key : A -> Z) (d0 : A)
  (rows : list A) :
  let sorted := map (fun i => nth i rows d0) (argsort (map key rows)) in
  Permutation sorted rows /\
  StronglySorted (key_le key) sorted /\
  forall (B : Type) (f : A -> B) (d : B),
    take d (map f rows) (argsort (map key rows)) = map f sorted.
Proof.
  cbv zeta.
  destruct (argsort_spec (map key rows)) as [P S].
  rewrite length_map in P.
  set (order := argsort (map key rows)) in *.
  assert (Hin : forall i, In i order -> (i < length rows)%nat).
  { intros i Hi. eapply Permutation_in in Hi; [|exact P].
    apply in_seq in Hi. lia. }
  assert (Htake : forall (B : Type) (f : A -> B) (d : B),
             take d (map f rows) order
             = map f (map (fun i => nth i rows d0) order)).
  { intros B f d. unfold take. rewrite map_map. apply map_ext_in.
    intros i Hi.
    rewrite (nth_indep _ d (f d0)) by (rewrite length_map; auto).
    apply map_nth. }
  split; [|split].
  - eapply perm_trans; [apply Permutation_map, P|].
    rewrite map_nth_seq. apply Permutation_refl.
  - apply sorted_by_key. rewrite <- (Htake Z key 0). exact S.
  - exact Htake.
Qed.

(** ** check_gtis *)

Lemma well_behaved_nth (g : gti) :
  well_behaved g <->
  (forall i a b, nth_error g i = Some (a, b) -> a <= b) /\
  (forall i a b c d,
      nth_error g i = Some (a, b) -> nth_error g (S i) = Some (c, d) ->
      b <= c).
Proof.
  induction g as [|[a b] r IH].
  - simpl. split; auto. intros _. split; intros [|i]; simpl; discriminate.
  - split.
    + intros (Hab & Hnext & Hr). apply IH in Hr. destruct Hr as [H1 H2].
      split.
      * intros [|i] x y; simpl; intros E.
        -- injection E as <- <-. exact Hab.
        -- eauto.
      * intros [|i] x y c d; simpl; intros E1 E2.
        -- injection E1 as <- <-. destruct r as [|[c' d'] r']; simpl in E2.
           ++ discriminate.
           ++ injection E2 as <- <-. exact Hnext.
        -- eauto.
    + intros [H1 H2]. simpl. repeat split.
      * apply (H1 0%nat). reflexivity.
      * destruct r as [|[c d] r']; auto.
        apply (H2 0%nat a b c d); reflexivity.
      * apply IH. split.
        -- intros i x y E. apply (H1 (S i)). exact E.
        -- intros i x y c d E1 E2. apply (H2 (S i) x y c d); assumption.
Qed.

(** C3: [check_gtis] raises an error exactly when some interval has its
    stop before its start, or some interval starts before the stop of the
    interval that precedes it.  [[0,5],[6,8]] passes, and [[0,5],[4,8]]
    raises the error of the overlaps. *)
Theorem check_gtis_raises_iff :
  (forall g : gti,
      (exists e, check_gtis g = Raise e) <->
      (exists i a b, nth_error g i = Some (a, b) /\ b < a) \/
      (exists i a b c d,
          nth_error g i = Some (a, b) /\ nth_error g (S i) = Some (c, d) /\
          c < b)) /\
  check_gtis [(0, 5); (6, 8)] = Ok tt /\
  check_gtis [(0, 5); (4, 8)] = Raise GtiOverlaps.
Proof.
  split; [|split; reflexivity].
  intros g. split.
  - intros [e He].
    assert (Hn : ~ well_behaved g).
    { intros H. apply check_gtis_Ok in H. congruence. }
    clear He. induction g as [|[a b] r IH].
    + exfalso. apply Hn. exact I.
    + destruct (Z_lt_dec b a) as [Hba|Hba].
      * left. exists 0%nat, a, b. split; [reflexivity|exact Hba].
      * destruct r as [|[c d] r'].
        -- exfalso. apply Hn. simpl. lia.
        -- destruct (Z_lt_dec c b) as [Hcb|Hcb].
           ++ right. exists 0%nat, a, b, c, d. repeat split. exact Hcb.
           ++ destruct IH as [(i & x & y & E & L)|(i & x & y & u & v & E1 & E2 & L)].
              ** intros H. apply Hn.
                 change (a <= b /\ b <= c /\ well_behaved ((c, d) :: r')).
                 split; [lia|split; [lia|exact H]].
              ** left. exists (S i), x, y. split; assumption.
              ** right. exists (S i), x, y, u, v. repeat split; assumption.
  - intros H.
    destruct (check_gtis g) as [[]|e] eqn:E; [|eauto].
    exfalso. apply check_gtis_Ok, well_behaved_nth in E.
    destruct E as [H1 H2].
    destruct H as [(i & a & b & E & L)|(i & a & b & c & d & E1 & E2 & L)].
    + specialize (H1 _ _ _ E). lia.
    + specialize (H2 _ _ _ _ _ E1 E2). lia.
Qed.

(** ** get_btis *)

(** C2: on the GTIs [[2,5],[6,9]] bounded by 0 and 10 the specification
    lists the gaps [[0,2],[5,6],[9,10]]; [get_btis] builds the rows [2],
    [5,6] and [-8], whose first and last hold one difference each instead
    of the two bounds of a gap. *)
Theorem get_btis_scenario_rows :
  rows_of (stated_btis [(2, 5); (6, 9)] 0 10) = [[0; 2]; [5; 6]; [9; 10]] /\
  get_btis [(2, 5); (6, 9)] (Some 0) (Some 10) = Ok [[2]; [5; 6]; [-8]] /\
  get_btis [(2, 5); (6, 9)] (Some 0) (Some 10)
    <> Ok (rows_of (stated_btis [(2, 5); (6, 9)] 0 10)).
Proof.
  repeat split. vm_compute. discriminate.
Qed.

(** ** time_intervals_from_gtis *)

(** C9: a GTI whose length is a multiple of the chunk length loses its
    last window: [[0,10]] with chunks of 5 holds the two windows [0,5] and
    [5,10], and [time_intervals_from_gtis] returns only the first; on
    [[0,5]], which is as long as one chunk, it fails. *)
Theorem time_intervals_exact_multiple :
  stated_chunks [(0, 10)] 5 = [(0, 5); (5, 10)] /\
  time_intervals_from_gtis [(0, 10)] 5 = Ok ([0], [5]) /\
  existsb (fun g => 5 <=? snd g - fst g) [(0, 5)] = true /\
  time_intervals_from_gtis [(0, 5)] 5 = Raise NoChunks.
Proof.
  repeat split.
Qed.

(** ** cross_two_gtis: the sorted columns *)

Lemma tagged_columns (gti0 gti1 : gti) :
  col0 gti0 ++ col0 gti1 = map row_start (tagged_rows gti0 gti1) /\
  col1 gti0 ++ col1 gti1 = map row_end (tagged_rows gti0 gti1) /\
  map (fun _ => false) (col0 gti0) ++ map (fun _ => true) (col0 gti1)
  = map row_tag (tagged_rows gti0 gti1).
Proof.
  unfold tagged_rows, tagged, col0, col1.
  rewrite !map_app, !map_map. repeat split.
Qed.

(** The sorted columns of [cross_two_gtis] are the columns of the tagged
    rows put in an order in which the stops do not decrease. *)
Lemma conc_sorted_rows {ties : TieOrder} (gti0 gti1 : gti) :
  let rows :=
    map (fun i => nth i (tagged_rows gti0 gti1) (0, 0, false))
        (argsort (col1 gti0 ++ col1 gti1)) in
  Permutation rows (tagged_rows gti0 gti1) /\
  StronglySorted (key_le row_end) rows /\
  conc_sorted gti0 gti1
  = (map row_start rows, map row_end rows, map row_tag rows).
Proof.
  cbv zeta. unfold conc_sorted.
  destruct (tagged_columns gti0 gti1) as (-> & -> & ->).
  pose proof (@argsort_rows ties _ row_end (0, 0, false)
                (tagged_rows gti0 gti1)) as H.
  cbv zeta in H. destruct H as (P & S & T).
  split; [exact P|]. split; [exact S|]. rewrite !T. reflexivity.
Qed.

Lemma combine_tag_end (rows : list (Z * Z * bool)) :
  combine (map row_tag rows) (map row_end rows) = map event_of rows.
Proof.
  induction rows as [|r l IH]; simpl; [reflexivity|].
  rewrite IH. reflexivity.
Qed.

Lemma events_sorted (rows : list (Z * Z * bool)) :
  StronglySorted (key_le row_end) rows ->
  StronglySorted stop_le (map event_of rows).
Proof.
  induction 1 as [|x l Hs IH Hx]; simpl; constructor; [exact IH|].
  rewrite Forall_map. exact Hx.
Qed.

Lemma tagged_rows_In (gti0 gti1 : gti) (p : Z * Z) (tag : bool) :
  In (p, tag) (tagged_rows gti0 gti1) <-> In p (this_gti gti0 gti1 tag).
Proof.
  unfold tagged_rows, tagged. rewrite in_app_iff, !in_map_iff. split.
  - intros [(q & E & Hq)|(q & E & Hq)]; injection E as -> <-; exact Hq.
  - intros H. destruct tag; [right|left]; exists p; auto.
Qed.

Lemma empty_or_not (g : gti) : g = [] \/ g <> [].
Proof. destruct g; [left; reflexivity|right; discriminate]. Qed.

Lemma tagged_rows_nil (gti0 gti1 : gti) :
  tagged_rows gti0 gti1 = [] -> gti0 ++ gti1 = [].
Proof.
  unfold tagged_rows, tagged. intros H.
  destruct gti0; [|discriminate H]. destruct gti1; [|discriminate H].
  reflexivity.
Qed.

(** ** cross_two_gtis: the positions of the latest starts *)

Lemma argmax_from_spec (l pre : list Z) (best : Z) (bi : nat) :
  nth_error pre bi = Some best ->
  (forall j v, nth_error pre j = Some v ->
               v <= best /\ ((j < bi)%nat -> v < best)) ->
  let p := argmax_from best bi (length pre) l in
  let m := fold_left Z.max l best in
  nth_error (pre ++ l) p = Some m /\
  (forall j v, nth_error (pre ++ l) j = Some v ->
               v <= m /\ ((j < p)%nat -> v < m)).
Proof.
  revert pre best bi. induction l as [|x r IH]; intros pre best bi Hb Hall.
  - simpl. rewrite app_nil_r. split; assumption.
  - cbv zeta. cbn [argmax_from fold_left].
    assert (Hbi : (bi < length pre)%nat)
      by (apply nth_error_Some; congruence).
    replace (pre ++ x :: r) with ((pre ++ [x]) ++ r)
      by (rewrite <- app_assoc; reflexivity).
    replace (S (length pre)) with (length (pre ++ [x]))
      by (rewrite length_app; simpl; lia).
    destruct (best <? x) eqn:E.
    + apply Z.ltb_lt in E. rewrite Z.max_r by lia.
      apply IH.
      * rewrite nth_error_app2, Nat.sub_diag by lia. reflexivity.
      * intros j v Hj.
        destruct (Nat.lt_ge_cases j (length pre)) as [Hlt|Hge].
        -- rewrite nth_error_app1 in Hj by exact Hlt.
           destruct (Hall j v Hj). split; intros; lia.
        -- rewrite nth_error_app2 in Hj by exact Hge.
           destruct (j - length pre)%nat as [|k] eqn:Ek; simpl in Hj.
           ++ injection Hj as <-. split; [lia|]. intros; lia.
           ++ destruct k; discriminate.
    + apply Z.ltb_ge in E. rewrite Z.max_l by lia.
      apply IH.
      * rewrite nth_error_app1 by exact Hbi. exact Hb.
      * intros j v Hj.
        destruct (Nat.lt_ge_cases j (length pre)) as [Hlt|Hge].
        -- rewrite nth_error_app1 in Hj by exact Hlt. apply Hall, Hj.
        -- rewrite nth_error_app2 in Hj by exact Hge.
           destruct (j - length pre)%nat as [|k] eqn:Ek; simpl in Hj.
           ++ injection Hj as <-. split; [lia|]. intros; lia.
           ++ destruct k; discriminate.
Qed.

Lemma argmax_first_max (x : Z) (r : list Z) :
  let p := argmax_from x 0 1 r in
  let m := fold_left Z.max r x in
  nth_error (x :: r) p = Some m /\
  (forall j v, nth_error (x :: r) j = Some v ->
               v <= m /\ ((j < p)%nat -> v < m)).
Proof.
  apply (@argmax_from_spec r [x] x 0%nat).
  - reflexivity.
  - intros [|[|j]] v Hj; simpl in Hj; try discriminate.
    injection Hj as <-. split; [lia|]. intros; lia.
Qed.

Lemma well_behaved_tail (p : Z * Z) (g : gti) :
  well_behaved (p :: g) -> well_behaved g.
Proof. destruct p. simpl. tauto. Qed.

Lemma well_behaved_after (a b : Z) (g : gti) :
  well_behaved ((a, b) :: g) -> Forall (fun r => b <= fst r) g.
Proof.
  revert a b. induction g as [|[c d] g IH]; intros a b H; constructor.
  - simpl in *. tauto.
  - assert (Hcd : well_behaved ((c, d) :: g)) by (simpl in *; tauto).
    apply IH in Hcd. eapply Forall_impl; [|exact Hcd].
    simpl in *. intros; lia.
Qed.

Lemma starts_sorted (g : gti) :
  well_behaved g -> StronglySorted Z.le (col0 g).
Proof.
  induction g as [|[a b] g IH]; intros H; simpl; constructor.
  - apply IH. eapply well_behaved_tail, H.
  - apply well_behaved_after in H as Ha. unfold col0.
    rewrite Forall_map. eapply Forall_impl; [|exact Ha].
    simpl in *. intros; lia.
Qed.

Lemma below_prefix (e : Z) (l : list Z) :
  StronglySorted Z.le l -> below e l = firstn (length (below e l)) l.
Proof.
  induction 1 as [|x r Hr IH Hx]; simpl; [reflexivity|].
  destruct (x <? e) eqn:E; simpl.
  - f_equal. exact IH.
  - apply Z.ltb_ge in E.
    assert (Hnone : below e r = []).
    { clear - Hx E. induction Hx as [|y r Hy _ IH]; simpl; [reflexivity|].
      destruct (y <? e) eqn:Ey; [|exact IH].
      apply Z.ltb_lt in Ey. lia. }
    rewrite Hnone. reflexivity.
Qed.

Lemma stop_of_first (g : gti) (p : nat) (m : Z) :
  nth_error (col0 g) p = Some m ->
  (forall j v, (j < p)%nat -> nth_error (col0 g) j = Some v -> v <> m) ->
  SweepRule.stop_of g m = Some (nth p (col1 g) 0).
Proof.
  revert p. induction g as [|[a b] g IH]; intros [|p] Hp Hfirst;
    simpl in *; try discriminate.
  - injection Hp as ->. rewrite Z.eqb_refl. reflexivity.
  - destruct (a =? m) eqn:E.
    + apply Z.eqb_eq in E. exfalso.
      apply (Hfirst 0%nat a); [lia|reflexivity|exact E].
    + apply IH; [exact Hp|]. intros j v Hj Hv.
      apply (Hfirst (S j) v); [lia|exact Hv].
Qed.

Lemma stop_of_In (g : gti) (m : Z) :
  In m (col0 g) -> exists b, SweepRule.stop_of g m = Some b /\ In (m, b) g.
Proof.
  induction g as [|[a b] g IH]; simpl; [tauto|].
  intros Hin. destruct (a =? m) eqn:E.
  - apply Z.eqb_eq in E. subst a. exists b. split; [reflexivity|].
    left. reflexivity.
  - destruct Hin as [Ha|Hin]; [apply Z.eqb_neq in E; congruence|].
    destruct (IH Hin) as (b' & Hb & Hi). exists b'. split; [exact Hb|].
    right. exact Hi.
Qed.

(** What the latest start of a series before [e] is. *)
Lemma latest_start_max (starts : list Z) (e m : Z) :
  SweepRule.latest_start starts e = Some m ->
  In m starts /\ m < e /\
  forall v, In v starts -> v < e -> v <= m.
Proof.
  unfold SweepRule.latest_start.
  destruct (below e starts) as [|x r] eqn:E; [discriminate|].
  intros H. injection H as <-.
  destruct (argmax_first_max x r) as [Hn Hmax].
  assert (Hin : In (fold_left Z.max r x) (below e starts)).
  { rewrite E. eapply nth_error_In, Hn. }
  apply filter_In in Hin. destruct Hin as [Hin Hlt].
  apply Z.ltb_lt in Hlt. repeat split; [exact Hin|exact Hlt|].
  intros v Hv Hve.
  assert (Hb : In v (below e starts)).
  { apply filter_In. split; [exact Hv|]. apply Z.ltb_lt. exact Hve. }
  rewrite E in Hb. apply In_nth_error in Hb. destruct Hb as [j Hj].
  apply (Hmax j v Hj).
Qed.

(** The position found by [argmax] in the filtered start column is the
    position, in the whole array, of the first interval that starts at the
    latest start. *)
Lemma locate_latest (g : gti) (e : Z) :
  well_behaved g ->
  match argmax (below e (col0 g)) with
  | None => SweepRule.latest_start (col0 g) e = None
  | Some p =>
      exists m,
        nth_error (col0 g) p = Some m /\
        SweepRule.latest_start (col0 g) e = Some m /\
        SweepRule.stop_of g m = Some (nth p (col1 g) 0)
  end.
Proof.
  intros Hwb. unfold SweepRule.latest_start, argmax.
  pose proof (below_prefix e (starts_sorted g Hwb)) as Hpre.
  destruct (below e (col0 g)) as [|x r] eqn:E; [reflexivity|].
  destruct (argmax_first_max x r) as [Hn Hmax].
  set (p := argmax_from x 0 1 r) in *.
  set (m := fold_left Z.max r x) in *.
  assert (Hp : (p < length (x :: r))%nat)
    by (apply nth_error_Some; congruence).
  assert (Hfull : forall j, (j < length (x :: r))%nat ->
                            nth_error (col0 g) j = nth_error (x :: r) j).
  { intros j Hj. rewrite Hpre, nth_error_firstn.
    apply Nat.ltb_lt in Hj. rewrite Hj. reflexivity. }
  exists m. split; [rewrite Hfull by exact Hp; exact Hn|].
  split; [reflexivity|].
  apply stop_of_first.
  - rewrite Hfull by exact Hp. exact Hn.
  - intros j v Hj Hv. rewrite Hfull in Hv by lia.
    destruct (Hmax j v Hv) as [_ Hlt]. specialize (Hlt Hj). lia.
Qed.

(** ** cross_two_gtis: one iteration of the loop *)

Lemma candidate_rule (gti0 gti1 : gti) (tag : bool) (e : Z) :
  well_behaved gti0 -> well_behaved gti1 ->
  match candidate (col0 gti0, col0 gti1) tag e with
  | None =>
      SweepRule.latest_start (col0 (this_gti gti0 gti1 tag)) e = None \/
      SweepRule.latest_start (col0 (other_gti gti0 gti1 tag)) e = None
  | Some (s, so_pos) =>
      exists st so,
        SweepRule.latest_start (col0 (this_gti gti0 gti1 tag)) e = Some st /\
        SweepRule.latest_start (col0 (other_gti gti0 gti1 tag)) e = Some so /\
        s = Z.max st so /\
        SweepRule.stop_of (other_gti gti0 gti1 tag) so
        = Some (nth so_pos (col1 (other_gti gti0 gti1 tag)) 0)
  end.
Proof.
  intros H0 H1. unfold candidate.
  assert (Hthis : well_behaved (this_gti gti0 gti1 tag))
    by (destruct tag; assumption).
  assert (Hother : well_behaved (other_gti gti0 gti1 tag))
    by (destruct tag; assumption).
  replace (series (col0 gti0, col0 gti1) tag)
    with (col0 (this_gti gti0 gti1 tag)) by (destruct tag; reflexivity).
  replace (series (col0 gti0, col0 gti1) (negb tag))
    with (col0 (other_gti gti0 gti1 tag)) by (destruct tag; reflexivity).
  pose proof (@locate_latest _ e Hthis) as Lt.
  pose proof (@locate_latest _ e Hother) as Lo.
  destruct (argmax (below e (col0 (this_gti gti0 gti1 tag)))) as [st_pos|];
    [|left; exact Lt].
  destruct (argmax (below e (col0 (other_gti gti0 gti1 tag)))) as [so_pos|];
    [|right; exact Lo].
  destruct Lt as (st & Nt & Et & _). destruct Lo as (so & No & Eo & So).
  rewrite Nt, No. exists st, so. auto.
Qed.

Lemma np_any_or (l : list bool) (b : bool) :
  l <> [] -> np_any (map (fun c => c || b) l) = np_any l || b.
Proof.
  induction l as [|c r IH]; intros Hne; [congruence|].
  destruct r as [|c' r'].
  - simpl. rewrite !orb_false_r. reflexivity.
  - change (np_any (map (fun c => c || b) (c :: c' :: r')))
      with ((c || b) || np_any (map (fun c => c || b) (c' :: r'))).
    rewrite IH by discriminate.
    change (np_any (c :: c' :: r')) with (c || np_any (c' :: r')).
    destruct c, b, (np_any (c' :: r')); reflexivity.
Qed.

Lemma closing_inside_rule (gti0 gti1 : gti) (tag : bool) (so_pos : nat)
  (s e : Z) :
  other_gti gti0 gti1 tag <> [] ->
  closing_inside (col1 gti0, col1 gti1) (negb tag) so_pos s e
  = SweepRule.closes_inside (other_gti gti0 gti1 tag) s e
    || (nth so_pos (col1 (other_gti gti0 gti1 tag)) 0 <? s).
Proof.
  intros Hne. unfold closing_inside.
  replace (series (col1 gti0, col1 gti1) (negb tag))
    with (col1 (other_gti gti0 gti1 tag)) by (destruct tag; reflexivity).
  rewrite np_any_or.
  - f_equal. unfold SweepRule.closes_inside, np_any, col1.
    generalize (other_gti gti0 gti1 tag) as g.
    induction g as [|[a b] g IH]; simpl; [reflexivity|].
    rewrite IH, Z.gtb_ltb. reflexivity.
  - unfold col1. intros E. apply map_eq_nil in E. apply map_eq_nil in E.
    congruence.
Qed.

(** One iteration of the loop is one step of the sweep, the stop emitted
    last being [last_end]. *)
Lemma cross_step_emitted (gti0 gti1 : gti) (tag : bool) (e last_end : Z)
  (final_gti : gti) :
  well_behaved gti0 -> well_behaved gti1 ->
  cross_step (col0 gti0, col0 gti1) (col1 gti0, col1 gti1)
    (last_end, final_gti) (tag, e)
  = match SweepRule.emitted SweepRule.full_reject gti0 gti1 tag
            (Some last_end) e with
    | Some iv => (e, final_gti ++ [iv])
    | None => (last_end, final_gti)
    end.
Proof.
  intros H0 H1. unfold cross_step, SweepRule.emitted.
  fold (this_gti gti0 gti1 tag). fold (other_gti gti0 gti1 tag).
  pose proof (@candidate_rule gti0 gti1 tag e H0 H1) as Hc.
  destruct (candidate (col0 gti0, col0 gti1) tag e) as [[s so_pos]|].
  - destruct Hc as (st & so & Et & Eo & -> & Hstop).
    rewrite Et, Eo.
    assert (Hne : other_gti gti0 gti1 tag <> []).
    { intros E. rewrite E in Hstop. discriminate. }
    rewrite closing_inside_rule by exact Hne.
    unfold SweepRule.full_reject, SweepRule.ended_before,
      SweepRule.at_or_before.
    rewrite Hstop.
    destruct (Z.max st so <=? last_end); [reflexivity|].
    simpl.
    destruct (SweepRule.closes_inside (other_gti gti0 gti1 tag)
                (Z.max st so) e
              || (nth so_pos (col1 (other_gti gti0 gti1 tag)) 0
                  <? Z.max st so)); reflexivity.
  - destruct Hc as [-> | Hc]; [reflexivity|].
    rewrite Hc.
    destruct (SweepRule.latest_start (col0 (this_gti gti0 gti1 tag)) e);
      reflexivity.
Qed.

(** The loop is the sweep that starts with [last_end] as the stop emitted
    last. *)
Lemma cross_loop_sweep (gti0 gti1 : gti) (events : list (bool * Z)) :
  well_behaved gti0 -> well_behaved gti1 ->
  forall (last_end : Z) (final_gti : gti),
    snd (fold_left
           (cross_step (col0 gti0, col0 gti1) (col1 gti0, col1 gti1))
           events (last_end, final_gti))
    = final_gti
      ++ SweepRule.sweep SweepRule.full_reject gti0 gti1 events
           (Some last_end).
Proof.
  intros H0 H1. induction events as [|[tag e] r IH];
    intros last_end final_gti.
  - simpl. rewrite app_nil_r. reflexivity.
  - cbn [fold_left SweepRule.sweep].
    rewrite (@cross_step_emitted gti0 gti1 tag e last_end final_gti H0 H1).
    destruct (SweepRule.emitted SweepRule.full_reject gti0 gti1 tag
                (Some last_end) e) as [iv|].
    + rewrite IH, <- app_assoc. reflexivity.
    + apply IH.
Qed.

(** ** cross_two_gtis: the order of the events of one stop *)

Section SweepOrder.
Variables gti0 gti1 : gti.

Lemma emitted_flip (tag : bool) (prev : option Z) (e : Z) :
  SweepRule.emitted SweepRule.full_reject gti1 gti0 tag prev e
  = SweepRule.emitted SweepRule.full_reject gti0 gti1 (negb tag) prev e.
Proof. destruct tag; reflexivity. Qed.

Lemma sweep_flip (events : list (bool * Z)) (prev : option Z) :
  SweepRule.sweep SweepRule.full_reject gti1 gti0 events prev
  = SweepRule.sweep SweepRule.full_reject gti0 gti1 (map flip events) prev.
Proof.
  revert prev. induction events as [|[tag e] r IH]; intros prev;
    [reflexivity|].
  cbn [SweepRule.sweep map flip fst snd]. rewrite emitted_flip.
  destruct (SweepRule.emitted SweepRule.full_reject gti0 gti1 (negb tag) prev e); rewrite IH; reflexivity.
Qed.

Lemma sweep_cons_cong (x : bool * Z) (r1 r2 : list (bool * Z)) :
  (forall prev, SweepRule.sweep SweepRule.full_reject gti0 gti1 r1 prev = SweepRule.sweep SweepRule.full_reject gti0 gti1 r2 prev) ->
  forall prev, SweepRule.sweep SweepRule.full_reject gti0 gti1 (x :: r1) prev = SweepRule.sweep SweepRule.full_reject gti0 gti1 (x :: r2) prev.
Proof.
  intros H prev. destruct x as [tag e]. cbn [SweepRule.sweep].
  destruct (SweepRule.emitted SweepRule.full_reject gti0 gti1 tag prev e); rewrite H; reflexivity.
Qed.

(** Two events of one stop may be swapped: the candidate start is the
    same for both, and once it is emitted it lies before the emitted
    stop. *)
Lemma sweep_swap (t1 t2 : bool) (e : Z) (r : list (bool * Z))
  (prev : option Z) :
  SweepRule.sweep SweepRule.full_reject gti0 gti1 ((t1, e) :: (t2, e) :: r) prev
  = SweepRule.sweep SweepRule.full_reject gti0 gti1 ((t2, e) :: (t1, e) :: r) prev.
Proof.
  destruct (Bool.bool_dec t1 t2) as [->|Hneq]; [reflexivity|].
  cbn [SweepRule.sweep]. unfold SweepRule.emitted.
  assert (Hsw : (if t2 then gti1 else gti0) = (if t1 then gti0 else gti1)
                /\ (if t2 then gti0 else gti1)
                   = (if t1 then gti1 else gti0)).
  { destruct t1, t2; try congruence; split; reflexivity. }
  destruct Hsw as [-> ->].
  set (this := if t1 then gti1 else gti0).
  set (other := if t1 then gti0 else gti1).
  destruct (SweepRule.latest_start (col0 this) e) as [st|] eqn:Et;
    [|destruct (SweepRule.latest_start (col0 other) e); reflexivity].
  destruct (SweepRule.latest_start (col0 other) e) as [so|] eqn:Eo;
    [|reflexivity].
  apply latest_start_max in Et, Eo.
  destruct Et as (_ & Ht & _). destruct Eo as (_ & Ho & _).
  rewrite (Z.max_comm so st).
  assert (Hlate : forall other' so',
             SweepRule.full_reject other' (Some e) so' (Z.max st so) e
             = true).
  { intros other' so'. unfold SweepRule.full_reject. simpl.
    assert (E : (Z.max st so <=? e) = true) by (apply Z.leb_le; lia).
    rewrite E. reflexivity. }
  rewrite !Hlate. unfold SweepRule.full_reject.
  destruct (SweepRule.at_or_before prev (Z.max st so)); simpl.
  - reflexivity.
  - destruct (SweepRule.closes_inside other (Z.max st so) e
              || SweepRule.ended_before other so (Z.max st so));
      destruct (SweepRule.closes_inside this (Z.max st so) e
                || SweepRule.ended_before this st (Z.max st so));
      reflexivity.
Qed.

Lemma sweep_bubble (l : list (bool * Z)) (x : bool * Z)
  (r : list (bool * Z)) :
  Forall (fun y => snd y = snd x) l ->
  forall prev, SweepRule.sweep SweepRule.full_reject gti0 gti1 (l ++ x :: r) prev = SweepRule.sweep SweepRule.full_reject gti0 gti1 (x :: l ++ r) prev.
Proof.
  induction 1 as [|y l Hy Hl IH]; intros prev; [reflexivity|].
  simpl app. rewrite (@sweep_cons_cong y _ _ IH).
  destruct x as [t e], y as [t' e']. simpl in Hy. subst e'.
  apply sweep_swap.
Qed.

Lemma sorted_before (l : list (bool * Z)) (x : bool * Z)
  (r : list (bool * Z)) :
  StronglySorted stop_le (l ++ x :: r) ->
  Forall (fun y => stop_le y x) l /\ StronglySorted stop_le (l ++ r).
Proof.
  induction l as [|y l IH]; intros H; simpl in *.
  - inversion H; subst. split; [constructor|assumption].
  - inversion H as [|? ? Hs Hy]; subst.
    destruct (IH Hs) as [F S]. split.
    + constructor; [|exact F].
      rewrite Forall_forall in Hy. apply Hy, in_elt.
    + constructor; [exact S|].
      rewrite Forall_forall in *. intros z Hz. apply Hy.
      apply in_app_or in Hz. apply in_or_app.
      destruct Hz; [left|right; right]; assumption.
Qed.

(** The sweep does not depend on the order of the events of one stop. *)
Lemma sweep_sorted_perm (l1 : list (bool * Z)) :
  forall l2,
    Permutation l1 l2 ->
    StronglySorted stop_le l1 -> StronglySorted stop_le l2 ->
    forall prev, SweepRule.sweep SweepRule.full_reject gti0 gti1 l1 prev = SweepRule.sweep SweepRule.full_reject gti0 gti1 l2 prev.
Proof.
  induction l1 as [|x l1 IH]; intros l2 P S1 S2 prev.
  - apply Permutation_nil in P. subst. reflexivity.
  - assert (Hin : In x l2)
      by (eapply Permutation_in; [exact P|left; reflexivity]).
    apply in_split in Hin. destruct Hin as (l & r & ->).
    apply Permutation_cons_app_inv in P.
    inversion S1 as [|? ? S1' Hx]; subst.
    destruct (@sorted_before _ _ _ S2) as [Hl S2'].
    rewrite sweep_bubble.
    + apply sweep_cons_cong. intros prev'. apply IH; assumption.
    + rewrite Forall_forall in *. intros y Hy.
      specialize (Hl y Hy). unfold stop_le in *.
      assert (In y l1).
      { eapply Permutation_in; [apply Permutation_sym, P|].
        apply in_or_app. left. exact Hy. }
      specialize (Hx y H). lia.
Qed.

End SweepOrder.

Lemma stop_events_sorted (gti0 gti1 : gti) :
  StronglySorted stop_le (stop_events gti0 gti1).
Proof.
  unfold stop_events.
  generalize (sort_by_sorted row_end (tagged_rows gti0 gti1)).
  generalize (sort_by row_end (tagged_rows gti0 gti1)).
  induction 1 as [|x l Hs IH Hx]; simpl; constructor; [exact IH|].
  rewrite Forall_map. exact Hx.
Qed.

Lemma flip_sorted (l : list (bool * Z)) :
  StronglySorted stop_le l -> StronglySorted stop_le (map flip l).
Proof.
  induction 1 as [|x l Hs IH Hx]; simpl; constructor; [exact IH|].
  rewrite Forall_map. exact Hx.
Qed.

Lemma stop_events_flip (gti0 gti1 : gti) :
  Permutation (stop_events gti0 gti1) (map flip (stop_events gti1 gti0)).
Proof.
  unfold stop_events.
  eapply perm_trans; [apply Permutation_map, sort_by_perm|].
  eapply perm_trans;
    [|apply Permutation_map, Permutation_map, Permutation_sym,
        sort_by_perm].
  unfold tagged_rows, tagged. rewrite !map_app, !map_map.
  apply Permutation_app_comm.
Qed.

Lemma stop_events_perm (gti0 gti1 : gti) :
  Permutation (stop_events gti0 gti1)
              (map event_of (tagged_rows gti0 gti1)).
Proof.
  unfold stop_events. apply Permutation_map, sort_by_perm.
Qed.

Lemma full_cross_swap (gti0 gti1 : gti) :
  SweepRule.full_cross gti1 gti0 = SweepRule.full_cross gti0 gti1.
Proof.
  unfold SweepRule.full_cross. rewrite sweep_flip.
  apply sweep_sorted_perm.
  - apply Permutation_sym, stop_events_flip.
  - apply flip_sorted, stop_events_sorted.
  - apply stop_events_sorted.
Qed.

(** ** cross_two_gtis: the initial value of [last_end] *)

(** The initial value of [last_end] refuses no candidate when it lies below
    all of them. *)
Lemma sweep_sentinel (gti0 gti1 : gti) (sentinel : Z)
  (events : list (bool * Z)) :
  (forall tag e st so,
      In (tag, e) events ->
      SweepRule.latest_start (col0 (this_gti gti0 gti1 tag)) e = Some st ->
      SweepRule.latest_start (col0 (other_gti gti0 gti1 tag)) e = Some so ->
      sentinel < Z.max st so) ->
  SweepRule.sweep SweepRule.full_reject gti0 gti1 events (Some sentinel)
  = SweepRule.sweep SweepRule.full_reject gti0 gti1 events None.
Proof.
  induction events as [|[tag e] r IH]; intros Hsent; [reflexivity|].
  cbn [SweepRule.sweep].
  assert (E : SweepRule.emitted SweepRule.full_reject gti0 gti1 tag
                (Some sentinel) e
              = SweepRule.emitted SweepRule.full_reject gti0 gti1 tag
                  None e).
  { unfold SweepRule.emitted.
    fold (this_gti gti0 gti1 tag). fold (other_gti gti0 gti1 tag).
    destruct (SweepRule.latest_start (col0 (this_gti gti0 gti1 tag)) e)
      as [st|] eqn:Et; [|reflexivity].
    destruct (SweepRule.latest_start (col0 (other_gti gti0 gti1 tag)) e)
      as [so|] eqn:Eo; [|reflexivity].
    specialize (Hsent tag e st so (or_introl eq_refl) Et Eo).
    unfold SweepRule.full_reject, SweepRule.at_or_before.
    assert (El : (Z.max st so <=? sentinel) = false)
      by (apply Z.leb_gt; exact Hsent).
    rewrite El. reflexivity. }
  rewrite E.
  destruct (SweepRule.emitted SweepRule.full_reject gti0 gti1 tag None e);
    [reflexivity|].
  apply IH. intros t x st so Hin. apply Hsent. right. exact Hin.
Qed.

(** When the row that comes first holds an interval that is not empty, the
    initial value of [last_end], its start less one, lies below every
    candidate. *)
Lemma sentinel_below (gti0 gti1 : gti) (x0 : Z * Z * bool) :
  In x0 (tagged_rows gti0 gti1) ->
  (forall r, In r (tagged_rows gti0 gti1) -> row_end x0 <= row_end r) ->
  row_start x0 < row_end x0 ->
  forall tag e st so,
    In (tag, e) (stop_events gti0 gti1) ->
    SweepRule.latest_start (col0 (this_gti gti0 gti1 tag)) e = Some st ->
    SweepRule.latest_start (col0 (other_gti gti0 gti1 tag)) e = Some so ->
    row_start x0 - 1 < Z.max st so.
Proof.
  intros Hin Hmin Hpos tag e st so Hev Est Eso.
  assert (He : row_end x0 <= e).
  { eapply Permutation_in in Hev; [|apply stop_events_perm].
    apply in_map_iff in Hev. destruct Hev as (r & Er & Hr).
    injection Er as _ <-. apply Hmin, Hr. }
  destruct x0 as [[c0 e0] t0]. unfold row_start, row_end in *.
  simpl in Hpos, He |- *.
  apply tagged_rows_In in Hin.
  assert (Hc : In c0 (col0 (this_gti gti0 gti1 t0))).
  { unfold col0. apply in_map_iff. exists (c0, e0). auto. }
  apply latest_start_max in Est, Eso.
  destruct Est as (_ & _ & Mt). destruct Eso as (_ & _ & Mo).
  destruct (Bool.bool_dec tag t0) as [<-|Hneq].
  - specialize (Mt c0 Hc). lia.
  - assert (Eo : other_gti gti0 gti1 tag = this_gti gti0 gti1 t0)
      by (destruct tag, t0; try reflexivity; congruence).
    rewrite Eo in Mo. specialize (Mo c0 Hc). lia.
Qed.

(** ** cross_two_gtis: the sweep *)

Lemma cross_two_gtis_checks {ties : TieOrder} (gti0 gti1 r : gti) :
  cross_two_gtis gti0 gti1 = Ok r ->
  check_gtis gti0 = Ok tt /\ check_gtis gti1 = Ok tt.
Proof.
  unfold cross_two_gtis. intros H.
  destruct (check_gtis gti0) as [[]|]; [|discriminate].
  destruct (check_gtis gti1) as [[]|]; [|discriminate].
  split; reflexivity.
Qed.

(** The list that [cross_two_gtis] returns is the list of the sweep with
    the three tests, the stop emitted last being at first the start, less
    one, of the row that [np.argsort] puts first: a row of the least
    stop. *)
Lemma cross_two_gtis_head {ties : TieOrder} (gti0 gti1 : gti) :
  well_behaved gti0 -> well_behaved gti1 -> gti0 ++ gti1 <> [] ->
  let x0 :=
    nth (hd 0%nat (argsort (col1 gti0 ++ col1 gti1)))
        (tagged_rows gti0 gti1) (0, 0, false) in
  In x0 (tagged_rows gti0 gti1) /\
  (forall r, In r (tagged_rows gti0 gti1) -> row_end x0 <= row_end r) /\
  cross_two_gtis gti0 gti1
  = Ok (SweepRule.sweep SweepRule.full_reject gti0 gti1
          (stop_events gti0 gti1) (Some (row_start x0 - 1))).
Proof.
  intros H0 H1 Hne. cbv zeta.
  pose proof (@conc_sorted_rows ties gti0 gti1) as H.
  cbv zeta in H. destruct H as (P & S & E).
  unfold cross_two_gtis.
  pose proof H0 as C0. pose proof H1 as C1.
  apply check_gtis_Ok in C0, C1. rewrite C0, C1. cbn [bind].
  rewrite E. clear E.
  destruct (argsort (col1 gti0 ++ col1 gti1)) as [|i0 order].
  - exfalso. apply Hne, tagged_rows_nil.
    apply Permutation_nil. exact P.
  - cbn [map hd] in *.
    set (x0 := nth i0 (tagged_rows gti0 gti1) (0, 0, false)) in *.
    set (rest := map (fun i => nth i (tagged_rows gti0 gti1) (0, 0, false))
                     order) in *.
    assert (Hin : In x0 (tagged_rows gti0 gti1)).
    { eapply Permutation_in; [exact P|left; reflexivity]. }
    split; [exact Hin|]. split.
    + intros r Hr.
      eapply Permutation_in in Hr; [|apply Permutation_sym, P].
      inversion S as [|? ? _ Hx]; subst.
      destruct Hr as [<-|Hr]; [lia|].
      rewrite Forall_forall in Hx. exact (Hx r Hr).
    + f_equal. change (row_start x0 :: map row_start rest)
        with (map row_start (x0 :: rest)).
      rewrite <- !map_cons, combine_tag_end.
      rewrite cross_loop_sweep by assumption. cbn [app].
      apply sweep_sorted_perm.
      * eapply perm_trans; [apply Permutation_map, P|].
        apply Permutation_sym, stop_events_perm.
      * apply events_sorted, S.
      * apply stop_events_sorted.
Qed.

Lemma cross_two_gtis_empty {ties : TieOrder} :
  cross_two_gtis [] [] = Raise IndexError.
Proof.
  pose proof (@conc_sorted_rows ties [] []) as H.
  cbv zeta in H. destruct H as (P & _ & E).
  apply Permutation_sym, Permutation_nil in P.
  unfold cross_two_gtis. change (check_gtis []) with (@Ok unit tt).
  cbn [bind]. rewrite E, P. reflexivity.
Qed.

(** On lists of intervals that are not empty, the list that
    [cross_two_gtis] returns is the list of the sweep with the three
    tests, whatever the order that [np.argsort] gives to equal stops. *)
Lemma cross_two_gtis_sweep {ties : TieOrder} (gti0 gti1 : gti) :
  well_behaved gti0 -> well_behaved gti1 ->
  positive gti0 -> positive gti1 ->
  gti0 ++ gti1 <> [] ->
  cross_two_gtis gti0 gti1 = Ok (SweepRule.full_cross gti0 gti1).
Proof.
  intros H0 H1 P0 P1 Hne.
  pose proof (@cross_two_gtis_head ties gti0 gti1 H0 H1 Hne) as H.
  cbv zeta in H.
  set (x0 := nth (hd 0%nat (argsort (col1 gti0 ++ col1 gti1)))
                 (tagged_rows gti0 gti1) (0, 0, false)) in *.
  destruct H as (Hin & Hmin & ->).
  f_equal. unfold SweepRule.full_cross. apply sweep_sentinel.
  apply sentinel_below; try assumption.
  destruct x0 as [[c0 e0] t0]. apply tagged_rows_In in Hin.
  assert (P : positive (this_gti gti0 gti1 t0))
    by (destruct t0; assumption).
  unfold positive in P. rewrite Forall_forall in P. exact (P _ Hin).
Qed.

(** The intervals of the sweep are in order and do not overlap. *)
Lemma sweep_well_behaved (gti0 gti1 : gti) (events : list (bool * Z)) :
  forall prev : option Z,
    well_behaved
      (SweepRule.sweep SweepRule.full_reject gti0 gti1 events prev) /\
    match SweepRule.sweep SweepRule.full_reject gti0 gti1 events prev
    return Prop with
    | [] => True
    | (c, _) :: _ => forall p, prev = Some p -> p < c
    end.
Proof.
  induction events as [|[tag e] r IH]; intros prev.
  - simpl. auto.
  - cbn [SweepRule.sweep]. unfold SweepRule.emitted.
    destruct (SweepRule.latest_start _ e) as [st|] eqn:Et; [|apply IH].
    destruct (SweepRule.latest_start
                (col0 (if tag then gti0 else gti1)) e) as [so|] eqn:Eo;
      [|apply IH].
    destruct (SweepRule.full_reject _ prev so (Z.max st so) e) eqn:Er;
      [apply IH|].
    apply latest_start_max in Et, Eo.
    destruct Et as (_ & Ht & _). destruct Eo as (_ & Ho & _).
    destruct (IH (Some e)) as [Hwb Hhead].
    unfold SweepRule.full_reject in Er.
    apply orb_false_iff in Er. destruct Er as [Er _].
    apply orb_false_iff in Er. destruct Er as [Er _].
    split.
    + destruct (SweepRule.sweep SweepRule.full_reject gti0 gti1 r (Some e))
        as [|[c d] l'].
      * simpl. lia.
      * specialize (Hhead e eq_refl).
        change (Z.max st so <= e /\ e <= c /\ well_behaved ((c, d) :: l')).
        split; [lia|]. split; [lia|exact Hwb].
    + intros p ->. simpl in Er. apply Z.leb_gt in Er. exact Er.
Qed.

(** What [cross_two_gtis] returns is in order and does not overlap. *)
Lemma cross_two_gtis_well_behaved {ties : TieOrder} (gti0 gti1 : gti)
  (r : gti) :
  cross_two_gtis gti0 gti1 = Ok r -> well_behaved r.
Proof.
  intros H. destruct (cross_two_gtis_checks _ _ H) as [C0 C1].
  apply check_gtis_Ok in C0, C1.
  destruct (empty_or_not (gti0 ++ gti1)) as [E|Hne].
  - apply app_eq_nil in E. destruct E as [-> ->].
    rewrite cross_two_gtis_empty in H. discriminate.
  - pose proof (@cross_two_gtis_head ties gti0 gti1 C0 C1 Hne) as Hh.
    cbv zeta in Hh. destruct Hh as (_ & _ & E).
    rewrite E in H. injection H as <-.
    apply sweep_well_behaved.
Qed.

(** ** cross_two_gtis: the order of the arguments *)

(** On lists of intervals that are not empty, the two lists may be
    exchanged. *)
Lemma cross_two_gtis_swap {ties : TieOrder} (gti0 gti1 : gti) :
  well_behaved gti0 -> well_behaved gti1 ->
  positive gti0 -> positive gti1 ->
  cross_two_gtis gti0 gti1 = cross_two_gtis gti1 gti0.
Proof.
  intros H0 H1 P0 P1.
  destruct (empty_or_not (gti0 ++ gti1)) as [E|Hne].
  - apply app_eq_nil in E. destruct E as [-> ->]. reflexivity.
  - rewrite (@cross_two_gtis_sweep ties gti0 gti1) by assumption.
    rewrite (@cross_two_gtis_sweep ties gti1 gti0); try assumption.
    + rewrite full_cross_swap. reflexivity.
    + intros E. apply Hne. apply app_eq_nil in E. destruct E as [-> ->].
      reflexivity.
Qed.

(** C7: [tie_a] and [tie_b] are validated, and the stops of the rows
    [2,3] and [3,3] of [tie_b] are equal and the least.  When [np.argsort]
    puts the row [3,3] first, [cross_two_gtis tie_a tie_b] skips the common
    interval [2,3] and returns [3,4], of which [tie_b] holds one point only;
    when it puts the row [2,3] first, [cross_two_gtis tie_b tie_a] returns
    [2,3].  Both happen with one and the same [np.argsort], and the two
    results differ as sets; with equal stops left as they come, the two
    calls return the same list. *)
Theorem cross_two_gtis_order_of_ties :
  check_gtis tie_a = Ok tt /\ check_gtis tie_b = Ok tt /\
  (forall ties : TieOrder,
      hd 0%nat (argsort (col1 tie_a ++ col1 tie_b)) = 6%nat ->
      cross_two_gtis tie_a tie_b
      = Ok [(3, 4); (10, 11); (12, 13); (14, 15); (16, 17)]) /\
  (forall ties : TieOrder,
      hd 0%nat (argsort (col1 tie_b ++ col1 tie_a)) = 0%nat ->
      cross_two_gtis tie_b tie_a
      = Ok [(2, 3); (10, 11); (12, 13); (14, 15); (16, 17)]) /\
  (exists ties : TieOrder,
      hd 0%nat (argsort (col1 tie_a ++ col1 tie_b)) = 6%nat /\
      hd 0%nat (argsort (col1 tie_b ++ col1 tie_a)) = 0%nat) /\
  ~ Permutation [(3, 4); (10, 11); (12, 13); (14, 15); (16, 17)]
                [(2, 3); (10, 11); (12, 13); (14, 15); (16, 17)] /\
  cross_two_gtis (ties := first_come) tie_a tie_b
  = cross_two_gtis (ties := first_come) tie_b tie_a.
Proof.
  assert (Ha : well_behaved tie_a) by (apply check_gtis_Ok; reflexivity).
  assert (Hb : well_behaved tie_b) by (apply check_gtis_Ok; reflexivity).
  split; [reflexivity|]. split; [reflexivity|]. split; [|split; [|split]].
  - intros ties H.
    pose proof (@cross_two_gtis_head ties tie_a tie_b Ha Hb) as Hh.
    cbv zeta in Hh. rewrite H in Hh.
    destruct Hh as (_ & _ & ->); [discriminate|]. reflexivity.
  - intros ties H.
    pose proof (@cross_two_gtis_head ties tie_b tie_a Hb Ha) as Hh.
    cbv zeta in Hh. rewrite H in Hh.
    destruct Hh as (_ & _ & ->); [discriminate|]. reflexivity.
  - exists (fun a => match a with
                     | 4 :: _ =>
                         [6; 5; 0; 1; 7; 8; 2; 3; 9; 10; 4; 11; 12; 13; 14;
                          15; 16; 17]%nat
                     | _ => []
                     end).
    split; reflexivity.
  - split; [|reflexivity].
    intros P. apply (Permutation_in (3, 4)) in P; [|left; reflexivity].
    simpl in P.
    repeat (destruct P as [P|P]; [discriminate P|]). exact P.
Qed.

(** ** cross_two_gtis: the rule of the sweep *)

(** C1, counterexample: on the validated lists [[0,1]] and [[2,3]] the
    sweep with the two tests of the stated rule emits [[2,3]], and
    [cross_two_gtis] returns the empty list. *)
Lemma cross_two_gtis_stated_rule_fails :
  check_gtis [(0, 1)] = Ok tt /\ check_gtis [(2, 3)] = Ok tt /\
  SweepRule.stated_cross [(0, 1)] [(2, 3)] = [(2, 3)] /\
  forall ties : TieOrder,
    cross_two_gtis [(0, 1)] [(2, 3)] = Ok [] /\
    cross_two_gtis [(0, 1)] [(2, 3)]
      <> Ok (SweepRule.stated_cross [(0, 1)] [(2, 3)]).
Proof.
  split; [reflexivity|]. split; [reflexivity|]. split; [reflexivity|].
  intros ties.
  assert (E : cross_two_gtis [(0, 1)] [(2, 3)] = Ok []).
  { rewrite cross_two_gtis_sweep;
      [reflexivity|simpl; lia|simpl; lia| | |discriminate];
      repeat constructor. }
  split; [exact E|]. rewrite E. vm_compute. discriminate.
Qed.

Lemma sweep_ext (reject1 reject2 : gti -> option Z -> Z -> Z -> Z -> bool)
  (gti0 gti1 : gti) (events : list (bool * Z)) :
  (forall tag prev e,
      SweepRule.emitted reject1 gti0 gti1 tag prev e
      = SweepRule.emitted reject2 gti0 gti1 tag prev e) ->
  forall prev,
    SweepRule.sweep reject1 gti0 gti1 events prev
    = SweepRule.sweep reject2 gti0 gti1 events prev.
Proof.
  intros Hext. induction events as [|[tag e] r IH]; intros prev;
    [reflexivity|].
  cbn [SweepRule.sweep]. rewrite Hext.
  destruct (SweepRule.emitted reject2 gti0 gti1 tag prev e);
    rewrite IH; reflexivity.
Qed.

(** On lists of non-empty intervals that do not touch, the interval of the
    other series never stops at the candidate start, so that the third
    test reads the same with "before" and with "at or before". *)
Lemma emitted_lax (gti0 gti1 : gti) (tag : bool) (prev : option Z) (e : Z) :
  positive gti0 -> positive gti1 -> ~ touching gti0 gti1 ->
  SweepRule.emitted SweepRule.full_reject gti0 gti1 tag prev e
  = SweepRule.emitted SweepRule.lax_reject gti0 gti1 tag prev e.
Proof.
  intros P0 P1 Hnt. unfold SweepRule.emitted.
  fold (this_gti gti0 gti1 tag). fold (other_gti gti0 gti1 tag).
  destruct (SweepRule.latest_start (col0 (this_gti gti0 gti1 tag)) e)
    as [st|] eqn:Et; [|reflexivity].
  destruct (SweepRule.latest_start (col0 (other_gti gti0 gti1 tag)) e)
    as [so|] eqn:Eo; [|reflexivity].
  apply latest_start_max in Et, Eo.
  destruct Et as (It & _). destruct Eo as (Io & _).
  apply stop_of_In in Io. destruct Io as (b & Hb & Hib).
  unfold col0 in It. apply in_map_iff in It. destruct It as (q & Eq & Hq).
  unfold SweepRule.full_reject, SweepRule.lax_reject,
    SweepRule.ended_before, SweepRule.ended_by.
  rewrite Hb.
  assert (Hne : b <> Z.max st so).
  { intros Eb.
    assert (Hpos : so < b).
    { assert (P : positive (other_gti gti0 gti1 tag))
        by (destruct tag; assumption).
      unfold positive in P. rewrite Forall_forall in P.
      apply (P _ Hib). }
    assert (Hst : b = st) by lia.
    apply Hnt. destruct tag; simpl in *.
    - exists (so, b), q. repeat split; auto. left. simpl. lia.
    - exists q, (so, b). repeat split; auto. right. simpl. lia. }
  assert (E : (b <? Z.max st so) = (b <=? Z.max st so)).
  { destruct (b <? Z.max st so) eqn:E1; symmetry.
    - apply Z.ltb_lt in E1. apply Z.leb_le. lia.
    - apply Z.ltb_ge in E1. apply Z.leb_gt. lia. }
  rewrite E. reflexivity.
Qed.

(** C1, amended: [[0,10]] crossed with [[5,15]] is [[5,10]].  For validated
    lists of non-empty intervals that do not touch, and are not both
    empty, [cross_two_gtis] returns the intervals of the sweep over the
    stop events of the two lists taken by increasing stop (in whatever
    order the events of one stop come): the candidate of a stop event [e]
    starts at the later of the latest starts of the two series before [e],
    and it is emitted unless (a) its start is at or before the stop emitted
    last, (b) the other series closes an interval strictly inside it, or
    (c) the interval of the other series that starts at its latest start
    stops before the start of the candidate (on such lists, before and at
    or before are the same). *)
Theorem cross_two_gtis_sweep_rule {ties : TieOrder} :
  (forall (gti0 gti1 : gti) (events : list (bool * Z)),
      check_gtis gti0 = Ok tt -> check_gtis gti1 = Ok tt ->
      gti0 ++ gti1 <> [] ->
      positive gti0 -> positive gti1 -> ~ touching gti0 gti1 ->
      Permutation events (map event_of (tagged_rows gti0 gti1)) ->
      StronglySorted stop_le events ->
      cross_two_gtis gti0 gti1
      = Ok (SweepRule.sweep SweepRule.full_reject gti0 gti1 events None) /\
      cross_two_gtis gti0 gti1
      = Ok (SweepRule.sweep SweepRule.lax_reject gti0 gti1 events None)) /\
  cross_two_gtis [(0, 10)] [(5, 15)] = Ok [(5, 10)].
Proof.
  split.
  2:{ rewrite cross_two_gtis_sweep;
        [reflexivity|simpl; lia|simpl; lia| | |discriminate];
        repeat constructor. }
  intros gti0 gti1 events C0 C1 Hne P0 P1 Hnt P S.
  assert (E : cross_two_gtis gti0 gti1
              = Ok (SweepRule.sweep SweepRule.full_reject gti0 gti1
                      events None)).
  { rewrite cross_two_gtis_sweep;
      [|apply check_gtis_Ok; assumption..|assumption|assumption
       |assumption].
    f_equal. unfold SweepRule.full_cross. apply sweep_sorted_perm.
    - eapply perm_trans; [apply stop_events_perm|apply Permutation_sym, P].
    - apply stop_events_sorted.
    - exact S. }
  split; [exact E|]. rewrite E. f_equal.
  apply sweep_ext. intros tag prev e. apply emitted_lax; assumption.
Qed.

Lemma cross_two_gtis_sweep_rule_witness :
  check_gtis [(0, 4); (6, 9)] = Ok tt /\
  check_gtis [(2, 7); (8, 12)] = Ok tt /\
  positive [(0, 4); (6, 9)] /\ positive [(2, 7); (8, 12)] /\
  cross_two_gtis (ties := first_come) [(0, 4); (6, 9)] [(2, 7); (8, 12)]
  = Ok [(2, 4); (6, 7); (8, 9)].
Proof.
  assert (P0 : positive [(0, 4); (6, 9)])
    by (repeat constructor; simpl; lia).
  assert (P1 : positive [(2, 7); (8, 12)])
    by (repeat constructor; simpl; lia).
  split; [reflexivity|]. split; [reflexivity|].
  split; [exact P0|]. split; [exact P1|].
  destruct (proj1 (@cross_two_gtis_sweep_rule first_come) [(0, 4); (6, 9)]
              [(2, 7); (8, 12)]
              [(false, 4); (true, 7); (false, 9); (true, 12)])
    as [E _].
  - reflexivity.
  - reflexivity.
  - discriminate.
  - exact P0.
  - exact P1.
  - intros (p & q & Hp & Hq & H). simpl in Hp, Hq.
    destruct Hp as [<-|[<-|[]]]; destruct Hq as [<-|[<-|[]]];
      simpl in H; lia.
  - simpl. apply perm_skip. eapply perm_trans; [apply perm_swap|].
    apply Permutation_refl.
  - repeat constructor; unfold stop_le; simpl; lia.
  - rewrite E. reflexivity.
Defined.

(** ** join_gtis *)

Lemma check_separate_total (gti0 gti1 : gti) :
  well_behaved gti0 -> well_behaved gti1 ->
  check_separate gti0 gti1 = Ok true \/ check_separate gti0 gti1 = Ok false.
Proof.
  intros H0 H1. unfold check_separate.
  destruct ((length gti0 =? 0)%nat || (length gti1 =? 0)%nat); [auto|].
  apply check_gtis_Ok in H0, H1. rewrite H0, H1. cbn [bind].
  destruct ((last (col1 gti0) 0 <=? hd 0 (col0 gti1))
            || (last (col1 gti1) 0 <=? hd 0 (col0 gti0))); auto.
Qed.

(** On separate lists [join_gtis] returns the concatenation in the order of
    its arguments. *)
Lemma join_gtis_separate {ties : TieOrder} (gti0 gti1 : gti) :
  well_behaved gti0 -> well_behaved gti1 ->
  check_separate gti0 gti1 = Ok true ->
  join_gtis gti0 gti1 = Ok (gti0 ++ gti1).
Proof.
  intros H0 H1 Hsep. unfold join_gtis, append_gtis.
  apply check_gtis_Ok in H0, H1. rewrite H0, H1, Hsep. reflexivity.
Qed.

(** On validated lists that are not separate [join_gtis] raises
    TypeError: the count [len(g0) / 2] that it gives to [np.ones] is a
    float. *)
Lemma join_gtis_not_separate {ties : TieOrder} (gti0 gti1 : gti) :
  well_behaved gti0 -> well_behaved gti1 ->
  check_separate gti0 gti1 = Ok false ->
  join_gtis gti0 gti1 = Raise TypeError.
Proof.
  intros H0 H1 Hsep. unfold join_gtis.
  apply check_gtis_Ok in H0, H1. rewrite H0, H1, Hsep. reflexivity.
Qed.

(** C4: [[0,5]] and [[3,8]] are validated and not separate, and the sweep
    of the running sum merges them into [[0,8]]; [join_gtis] raises
    TypeError on them: [np.ones] is given the float [len(g0) / 2].  So it
    does on [[0,3],[5,9],[11,14]] and [[1,4],[6,12]], which the sweep
    merges into [[0,4],[5,14]]. *)
Theorem join_gtis_float_count {ties : TieOrder} :
  check_gtis [(0, 5)] = Ok tt /\ check_gtis [(3, 8)] = Ok tt /\
  check_separate [(0, 5)] [(3, 8)] = Ok false /\
  JoinRule.merged [(0, 5)] [(3, 8)] = [(0, 8)] /\
  join_gtis [(0, 5)] [(3, 8)] = Raise TypeError /\
  JoinRule.merged [(0, 3); (5, 9); (11, 14)] [(1, 4); (6, 12)]
  = [(0, 4); (5, 14)] /\
  join_gtis [(0, 3); (5, 9); (11, 14)] [(1, 4); (6, 12)] = Raise TypeError.
Proof.
  repeat split.
Qed.

(** ** join_gtis and cross_two_gtis on separate lists *)

(** C5: [[5,6]] and [[0,1]] are validated and separate, and [join_gtis]
    returns them in the order of its arguments, not sorted by start;
    [[0,5]] and [[5,10]] are validated and separate, and [cross_two_gtis]
    returns [[5,10]], not the empty list. *)
Theorem separate_lists_join_cross {ties : TieOrder} :
  check_gtis [(5, 6)] = Ok tt /\ check_gtis [(0, 1)] = Ok tt /\
  check_separate [(5, 6)] [(0, 1)] = Ok true /\
  sorted_concat [(5, 6)] [(0, 1)] = [(0, 1); (5, 6)] /\
  join_gtis [(5, 6)] [(0, 1)] = Ok [(5, 6); (0, 1)] /\
  check_gtis [(0, 5)] = Ok tt /\ check_gtis [(5, 10)] = Ok tt /\
  check_separate [(0, 5)] [(5, 10)] = Ok true /\
  cross_two_gtis [(0, 5)] [(5, 10)] = Ok [(5, 10)].
Proof.
  repeat split.
  rewrite cross_two_gtis_sweep;
    [reflexivity|simpl; lia|simpl; lia| | |discriminate];
    repeat constructor.
Qed.

(** C6: for G = [[2,5],[6,9]] bounded by its own first start and last
    stop, the bad time intervals are [[5,6]]; [cross_two_gtis] of G and of
    them is [[5,6]], not empty, and [join_gtis] raises TypeError, as on all
    lists that are not separate.  Bounded by 0 and 10, the rows that
    [get_btis] returns are not an array of intervals, so that neither
    [cross_two_gtis] nor [join_gtis] can take them. *)
Theorem complement_round_trip_fails {ties : TieOrder} :
  check_gtis [(2, 5); (6, 9)] = Ok tt /\
  (btis <- get_btis [(2, 5); (6, 9)] (Some 2) (Some 9) ;;
   btis <- as_gti btis ;;
   cross_two_gtis [(2, 5); (6, 9)] btis) = Ok [(5, 6)] /\
  (btis <- get_btis [(2, 5); (6, 9)] (Some 2) (Some 9) ;;
   btis <- as_gti btis ;;
   join_gtis [(2, 5); (6, 9)] btis) = Raise TypeError /\
  (btis <- get_btis [(2, 5); (6, 9)] (Some 0) (Some 10) ;;
   as_gti btis) = Raise IndexError.
Proof.
  split; [reflexivity|]. split; [|split; reflexivity].
  change (cross_two_gtis [(2, 5); (6, 9)] [(5, 6)] = Ok [(5, 6)]).
  rewrite cross_two_gtis_sweep;
    [reflexivity|simpl; lia|simpl; lia| | |discriminate];
    repeat constructor; simpl; lia.
Qed.

(** C10: [[3,4]] and [[1,2]] are validated, and the list that [join_gtis]
    returns for them does not pass [check_gtis]. *)
Theorem join_gtis_output_overlaps {ties : TieOrder} :
  check_gtis [(3, 4)] = Ok tt /\ check_gtis [(1, 2)] = Ok tt /\
  join_gtis [(3, 4)] [(1, 2)] = Ok [(3, 4); (1, 2)] /\
  (g <- join_gtis [(3, 4)] [(1, 2)] ;; check_gtis g) = Raise GtiOverlaps.
Proof.
  repeat split.
Qed.

(** ** What holds of the results on separate lists *)

Lemma sweep_nothing (gti0 gti1 : gti) (events : list (bool * Z)) :
  (forall tag e prev,
      In (tag, e) events ->
      SweepRule.emitted SweepRule.full_reject gti0 gti1 tag prev e = None) ->
  forall prev,
    SweepRule.sweep SweepRule.full_reject gti0 gti1 events prev = [].
Proof.
  induction events as [|[tag e] r IH]; intros Hnone prev; [reflexivity|].
  cbn [SweepRule.sweep]. rewrite Hnone by (left; reflexivity).
  apply IH. intros t x q Hin. apply Hnone. right. exact Hin.
Qed.

Lemma stop_event_row (gti0 gti1 : gti) (tag : bool) (e : Z) :
  In (tag, e) (stop_events gti0 gti1) ->
  exists p, In p (this_gti gti0 gti1 tag) /\ snd p = e.
Proof.
  intros Hin.
  eapply Permutation_in in Hin; [|apply stop_events_perm].
  apply in_map_iff in Hin. destruct Hin as ([p t] & E & Hin).
  unfold event_of, row_tag, row_end in E. simpl in E.
  injection E as -> <-. exists p. split; [|reflexivity].
  unfold tagged_rows, tagged in Hin. apply in_app_or in Hin.
  destruct Hin as [Hin|Hin]; apply in_map_iff in Hin;
    destruct Hin as (q & Eq & Hq); injection Eq as -> <-; exact Hq.
Qed.

Lemma emitted_apart (gti0 gti1 : gti) (tag : bool) (prev : option Z)
  (e : Z) :
  (forall p q, In p gti0 -> In q gti1 -> snd p < fst q) ->
  (exists p, In p (this_gti gti0 gti1 tag) /\ snd p = e) ->
  SweepRule.emitted SweepRule.full_reject gti0 gti1 tag prev e = None.
Proof.
  intros Hapart (p & Hp & <-). unfold SweepRule.emitted.
  fold (this_gti gti0 gti1 tag). fold (other_gti gti0 gti1 tag).
  destruct (SweepRule.latest_start (col0 (this_gti gti0 gti1 tag))
              (snd p)) as [st|] eqn:Et; [|reflexivity].
  destruct (SweepRule.latest_start (col0 (other_gti gti0 gti1 tag))
              (snd p)) as [so|] eqn:Eo; [|reflexivity].
  apply latest_start_max in Et, Eo.
  destruct Et as (It & Lt & _). destruct Eo as (Io & Lo & _).
  apply stop_of_In in Io as Hstop. destruct Hstop as (b & Hb & Hib).
  unfold col0 in It. apply in_map_iff in It.
  destruct It as (q & Eq & Hq).
  destruct tag; simpl in *.
  - pose proof (Hapart _ _ Hib Hq) as Hlt. simpl in Hlt.
    unfold SweepRule.full_reject, SweepRule.ended_before. rewrite Hb.
    assert (Hc : (b <? Z.max st so) = true) by (apply Z.ltb_lt; lia).
    rewrite Hc, orb_true_r. reflexivity.
  - pose proof (Hapart _ _ Hp Hib) as Hlt. simpl in Hlt. lia.
Qed.

(** When every interval of the first list stops before every interval of
    the second list starts, the lists have no common interval, in either
    order of the arguments. *)
Lemma cross_two_gtis_apart {ties : TieOrder} (gti0 gti1 : gti) :
  well_behaved gti0 -> well_behaved gti1 -> gti0 ++ gti1 <> [] ->
  (forall p q, In p gti0 -> In q gti1 -> snd p < fst q) ->
  cross_two_gtis gti0 gti1 = Ok [] /\ cross_two_gtis gti1 gti0 = Ok [].
Proof.
  intros H0 H1 Hne Hapart. split.
  - pose proof (@cross_two_gtis_head ties gti0 gti1 H0 H1 Hne) as H.
    cbv zeta in H. destruct H as (_ & _ & ->). f_equal.
    apply sweep_nothing. intros tag e prev Hin.
    apply emitted_apart; [exact Hapart|].
    apply stop_event_row, Hin.
  - assert (Hne' : gti1 ++ gti0 <> []).
    { intros E. apply Hne. apply app_eq_nil in E. destruct E as [-> ->].
      reflexivity. }
    pose proof (@cross_two_gtis_head ties gti1 gti0 H1 H0 Hne') as H.
    cbv zeta in H. destruct H as (_ & _ & ->). f_equal.
    apply sweep_nothing. intros tag e prev Hin.
    rewrite emitted_flip. apply emitted_apart; [exact Hapart|].
    apply stop_event_row in Hin. destruct Hin as (p & Hp & E).
    exists p. split; [|exact E]. destruct tag; exact Hp.
Qed.

Lemma well_behaved_cons (a b : Z) (g : gti) :
  a <= b -> Forall (fun r => b <= fst r) g -> well_behaved g ->
  well_behaved ((a, b) :: g).
Proof.
  intros Hab Hg Hwb. destruct g as [|[c d] g'].
  - simpl. auto.
  - inversion Hg; subst. simpl in *. tauto.
Qed.

Lemma well_behaved_app (gti0 gti1 : gti) :
  well_behaved gti0 -> well_behaved gti1 ->
  (gti0 <> [] -> gti1 <> [] -> last (col1 gti0) 0 <= hd 0 (col0 gti1)) ->
  well_behaved (gti0 ++ gti1).
Proof.
  induction gti0 as [|[a b] g IH]; intros H0 H1 Hle; [exact H1|].
  destruct g as [|[c d] g'].
  - destruct gti1 as [|[c d] g1]; [exact H0|].
    simpl in *. split; [tauto|]. split; [|exact H1].
    apply Hle; discriminate.
  - change (a <= b /\ b <= c /\ well_behaved (((c, d) :: g') ++ gti1)).
    change (a <= b /\ b <= c /\ well_behaved ((c, d) :: g')) in H0.
    split; [tauto|]. split; [tauto|].
    apply IH; [tauto|exact H1|].
    intros _ Hn. apply Hle; [discriminate|exact Hn].
Qed.

(** On validated separate lists given in the order of time, what
    [join_gtis] returns passes [check_gtis]. *)
Lemma join_gtis_in_order_well_behaved {ties : TieOrder} (gti0 gti1 : gti) :
  well_behaved gti0 -> well_behaved gti1 ->
  (gti0 <> [] -> gti1 <> [] -> last (col1 gti0) 0 <= hd 0 (col0 gti1)) ->
  exists r, join_gtis gti0 gti1 = Ok r /\ check_gtis r = Ok tt.
Proof.
  intros H0 H1 Hle. exists (gti0 ++ gti1). split.
  - apply join_gtis_separate; try assumption.
    unfold check_separate.
    destruct gti0 as [|p0 g0]; [reflexivity|].
    destruct gti1 as [|p1 g1]; [reflexivity|].
    cbn [length Nat.eqb orb].
    pose proof H0 as C0. pose proof H1 as C1.
    apply check_gtis_Ok in C0, C1. rewrite C0, C1. cbn [bind].
    assert (E : (last (col1 (p0 :: g0)) 0 <=? hd 0 (col0 (p1 :: g1)))
                = true).
    { apply Z.leb_le. apply Hle; discriminate. }
    rewrite E. reflexivity.
  - apply check_gtis_Ok, well_behaved_app; assumption.
Qed.

(** ** What holds of the rows of [get_btis] *)

Lemma length_flatten (g : gti) : length (flatten g) = (length g * 2)%nat.
Proof.
  induction g as [|[a b] r IH]; simpl; [reflexivity|]. rewrite IH. lia.
Qed.

Lemma combine_fst_snd (A B : Type) (l : list (A * B)) :
  combine (map fst l) (map snd l) = l.
Proof.
  induction l as [|[a b] r IH]; simpl; [reflexivity|].
  rewrite IH. reflexivity.
Qed.

Lemma every_other_firstn_even (x y : Z) (k : nat) (l : list Z) :
  every_other (x :: firstn (2 * k) (y :: l))
  = x :: every_other (firstn (2 * k - 1) l).
Proof.
  destruct k as [|k]; [reflexivity|].
  replace (2 * S k)%nat with (S (S (2 * k))) by lia.
  replace (S (S (2 * k)) - 1)%nat with (S (2 * k)) by lia.
  reflexivity.
Qed.

Lemma stops_between (a : Z) (r : gti) :
  forall b,
    every_other (firstn (2 * length r - 1) (b :: flatten r))
    = map fst (between ((a, b) :: r)).
Proof.
  revert a. induction r as [|[c d] r IH]; intros a b; [reflexivity|].
  cbn [length flatten].
  replace (2 * S (length r) - 1)%nat with (S (2 * length r)) by lia.
  cbn [firstn]. rewrite every_other_firstn_even, (IH c d). reflexivity.
Qed.

Lemma starts_between (a b : Z) (r : gti) :
  every_other (firstn (2 * length r - 1) (flatten r))
  = map snd (between ((a, b) :: r)).
Proof.
  revert a b. induction r as [|[c d] r IH]; intros a b; [reflexivity|].
  cbn [length flatten].
  replace (2 * S (length r) - 1)%nat with (S (2 * length r)) by lia.
  cbn [firstn]. rewrite every_other_firstn_even, (IH c d). reflexivity.
Qed.

Lemma slice_bound_front (len i : Z) :
  0 <= i <= len -> slice_bound len i = Z.to_nat i.
Proof.
  intros H. unfold slice_bound.
  destruct (i <? 0) eqn:E; [apply Z.ltb_lt in E; lia|]. lia.
Qed.

Lemma slice_bound_back (len i : Z) :
  i < 0 -> 0 <= i + len -> slice_bound len i = Z.to_nat (i + len).
Proof.
  intros H1 H2. unfold slice_bound.
  destruct (i <? 0) eqn:E; [|apply Z.ltb_ge in E; lia]. lia.
Qed.

Lemma inner_slices (a b : Z) (r : gti) :
  slice2 (flatten ((a, b) :: r)) 1 (-2)
  = every_other (firstn (2 * length r - 1) (b :: flatten r)) /\
  slice2 (flatten ((a, b) :: r)) 2 (-1)
  = every_other (firstn (2 * length r - 1) (flatten r)).
Proof.
  unfold slice2. rewrite length_flatten. cbn [length].
  rewrite (@slice_bound_front _ 1), (@slice_bound_front _ 2),
    (@slice_bound_back _ (-2)), (@slice_bound_back _ (-1)) by lia.
  replace (Z.to_nat 1) with 1%nat by reflexivity.
  replace (Z.to_nat 2) with 2%nat by reflexivity.
  replace (Z.to_nat (-2 + Z.of_nat (S (length r) * 2)) - 1)%nat
    with (2 * length r - 1)%nat by lia.
  replace (Z.to_nat (-1 + Z.of_nat (S (length r) * 2)) - 2)%nat
    with (2 * length r - 1)%nat by lia.
  split; reflexivity.
Qed.

(** The rows that [get_btis] builds from the inner boundaries are the
    pairs [stop_i, start_{i+1}] of the consecutive GTIs; the row before
    them and the row after them hold one number each. *)
Lemma get_btis_rows (first : Z * Z) (rest : gti) (t0 t1 : Z) :
  well_behaved (first :: rest) ->
  get_btis (first :: rest) (Some t0) (Some t1)
  = Ok ((if fst first - t0 <=? 0 then [] else [[fst first - t0]])
        ++ rows_of (between (first :: rest))
        ++ (if t1 - snd (last (first :: rest) first) >? 0
            then [[fst first - t1]] else [])).
Proof.
  intros Hwb. unfold get_btis.
  apply check_gtis_Ok in Hwb. rewrite Hwb. cbn [bind assign_value_if_none].
  destruct first as [a b].
  destruct (inner_slices a b rest) as [-> ->].
  rewrite (stops_between a), (starts_between a b), combine_fst_snd.
  fold (rows_of (between ((a, b) :: rest))).
  destruct (t1 - snd (last ((a, b) :: rest) (a, b)) >? 0);
    rewrite <- ?app_assoc, ?app_nil_r; reflexivity.
Qed.

(** Without bounds, [get_btis] returns the inner gaps. *)
Lemma get_btis_unbounded (first : Z * Z) (rest : gti) :
  well_behaved (first :: rest) ->
  get_btis (first :: rest) None None
  = Ok (rows_of (between (first :: rest))).
Proof.
  intros Hwb.
  transitivity (get_btis (first :: rest) (Some (fst first))
                  (Some (snd (last (first :: rest) first)))).
  - reflexivity.
  - rewrite get_btis_rows by exact Hwb.
    rewrite !Z.sub_diag. simpl. rewrite app_nil_r. reflexivity.
Qed.

(** ** What holds of the windows of [time_intervals_from_gtis] *)

(** A GTI of [k] chunks gets [k - 1] start times. *)
Lemma chunk_starts_exact_multiple (g0 chunk_length : Z) (k : nat) :
  0 < chunk_length -> (0 < k)%nat ->
  chunk_starts [(g0, g0 + Z.of_nat k * chunk_length)] chunk_length []
  = Ok (map (fun j => g0 + Z.of_nat j * chunk_length) (seq 0 (k - 1))).
Proof.
  intros Hc Hk. cbn [chunk_starts fst snd].
  assert (E : (g0 + Z.of_nat k * chunk_length - g0 <? chunk_length)
              = false) by (apply Z.ltb_ge; nia).
  rewrite E. unfold arange.
  assert (E0 : (chunk_length =? 0) = false) by (apply Z.eqb_neq; lia).
  rewrite E0.
  replace (g0 - (g0 + Z.of_nat k * chunk_length - chunk_length))
    with ((1 - Z.of_nat k) * chunk_length) by ring.
  rewrite Z.div_mul by lia.
  replace (Z.to_nat (- (1 - Z.of_nat k))) with (k - 1)%nat by lia.
  reflexivity.
Qed.

(** ** create_gti_mask *)

Lemma nth_error_map_combine (A B C : Type) (f : A * B -> C) (a : list A)
  (b : list B) (i : nat) :
  nth_error (map f (combine a b)) i =
  match nth_error a i, nth_error b i with
  | Some x, Some y => Some (f (x, y))
  | _, _ => None
  end.
Proof.
  revert b i. induction a as [|x a IH]; intros [|y b] [|i]; simpl; auto.
  - destruct (nth_error a i); reflexivity.
Qed.

Lemma length_map_combine (A B C : Type) (f : A * B -> C) (a : list A)
  (b : list B) :
  length a = length b -> length (map f (combine a b)) = length a.
Proof.
  intros H. rewrite length_map, length_combine. lia.
Qed.

Lemma broadcast2_same_length (f : Z -> Z -> Z) (a b : list Z) :
  length a = length b ->
  broadcast2 f a b = Ok (map (fun p => f (fst p) (snd p)) (combine a b)).
Proof.
  intros H. unfold broadcast2. rewrite H, Nat.eqb_refl. reflexivity.
Qed.

Lemma good_samples_nth (time width : list Z) (limmin limmax : Z) :
  length width = length time ->
  exists good,
    good_samples time width limmin limmax = Ok good /\
    length good = length time /\
    forall i t w,
      nth_error time i = Some t -> nth_error width i = Some w ->
      (nth_error good i = Some true <->
       window_fits t w (limmin, limmax)).
Proof.
  intros Hlen. unfold good_samples.
  rewrite !broadcast2_same_length by auto. simpl.
  eexists. split; [reflexivity|]. split.
  - rewrite length_map_combine; rewrite !length_map, !length_combine; lia.
  - intros i t w Et Ew.
    assert (Ec : nth_error (combine time width) i = Some (t, w)).
    { rewrite <- (map_id (combine time width)), nth_error_map_combine,
        Et, Ew.
      reflexivity. }
    rewrite nth_error_map_combine, !nth_error_map, Ec.
    simpl. unfold window_fits. simpl.
    split.
    + intros E. injection E as E. apply andb_true_iff in E.
      rewrite Z.geb_le, Z.leb_le in E. exact E.
    + intros E. f_equal. apply andb_true_iff.
      rewrite Z.geb_le, Z.leb_le. exact E.
Qed.

Lemma set_true_nth (mask good : list bool) :
  length good = length mask ->
  exists mask',
    set_true mask good = Ok mask' /\
    length mask' = length mask /\
    forall i,
      nth_error mask' i = Some true <->
      nth_error mask i = Some true \/ nth_error good i = Some true.
Proof.
  intros Hlen. unfold set_true. rewrite Hlen, Nat.eqb_refl.
  eexists. split; [reflexivity|]. split.
  - apply length_map_combine. auto.
  - intros i. rewrite nth_error_map_combine.
    destruct (nth_error mask i) as [m|] eqn:Em.
    + destruct (nth_error good i) as [g|] eqn:Eg.
      * simpl. destruct m, g; simpl; intuition congruence.
      * exfalso. apply nth_error_None in Eg.
        assert (i < length mask)%nat by (apply nth_error_Some; congruence).
        lia.
    + split; [discriminate|]. intros [H|H]; [discriminate|].
      exfalso. apply nth_error_None in Em.
      assert (i < length good)%nat by (apply nth_error_Some; congruence).
      lia.
Qed.

Lemma mask_step_spec (time width : list Z) (safe : Z * Z)
  (min_length : Z) (mask : list bool) (newgtis : gti) (g : Z * Z) :
  length width = length time -> length mask = length time ->
  exists mask',
    mask_step time width safe min_length (mask, newgtis) g
      = Ok (mask',
            newgtis ++ (if keeps min_length (shrunk safe g)
                        then [shrunk safe g] else [])) /\
    length mask' = length time /\
    forall i t w,
      nth_error time i = Some t -> nth_error width i = Some w ->
      (nth_error mask' i = Some true <->
       nth_error mask i = Some true \/
       (long_enough min_length (shrunk safe g) /\
        window_fits t w (shrunk safe g))).
Proof.
  intros Hw Hmask. destruct g as [a b].
  unfold mask_step, keeps, shrunk. simpl fst. simpl snd.
  destruct (b - snd safe - (a + fst safe) >=? min_length) eqn:E.
  - apply Z.geb_le in E.
    destruct (@good_samples_nth time width (a + fst safe) (b - snd safe) Hw)
      as (good & -> & Hgl & Hg).
    cbn [bind].
    destruct (@set_true_nth mask good) as (mask' & -> & Hml & Hm);
      [lia|].
    cbn [bind]. exists mask'.
    split; [reflexivity|]. split; [lia|].
    intros i t w Et Ew. rewrite Hm, (Hg i t w Et Ew).
    unfold long_enough. simpl. tauto.
  - exists mask. rewrite app_nil_r.
    split; [reflexivity|]. split; [assumption|].
    intros i t w _ _. unfold long_enough. simpl.
    assert (~ min_length <= b - snd safe - (a + fst safe)).
    { intros H. apply Z.geb_le in H. congruence. }
    tauto.
Qed.

Lemma mask_loop_spec (time width : list Z) (safe : Z * Z)
  (min_length : Z) (gtis : gti) :
  length width = length time ->
  forall (mask : list bool) (newgtis : gti),
    length mask = length time ->
    exists mask',
      mask_loop time width safe min_length gtis (mask, newgtis)
        = Ok (mask',
              newgtis
              ++ filter (keeps min_length) (map (shrunk safe) gtis)) /\
      length mask' = length time /\
      forall i t w,
        nth_error time i = Some t -> nth_error width i = Some w ->
        (nth_error mask' i = Some true <->
         nth_error mask i = Some true \/
         exists g, In g gtis /\ long_enough min_length (shrunk safe g) /\
                   window_fits t w (shrunk safe g)).
Proof.
  intros Hw. induction gtis as [|g r IH]; intros mask newgtis Hmask.
  - exists mask. simpl. rewrite app_nil_r.
    split; [reflexivity|]. split; [assumption|].
    intros i t w _ _. split; [auto|]. intros [H|(g & [] & _)]. exact H.
  - destruct (@mask_step_spec time width safe min_length mask newgtis g
                Hw Hmask) as (m1 & E1 & L1 & H1).
    destruct (IH m1 (newgtis ++ (if keeps min_length (shrunk safe g)
                                 then [shrunk safe g] else [])) L1)
      as (m2 & E2 & L2 & H2).
    exists m2. split; [|split; [assumption|]].
    + cbn [mask_loop]. rewrite E1. cbn [bind].
      unfold gti in *. rewrite E2.
      f_equal. f_equal. cbn [map filter].
      destruct (keeps min_length (shrunk safe g));
        rewrite <- app_assoc; reflexivity.
    + intros i t w Et Ew.
      rewrite (H2 i t w Et Ew), (H1 i t w Et Ew). split.
      * intros [[H|H]|(g' & Hin & H)]; auto.
        -- right. exists g. split; [left; reflexivity|exact H].
        -- right. exists g'. split; [right; exact Hin|exact H].
      * intros [H|(g' & [<-|Hin] & H)]; auto.
        right. exists g'. auto.
Qed.

Lemma nth_error_repeat_false (n i : nat) :
  nth_error (repeat false n) i <> Some true.
Proof.
  revert i. induction n as [|n IH]; intros [|i]; simpl; try discriminate.
  apply IH.
Qed.

Lemma bin_time_cases (time : list Z) :
  (exists t0 t1 rest, time = t0 :: t1 :: rest /\ bin_time time = Ok (t1 - t0))
  \/ ((length time < 2)%nat /\ bin_time time = Raise IndexError).
Proof.
  destruct time as [|t0 [|t1 rest]].
  - right. split; [simpl; lia|reflexivity].
  - right. split; [simpl; lia|reflexivity].
  - left. exists t0, t1, rest. split; reflexivity.
Qed.

Lemma widths_length (time : list Z) (dt : option (list Z)) (bintime : Z) :
  (forall d, dt = Some d -> length d = length time) ->
  length (widths time dt bintime) = length time.
Proof.
  intros H. unfold widths. destruct dt as [d|]; simpl.
  - rewrite length_map. apply H. reflexivity.
  - apply length_map.
Qed.

Lemma window_fits_doubled (t d : Z) (iv : Z * Z) :
  window_fits t (2 * d) iv <-> window_within t d iv.
Proof. unfold window_fits, window_within. lia. Qed.

(** What [create_gti_mask] returns on a time axis of two samples or
    more. *)
Lemma create_gti_mask_spec (time : list Z) (dt : option (list Z))
  (gtis : gti) (safe_interval : safe_interval_arg) (min_length : Z)
  (return_new_gtis : bool) (t0 t1 : Z) (rest : list Z) :
  time = t0 :: t1 :: rest ->
  (forall d, dt = Some d -> length d = length time) ->
  well_behaved gtis ->
  exists mask,
    create_gti_mask time gtis safe_interval min_length return_new_gtis dt
    = Ok (if return_new_gtis
          then MaskAndGtis mask
                 (filter (keeps min_length)
                    (map (shrunk (safe_pair safe_interval)) gtis))
          else MaskOnly mask) /\
    length mask = length time /\
    forall i t w,
      nth_error time i = Some t ->
      nth_error (widths time dt (t1 - t0)) i = Some w ->
      (nth_error mask i = Some true <->
       exists g,
         In g gtis /\
         long_enough min_length (shrunk (safe_pair safe_interval) g) /\
         window_fits t w (shrunk (safe_pair safe_interval) g)).
Proof.
  intros Et Hdt Hwb. unfold create_gti_mask.
  apply check_gtis_Ok in Hwb. rewrite Hwb. cbn [bind].
  assert (Eb : bin_time time = Ok (t1 - t0)) by (rewrite Et; reflexivity).
  rewrite Eb. cbn [bind].
  destruct (@mask_loop_spec time (widths time dt (t1 - t0))
              (safe_pair safe_interval) min_length gtis
              (@widths_length time dt (t1 - t0) Hdt)
              (repeat false (length time)) [])
    as (m & E & L & H); [apply repeat_length|].
  exists m. split.
  - unfold gti in *. rewrite E. destruct return_new_gtis; reflexivity.
  - split; [exact L|]. intros i t w Ei Ew. rewrite (H i t w Ei Ew).
    split.
    + intros [F|F]; [|exact F].
      exfalso. exact (nth_error_repeat_false _ _ F).
    + auto.
Qed.

Lemma mask_ext (m1 m2 : list bool) :
  length m1 = length m2 ->
  (forall i, nth_error m1 i = Some true <-> nth_error m2 i = Some true) ->
  m1 = m2.
Proof.
  revert m2. induction m1 as [|b1 m1 IH]; intros [|b2 m2] Hl H;
    simpl in Hl; try lia; [reflexivity|].
  f_equal.
  - specialize (H 0%nat). simpl in H. destruct b1, b2; try reflexivity.
    + destruct H as [H _]. specialize (H eq_refl). discriminate.
    + destruct H as [_ H]. specialize (H eq_refl). discriminate.
  - apply IH; [lia|]. intros i. apply (H (S i)).
Qed.

Lemma well_behaved_pairwise (g : gti) :
  well_behaved g <->
  Forall (fun p => fst p <= snd p) g /\ StronglySorted precedes g.
Proof.
  split.
  - intros H. split; [apply well_behaved_Forall, H|].
    induction g as [|[a b] g IH]; constructor.
    + apply IH. eapply well_behaved_tail, H.
    + apply well_behaved_after in H. exact H.
  - intros [F S]. induction S as [|[a b] g S IH Hp]; [exact I|].
    inversion F as [|? ? Hab F']; subst.
    apply well_behaved_cons; [exact Hab|exact Hp|apply IH, F'].
Qed.

Lemma sorted_filter (A : Type) (R : A -> A -> Prop) (f : A -> bool)
  (l : list A) :
  StronglySorted R l -> StronglySorted R (filter f l).
Proof.
  induction 1 as [|x l S IH Hx]; simpl; [constructor|].
  destruct (f x); [|exact IH].
  constructor; [exact IH|].
  apply Forall_forall. intros y Hy. apply filter_In in Hy.
  rewrite Forall_forall in Hx. apply Hx. tauto.
Qed.

Lemma well_behaved_filter (f : Z * Z -> bool) (g : gti) :
  well_behaved g -> well_behaved (filter f g).
Proof.
  intros H. apply well_behaved_pairwise in H. destruct H as [F S].
  apply well_behaved_pairwise. split.
  - apply Forall_forall. intros p Hp. apply filter_In in Hp.
    rewrite Forall_forall in F. apply F. tauto.
  - apply sorted_filter, S.
Qed.

(** C8, counterexample: the window [4,6] of the one sample of the time
    axis [5] lies within [0,10], and [create_gti_mask] returns no mask: it
    raises IndexError.  Nor does it return a mask for two half-widths on a
    time axis of three samples.  With the margins 1 the interval [5,5]
    collapses to [6,4]; under the minimum length -5 and the half-widths -2
    it marks both samples of the time axis [5,6], which the empty GTI list
    leaves unmarked. *)
Lemma create_gti_mask_claim_fails :
  check_gtis [(0, 10)] = Ok tt /\
  long_enough 0 (shrunk (safe_pair (Scalar 0)) (0, 10)) /\
  window_within 5 1 (shrunk (safe_pair (Scalar 0)) (0, 10)) /\
  create_gti_mask [5] [(0, 10)] (Scalar 0) 0 false (Some [1])
  = Raise IndexError /\
  create_gti_mask [1; 5; 8] [(0, 10)] (Scalar 0) 0 false (Some [1; 1])
  = Raise ShapeError /\
  check_gtis [(5, 5)] = Ok tt /\
  collapses (safe_pair (Scalar 1)) (5, 5) = true /\
  create_gti_mask [5; 6] [(5, 5)] (Scalar 1) (-5) false (Some [-2; -2])
  = Ok (MaskOnly [true; true]) /\
  create_gti_mask [5; 6] [] (Scalar 1) (-5) false (Some [-2; -2])
  = Ok (MaskOnly [false; false]).
Proof.
  unfold long_enough, window_within. simpl.
  repeat split; lia.
Qed.

(** C8, amended: on a time axis of two samples or more, half-widths of the
    length of the axis and a validated GTI list, [create_gti_mask] returns
    a mask of the length of the axis in which sample [i] is true exactly
    when its window [time[i] - dt[i], time[i] + dt[i]] lies within a
    margin-shrunk interval at least [min_length] long.  When the minimum
    length, or every half-width, is not negative, the intervals whose
    shrinking collapses add nothing to the mask and raise nothing: without
    them the mask is the same. *)
Theorem create_gti_mask_window (time dt : list Z) (gtis : gti)
  (safe_interval : safe_interval_arg) (min_length : Z)
  (return_new_gtis : bool) :
  (2 <= length time)%nat ->
  length dt = length time ->
  well_behaved gtis ->
  exists res,
    create_gti_mask time gtis safe_interval min_length return_new_gtis
      (Some dt) = Ok res /\
    length (mask_of res) = length time /\
    (forall i t d,
        nth_error time i = Some t -> nth_error dt i = Some d ->
        (nth_error (mask_of res) i = Some true <->
         exists g,
           In g gtis /\
           long_enough min_length (shrunk (safe_pair safe_interval) g) /\
           window_within t d (shrunk (safe_pair safe_interval) g))) /\
    (0 <= min_length \/ Forall (fun d => 0 <= d) dt ->
     exists res',
       create_gti_mask time
         (filter (fun g => negb (collapses (safe_pair safe_interval) g))
                 gtis)
         safe_interval min_length return_new_gtis (Some dt) = Ok res' /\
       mask_of res' = mask_of res).
Proof.
  intros Hlen Hdt Hwb.
  destruct time as [|t0 [|t1 rest]]; simpl in Hlen; try lia.
  set (time := t0 :: t1 :: rest) in *.
  assert (Hd : forall d, Some dt = Some d -> length d = length time).
  { intros d E. injection E as <-. exact Hdt. }
  assert (Hw : forall i d, nth_error dt i = Some d ->
                 nth_error (widths time (Some dt) (t1 - t0)) i
                 = Some (2 * d)).
  { intros i d E. unfold widths. simpl.
    rewrite nth_error_map, E. reflexivity. }
  destruct (@create_gti_mask_spec time (Some dt) gtis safe_interval
              min_length return_new_gtis t0 t1 rest eq_refl Hd Hwb)
    as (m & E & L & H).
  assert (Hm : forall i t d,
             nth_error time i = Some t -> nth_error dt i = Some d ->
             (nth_error m i = Some true <->
              exists g,
                In g gtis /\
                long_enough min_length
                  (shrunk (safe_pair safe_interval) g) /\
                window_within t d (shrunk (safe_pair safe_interval) g))).
  { intros i t d Ei Ed. rewrite (H i t (2 * d) Ei (Hw i d Ed)).
    split; intros (g & Hg & Hl & Hf); exists g;
      (split; [exact Hg|split; [exact Hl|]]);
      apply window_fits_doubled; exact Hf. }
  eexists. split; [exact E|].
  assert (Em : forall mm gs, mask_of (if return_new_gtis
                                      then MaskAndGtis mm gs
                                      else MaskOnly mm) = mm)
    by (intros mm gs; destruct return_new_gtis; reflexivity).
  rewrite Em. split; [exact L|]. split; [exact Hm|].
  intros Hpos.
  destruct (@create_gti_mask_spec time (Some dt)
              (filter (fun g => negb (collapses (safe_pair safe_interval)
                                        g)) gtis)
              safe_interval min_length return_new_gtis t0 t1 rest eq_refl
              Hd (@well_behaved_filter _ _ Hwb))
    as (m' & E' & L' & H').
  eexists. split; [exact E'|]. rewrite !Em.
  apply mask_ext; [lia|]. intros i.
  destruct (nth_error time i) as [t|] eqn:Ei.
  - destruct (nth_error dt i) as [d|] eqn:Ed.
    + rewrite (H' i t (2 * d) Ei (Hw i d Ed)).
      rewrite (H i t (2 * d) Ei (Hw i d Ed)).
      split.
      * intros (g & Hg & Hl & Hf). apply filter_In in Hg.
        exists g. tauto.
      * intros (g & Hg & Hl & Hf). exists g.
        split; [|split; assumption].
        apply filter_In. split; [exact Hg|].
        apply negb_true_iff. unfold collapses. apply Z.ltb_ge.
        apply window_fits_doubled in Hf.
        unfold long_enough, window_within in *.
        destruct Hpos as [Hpos|Hpos]; [lia|].
        rewrite Forall_forall in Hpos.
        assert (0 <= d) by (apply Hpos; eapply nth_error_In; eauto).
        lia.
    + apply nth_error_None in Ed.
      assert (i < length time)%nat by (apply nth_error_Some; congruence).
      lia.
  - apply nth_error_None in Ei.
    assert (E1 : nth_error m' i = None) by (apply nth_error_None; lia).
    assert (E2 : nth_error m i = None) by (apply nth_error_None; lia).
    rewrite E1, E2. tauto.
Qed.

Lemma create_gti_mask_window_witness :
  (2 <= length [1; 5; 8])%nat /\
  length [1; 1; 1] = length [1; 5; 8] /\
  well_behaved [(0, 4); (6, 9)] /\
  exists res,
    create_gti_mask [1; 5; 8] [(0, 4); (6, 9)] (Scalar 3) 0 false
      (Some [1; 1; 1]) = Ok res /\
    length (mask_of res) = length [1; 5; 8] /\
    exists res',
      create_gti_mask [1; 5; 8]
        (filter (fun g => negb (collapses (safe_pair (Scalar 3)) g))
                [(0, 4); (6, 9)])
        (Scalar 3) 0 false (Some [1; 1; 1]) = Ok res' /\
      mask_of res' = mask_of res.
Proof.
  split; [simpl; lia|]. split; [reflexivity|]. split; [simpl; lia|].
  destruct (@create_gti_mask_window [1; 5; 8] [1; 1; 1] [(0, 4); (6, 9)]
              (Scalar 3) 0 false) as (res & E & L & _ & Hcollapsed).
  - simpl. lia.
  - reflexivity.
  - simpl. lia.
  - exists res. split; [exact E|]. split; [exact L|].
    apply Hcollapsed. left. lia.
Defined.

(** ** The new GTIs of create_gti_mask *)

Lemma kept_well_behaved (safe : Z * Z) (min_length : Z) (gtis : gti) :
  well_behaved gtis -> 0 <= min_length -> 0 <= fst safe + snd safe ->
  well_behaved (filter (keeps min_length) (map (shrunk safe) gtis)).
Proof.
  intros H Hml Hs. apply well_behaved_pairwise.
  apply well_behaved_pairwise in H. destruct H as [_ S]. split.
  - apply Forall_forall. intros p Hp. apply filter_In in Hp.
    destruct Hp as [_ Hk]. unfold keeps in Hk. apply Z.geb_le in Hk. lia.
  - apply sorted_filter.
    induction S as [|p g S IH Hp]; simpl; constructor; [exact IH|].
    rewrite Forall_map. eapply Forall_impl; [|exact Hp].
    unfold precedes, shrunk. simpl. intros; lia.
Qed.

(** X10: asked for the new GTIs, [create_gti_mask] returns on a time
    axis of two samples or more, in their order, the margin-shrunk
    intervals that are at least [min_length] long, whether the half-widths
    are given (in the length of the axis) or not; on a shorter time axis
    it raises IndexError, given the half-widths or not.  When [min_length]
    and the sum of the two margins are not negative, the new GTIs pass
    [check_gtis]. *)
Theorem create_gti_mask_new_gtis (time : list Z) (dt : option (list Z))
  (gtis : gti) (safe_interval : safe_interval_arg) (min_length : Z) :
  (forall d, dt = Some d -> length d = length time) ->
  check_gtis gtis = Ok tt ->
  ((2 <= length time)%nat ->
   exists mask,
     create_gti_mask time gtis safe_interval min_length true dt
     = Ok (MaskAndGtis mask
             (filter (keeps min_length)
                (map (shrunk (safe_pair safe_interval)) gtis)))) /\
  ((length time < 2)%nat ->
   create_gti_mask time gtis safe_interval min_length true dt
   = Raise IndexError) /\
  (0 <= min_length ->
   0 <= fst (safe_pair safe_interval) + snd (safe_pair safe_interval) ->
   check_gtis (filter (keeps min_length)
                 (map (shrunk (safe_pair safe_interval)) gtis))
   = Ok tt).
Proof.
  intros Hdt C. split; [|split].
  - intros Hlen.
    destruct time as [|t0 [|t1 rest]]; simpl in Hlen; try lia.
    destruct (@create_gti_mask_spec (t0 :: t1 :: rest) dt gtis
                safe_interval min_length true t0 t1 rest eq_refl Hdt)
      as (mask & E & _); [apply check_gtis_Ok, C|].
    exists mask. exact E.
  - intros Hlen. unfold create_gti_mask. rewrite C. cbn [bind].
    destruct (bin_time_cases time) as [(t0 & t1 & rest & Et & _)|[_ ->]].
    + rewrite Et in Hlen. simpl in Hlen. lia.
    + reflexivity.
  - intros Hml Hs. apply check_gtis_Ok, kept_well_behaved; try assumption.
    apply check_gtis_Ok, C.
Qed.

Lemma create_gti_mask_new_gtis_witness :
  check_gtis [(0, 4); (5, 6); (6, 9)] = Ok tt /\
  (exists mask,
      create_gti_mask [1; 5; 8] [(0, 4); (5, 6); (6, 9)] (Scalar 1) 0 true
        None
      = Ok (MaskAndGtis mask [(1, 3); (7, 8)])) /\
  create_gti_mask [1] [(0, 4); (5, 6); (6, 9)] (Scalar 1) 0 true
    (Some [0])
  = Raise IndexError.
Proof.
  split; [reflexivity|].
  destruct (@create_gti_mask_new_gtis [1; 5; 8] None
              [(0, 4); (5, 6); (6, 9)] (Scalar 1) 0) as (H & _).
  - discriminate.
  - reflexivity.
  - split; [apply H; simpl; lia|].
    apply (@create_gti_mask_new_gtis [1] (Some [0])
             [(0, 4); (5, 6); (6, 9)] (Scalar 1) 0).
    + intros d E. injection E as <-. reflexivity.
    + reflexivity.
    + simpl. lia.
Defined.

(** * Properties of the further functions *)

(** ** cross_gtis *)

Lemma np_array_cases (final_gti : gti) :
  (final_gti = [] /\ np_array final_gti = Flat) \/
  (final_gti <> [] /\ np_array final_gti = Table final_gti).
Proof.
  destruct final_gti; [left|right]; split; try reflexivity; discriminate.
Qed.

Lemma cross_rest_validates {ties : TieOrder} (rest : list gti) :
  forall (gti0 a : ndarray),
    rest <> [] ->
    cross_rest gti0 rest = Ok a ->
    (exists rows, gti0 = Table rows /\ check_gtis rows = Ok tt) /\
    Forall (fun g => check_gtis g = Ok tt) rest /\
    (a = Flat \/ exists r, a = Table r /\ r <> [] /\ check_gtis r = Ok tt).
Proof.
  induction rest as [|g rest IH]; intros gti0 a Hne H; [congruence|].
  cbn [cross_rest] in H.
  destruct gti0 as [|rows]; [discriminate|]. cbn [two_dimensional bind] in H.
  destruct (cross_two_gtis rows g) as [x|] eqn:E; [|discriminate].
  cbn [bind] in H.
  destruct (cross_two_gtis_checks _ _ E) as [C0 C1].
  split; [exists rows; split; [reflexivity|exact C0]|].
  destruct rest as [|g' rest'].
  - simpl in H. injection H as <-.
    split; [repeat constructor; exact C1|].
    destruct (np_array_cases x) as [[_ ->]|[Hx ->]]; [left; reflexivity|].
    right. exists x. split; [reflexivity|]. split; [exact Hx|].
    apply check_gtis_Ok. eapply cross_two_gtis_well_behaved, E.
  - destruct (IH (np_array x) a) as (_ & F & Ha); [discriminate|exact H|].
    split; [constructor; assumption|exact Ha].
Qed.

(** X1: when [cross_gtis] of two or more lists returns an array, every
    list of the input passes [check_gtis].  The array returned either has
    no interval, and then it has one dimension and [check_gtis] raises
    IndexError on it, or it has rows and passes [check_gtis]. *)
Theorem cross_gtis_validates {ties : TieOrder} (gti_list : list gti)
  (a : ndarray) :
  (2 <= length gti_list)%nat ->
  cross_gtis gti_list = Ok a ->
  Forall (fun g => check_gtis g = Ok tt) gti_list /\
  ((a = Flat /\ check_array a = Raise IndexError) \/
   (exists r, a = Table r /\ r <> [] /\ check_array a = Ok tt)).
Proof.
  intros Hlen H.
  destruct gti_list as [|gti0 [|g rest]]; simpl in Hlen; try lia.
  unfold cross_gtis in H.
  destruct (@cross_rest_validates ties (g :: rest) (Table gti0) a)
    as ((rows & Er & C0) & F & Ha); [discriminate|exact H|].
  injection Er as <-.
  split; [constructor; assumption|].
  destruct Ha as [->|(r & -> & Hr & Cr)].
  - left. split; reflexivity.
  - right. exists r. split; [reflexivity|]. split; [exact Hr|exact Cr].
Qed.

Lemma cross_gtis_validates_witness :
  cross_gtis (ties := first_come) [[(0, 10)]; [(5, 15)]; [(7, 20)]]
  = Ok (Table [(7, 10)]) /\
  Forall (fun g => check_gtis g = Ok tt) [[(0, 10)]; [(5, 15)]; [(7, 20)]] /\
  ((Table [(7, 10)] = Flat /\
    check_array (Table [(7, 10)]) = Raise IndexError) \/
   (exists r, Table [(7, 10)] = Table r /\ r <> [] /\
              check_array (Table [(7, 10)]) = Ok tt)).
Proof.
  split; [reflexivity|].
  apply (@cross_gtis_validates first_come
           [[(0, 10)]; [(5, 15)]; [(7, 20)]] (Table [(7, 10)])).
  - simpl. lia.
  - reflexivity.
Defined.

(** X2: two validated lists of intervals that are not empty may be
    exchanged, whatever the order that [np.argsort] gives to equal stops:
    [cross_two_gtis] has the same outcome for them in either order, and so
    has [cross_gtis] when they are its first two lists. *)
Theorem cross_gtis_first_two {ties : TieOrder} (gti0 gti1 : gti)
  (rest : list gti) :
  check_gtis gti0 = Ok tt -> check_gtis gti1 = Ok tt ->
  positive gti0 -> positive gti1 ->
  cross_two_gtis gti0 gti1 = cross_two_gtis gti1 gti0 /\
  cross_gtis (gti0 :: gti1 :: rest) = cross_gtis (gti1 :: gti0 :: rest).
Proof.
  intros C0 C1 P0 P1. apply check_gtis_Ok in C0, C1.
  pose proof (@cross_two_gtis_swap ties gti0 gti1 C0 C1 P0 P1) as E.
  split; [exact E|].
  unfold cross_gtis. cbn [cross_rest two_dimensional bind].
  rewrite E. reflexivity.
Qed.

Lemma cross_gtis_first_two_witness :
  check_gtis [(0, 10)] = Ok tt /\ check_gtis [(5, 15)] = Ok tt /\
  positive [(0, 10)] /\ positive [(5, 15)] /\
  cross_gtis (ties := first_come) [[(0, 10)]; [(5, 15)]; [(7, 20)]]
  = cross_gtis (ties := first_come) [[(5, 15)]; [(0, 10)]; [(7, 20)]].
Proof.
  assert (P0 : positive [(0, 10)]) by (repeat constructor).
  assert (P1 : positive [(5, 15)]) by (repeat constructor).
  split; [reflexivity|]. split; [reflexivity|].
  split; [exact P0|]. split; [exact P1|].
  exact (proj2 (@cross_gtis_first_two first_come [(0, 10)] [(5, 15)]
                  [[(7, 20)]] eq_refl eq_refl P0 P1)).
Defined.

Lemma cross_rest_app {ties : TieOrder} (l1 l2 : list gti) :
  forall gti0 : ndarray,
    cross_rest gti0 (l1 ++ l2)
    = (x <- cross_rest gti0 l1 ;; cross_rest x l2).
Proof.
  induction l1 as [|g l1 IH]; intros gti0; [reflexivity|].
  cbn [app cross_rest].
  destruct (two_dimensional gti0) as [rows|]; [|reflexivity].
  cbn [bind].
  destruct (cross_two_gtis rows g) as [x|]; [|reflexivity].
  cbn [bind]. apply IH.
Qed.

(** X3: when the lists crossed so far have nothing in common and a further
    list follows, [cross_gtis] raises IndexError: the empty array that
    [cross_two_gtis] has returned has one dimension only. *)
Theorem cross_gtis_empty_then_more {ties : TieOrder} (gti_list : list gti)
  (g : gti) (rest : list gti) :
  (2 <= length gti_list)%nat ->
  cross_gtis gti_list = Ok Flat ->
  cross_gtis (gti_list ++ g :: rest) = Raise IndexError.
Proof.
  intros Hlen H.
  destruct gti_list as [|gti0 [|g1 more]]; simpl in Hlen; try lia.
  unfold cross_gtis in H.
  change (cross_gtis ((gti0 :: g1 :: more) ++ g :: rest))
    with (cross_rest (Table gti0) ((g1 :: more) ++ g :: rest)).
  rewrite cross_rest_app.
  rewrite H. reflexivity.
Qed.

Lemma cross_gtis_empty_then_more_witness :
  cross_gtis (ties := first_come) [[(0, 1)]; [(5, 15)]] = Ok Flat /\
  cross_gtis (ties := first_come) [[(0, 1)]; [(5, 15)]; [(7, 20)]]
  = Raise IndexError.
Proof.
  split; [reflexivity|].
  apply (@cross_gtis_empty_then_more first_come [[(0, 1)]; [(5, 15)]]
           [(7, 20)] []).
  - simpl. lia.
  - reflexivity.
Defined.

(** ** cross_two_gtis of a list with itself *)

Lemma strictly_after (a b : Z) (g : gti) :
  strictly_behaved ((a, b) :: g) ->
  Forall (fun q => b < fst q /\ fst q < snd q) g.
Proof.
  revert a b. induction g as [|[c d] g IH]; intros a b H; constructor.
  - simpl in *. destruct g as [|[c' d'] g']; simpl in *; lia.
  - assert (Hcd : strictly_behaved ((c, d) :: g)) by (simpl in *; tauto).
    apply IH in Hcd. eapply Forall_impl; [|exact Hcd].
    simpl in *. intros; lia.
Qed.

Lemma strictly_split (p s : gti) (a b : Z) :
  strictly_behaved (p ++ (a, b) :: s) ->
  a < b /\
  Forall (fun q => fst q < snd q /\ snd q < a) p /\
  Forall (fun q => b < fst q /\ fst q < snd q) s.
Proof.
  induction p as [|[c d] p IH]; intros H.
  - split; [simpl in H; tauto|]. split; [constructor|].
    apply strictly_after with (a := a). exact H.
  - simpl app in H.
    pose proof (@strictly_after c d _ H) as Ha.
    assert (Ht : strictly_behaved (p ++ (a, b) :: s)).
    { simpl in H. destruct (p ++ (a, b) :: s) as [|[x y] l]; tauto. }
    destruct (IH Ht) as (Hab & F1 & F2).
    split; [exact Hab|]. split; [|exact F2].
    constructor; [|exact F1].
    apply Forall_app in Ha. destruct Ha as [_ Ha].
    inversion Ha; subst. simpl in *.
    assert (c < d).
    { destruct (p ++ (a, b) :: s) as [|[x y] l]; simpl in H; tauto. }
    lia.
Qed.

Lemma strictly_well_behaved (g : gti) :
  strictly_behaved g -> well_behaved g.
Proof.
  induction g as [|[a b] g IH]; intros H; [exact I|].
  simpl in H. destruct H as (Hab & Hn & Hr). simpl.
  split; [lia|]. split; [|apply IH, Hr].
  destruct g as [|[c d] g']; [exact I|lia].
Qed.

Lemma strictly_positive (g : gti) : strictly_behaved g -> positive g.
Proof.
  induction g as [|[a b] g IH]; intros H; [constructor|].
  simpl in H. destruct H as (Hab & _ & Hr).
  constructor; [exact Hab|apply IH, Hr].
Qed.

Lemma latest_start_exists (starts : list Z) (a e : Z) :
  In a starts -> a < e ->
  exists m, SweepRule.latest_start starts e = Some m.
Proof.
  intros Hin Hlt. unfold SweepRule.latest_start.
  destruct (below e starts) as [|x r] eqn:E; [|eauto].
  exfalso.
  assert (Hb : In a (below e starts)).
  { apply filter_In. split; [exact Hin|]. apply Z.ltb_lt. exact Hlt. }
  rewrite E in Hb. exact Hb.
Qed.

Lemma stop_of_app (p s : gti) (a b : Z) :
  Forall (fun q => fst q <> a) p ->
  SweepRule.stop_of (p ++ (a, b) :: s) a = Some b.
Proof.
  induction 1 as [|[c d] p Hc Hp IH]; simpl.
  - rewrite Z.eqb_refl. reflexivity.
  - simpl in Hc. destruct (c =? a) eqn:E;
      [apply Z.eqb_eq in E; congruence|exact IH].
Qed.

(** The three facts that let the sweep emit an interval of a list crossed
    with itself. *)
Lemma self_event (g p s : gti) (a b : Z) :
  g = p ++ (a, b) :: s -> strictly_behaved g ->
  SweepRule.latest_start (col0 g) b = Some a /\
  SweepRule.closes_inside g a b = false /\
  SweepRule.stop_of g a = Some b.
Proof.
  intros Hg Hs. rewrite Hg in Hs. apply strictly_split in Hs.
  destruct Hs as (Hab & F1 & F2). rewrite Forall_forall in F1, F2.
  assert (Hin : In a (col0 g)).
  { rewrite Hg. unfold col0. rewrite map_app. apply in_or_app.
    right. left. reflexivity. }
  repeat split.
  - destruct (@latest_start_exists (col0 g) a b Hin Hab) as [m Hm].
    rewrite Hm. f_equal.
    apply latest_start_max in Hm. destruct Hm as (Im & Lm & Mm).
    specialize (Mm a Hin Hab).
    unfold col0 in Im. apply in_map_iff in Im.
    destruct Im as (q & Eq & Hq). rewrite Hg in Hq.
    apply in_app_or in Hq. destruct Hq as [Hq|[Hq|Hq]].
    + specialize (F1 q Hq). lia.
    + subst q. simpl in Eq. lia.
    + specialize (F2 q Hq). lia.
  - destruct (SweepRule.closes_inside g a b) eqn:E; [|reflexivity].
    exfalso. unfold SweepRule.closes_inside in E.
    apply existsb_exists in E. destruct E as (q & Hq & Hc).
    apply andb_true_iff in Hc. destruct Hc as [H1 H2].
    apply Z.ltb_lt in H1, H2. rewrite Hg in Hq.
    apply in_app_or in Hq. destruct Hq as [Hq|[Hq|Hq]].
    + specialize (F1 q Hq). lia.
    + subst q. simpl in *. lia.
    + specialize (F2 q Hq). lia.
  - rewrite Hg. apply stop_of_app. apply Forall_forall.
    intros q Hq. specialize (F1 q Hq). lia.
Qed.

Lemma sweep_twin (g : gti) :
  strictly_behaved g ->
  forall (s p : gti) (prev : option Z),
    g = p ++ s ->
    (forall x, prev = Some x -> Forall (fun q => x < fst q) s) ->
    SweepRule.sweep SweepRule.full_reject g g (twin_events s) prev = s.
Proof.
  intros Hs. induction s as [|[a b] s IH]; intros p prev Hg Hprev;
    [reflexivity|].
  destruct (@self_event g p s a b) as (El & Ec & Eo).
  { exact Hg. }
  { exact Hs. }
  pose proof Hs as Hsplit. rewrite Hg in Hsplit.
  apply strictly_split in Hsplit. destruct Hsplit as (Hab & _ & F2).
  cbn [twin_events flat_map app fst snd SweepRule.sweep].
  assert (E1 : SweepRule.emitted SweepRule.full_reject g g false prev b
               = Some (a, b)).
  { unfold SweepRule.emitted. rewrite El, Z.max_id.
    unfold SweepRule.full_reject, SweepRule.ended_before.
    rewrite Ec, Eo.
    assert (Ea : SweepRule.at_or_before prev a = false).
    { destruct prev as [x|]; [|reflexivity]. simpl.
      specialize (Hprev x eq_refl). inversion Hprev; subst.
      simpl in *. apply Z.leb_gt. lia. }
    assert (Eb : (b <? a) = false) by (apply Z.ltb_ge; lia).
    rewrite Ea, Eb. reflexivity. }
  assert (E2 : SweepRule.emitted SweepRule.full_reject g g true (Some b) b
               = None).
  { unfold SweepRule.emitted. rewrite El, Z.max_id.
    unfold SweepRule.full_reject. simpl.
    assert (Ea : (a <=? b) = true) by (apply Z.leb_le; lia).
    rewrite Ea. reflexivity. }
  rewrite E1, E2. f_equal.
  apply (IH (p ++ [(a, b)]) (Some b)).
  - rewrite <- app_assoc. exact Hg.
  - intros x Ex. injection Ex as <-.
    eapply Forall_impl; [|exact F2]. simpl. intros; lia.
Qed.

Lemma twin_events_perm (g : gti) :
  Permutation (map event_of (tagged_rows g g)) (twin_events g).
Proof.
  unfold tagged_rows, tagged, twin_events.
  rewrite map_app, !map_map.
  induction g as [|q g IH]; simpl; [constructor|].
  apply perm_skip. eapply perm_trans; [|apply perm_skip, IH].
  apply Permutation_sym, Permutation_middle.
Qed.

Lemma twin_events_sorted (g : gti) :
  well_behaved g -> StronglySorted stop_le (twin_events g).
Proof.
  induction g as [|[a b] g IH]; intros H; [constructor|].
  pose proof (well_behaved_after H) as Ha.
  apply well_behaved_tail in H as Ht.
  assert (Hall : Forall (fun y => stop_le (false, b) y) (twin_events g)).
  { clear IH. pose proof (@well_behaved_Forall g Ht) as Hp.
    unfold twin_events. apply Forall_forall. intros y Hy.
    apply in_flat_map in Hy. destruct Hy as (q & Hq & Hy).
    rewrite Forall_forall in Ha, Hp.
    specialize (Ha q Hq). specialize (Hp q Hq). unfold stop_le.
    destruct Hy as [<-|[<-|[]]]; simpl; lia. }
  cbn [twin_events flat_map app fst snd].
  constructor; [constructor; [apply IH, Ht|exact Hall]|].
  constructor; [unfold stop_le; simpl; lia|exact Hall].
Qed.

(** X4: a list whose intervals are not empty and lie strictly apart is
    its own intersection: [cross_two_gtis] of the list with itself, and
    [cross_gtis] of two copies of it, return the list. *)
Theorem cross_two_gtis_idempotent {ties : TieOrder} (g : gti) :
  g <> [] -> strictly_behaved g ->
  cross_two_gtis g g = Ok g /\ cross_gtis [g; g] = Ok (Table g).
Proof.
  intros Hne Hs.
  assert (E : cross_two_gtis g g = Ok g).
  { pose proof (@strictly_well_behaved g Hs) as Hwb.
    pose proof (@strictly_positive g Hs) as Hp.
    rewrite cross_two_gtis_sweep; auto.
    - f_equal. unfold SweepRule.full_cross.
      rewrite (@sweep_sorted_perm g g (stop_events g g) (twin_events g)).
      + apply (@sweep_twin g Hs g [] None); [reflexivity|discriminate].
      + eapply perm_trans; [apply stop_events_perm|apply twin_events_perm].
      + apply stop_events_sorted.
      + apply twin_events_sorted, Hwb.
    - destruct g; [congruence|discriminate]. }
  split; [exact E|].
  unfold cross_gtis. cbn [cross_rest two_dimensional bind]. rewrite E.
  cbn [bind]. destruct g; [congruence|reflexivity].
Qed.

Lemma cross_two_gtis_idempotent_witness :
  [(0, 5); (6, 8)] <> [] /\ strictly_behaved [(0, 5); (6, 8)] /\
  cross_two_gtis (ties := first_come) [(0, 5); (6, 8)] [(0, 5); (6, 8)]
  = Ok [(0, 5); (6, 8)].
Proof.
  assert (Hne : [(0, 5); (6, 8)] <> []) by discriminate.
  assert (Hs : strictly_behaved [(0, 5); (6, 8)]) by (simpl; lia).
  split; [exact Hne|]. split; [exact Hs|].
  exact (proj1 (@cross_two_gtis_idempotent first_come [(0, 5); (6, 8)]
                  Hne Hs)).
Defined.

(** X5: validated lists such that every interval of the first stops
    before every interval of the second starts have no common interval,
    whichever comes first; in particular [cross_two_gtis] of a non-empty
    validated list and an empty one is empty.  With two empty lists it
    raises IndexError. *)
Theorem cross_two_gtis_nothing_common {ties : TieOrder} :
  (forall gti0 gti1 : gti,
      check_gtis gti0 = Ok tt -> check_gtis gti1 = Ok tt ->
      gti0 ++ gti1 <> [] ->
      (forall p q, In p gti0 -> In q gti1 -> snd p < fst q) ->
      cross_two_gtis gti0 gti1 = Ok [] /\
      cross_two_gtis gti1 gti0 = Ok []) /\
  (forall g : gti,
      check_gtis g = Ok tt -> g <> [] ->
      cross_two_gtis g [] = Ok [] /\ cross_two_gtis [] g = Ok []) /\
  cross_two_gtis [] [] = Raise IndexError.
Proof.
  split; [|split; [|apply cross_two_gtis_empty]].
  - intros gti0 gti1 C0 C1 Hne Hapart.
    apply cross_two_gtis_apart; try assumption;
      apply check_gtis_Ok; assumption.
  - intros g C Hne. apply check_gtis_Ok in C.
    apply cross_two_gtis_apart; try assumption.
    + exact I.
    + rewrite app_nil_r. exact Hne.
    + intros p q _ [].
Qed.

Lemma cross_two_gtis_nothing_common_witness :
  check_gtis [(0, 2); (3, 4)] = Ok tt /\ check_gtis [(5, 7)] = Ok tt /\
  cross_two_gtis (ties := first_come) [(0, 2); (3, 4)] [(5, 7)] = Ok [] /\
  cross_two_gtis (ties := first_come) [(5, 7)] [(0, 2); (3, 4)] = Ok [].
Proof.
  split; [reflexivity|]. split; [reflexivity|].
  apply (proj1 (@cross_two_gtis_nothing_common first_come)).
  - reflexivity.
  - reflexivity.
  - discriminate.
  - intros p q Hp Hq. simpl in Hp, Hq.
    destruct Hp as [<-|[<-|[]]]; destruct Hq as [<-|[]]; simpl; lia.
Defined.

(** ** join_gtis and gti_len *)

(** X6: what [join_gtis] does on validated lists.  When [check_separate]
    answers False it raises TypeError; when [check_separate] answers True
    it returns the two lists one after the other; and when the lists are
    given in the order of time (the first list stops at or before the
    start of the second) the list returned passes [check_gtis]. *)
Theorem join_gtis_outcome {ties : TieOrder} (gti0 gti1 : gti) :
  check_gtis gti0 = Ok tt -> check_gtis gti1 = Ok tt ->
  (check_separate gti0 gti1 = Ok false ->
   join_gtis gti0 gti1 = Raise TypeError) /\
  (check_separate gti0 gti1 = Ok true ->
   join_gtis gti0 gti1 = Ok (gti0 ++ gti1)) /\
  ((gti0 <> [] -> gti1 <> [] -> last (col1 gti0) 0 <= hd 0 (col0 gti1)) ->
   exists r, join_gtis gti0 gti1 = Ok r /\ check_gtis r = Ok tt).
Proof.
  intros C0 C1. apply check_gtis_Ok in C0, C1. split; [|split].
  - apply join_gtis_not_separate; assumption.
  - apply join_gtis_separate; assumption.
  - apply join_gtis_in_order_well_behaved; assumption.
Qed.

Lemma join_gtis_outcome_witness :
  check_gtis [(0, 3); (4, 7)] = Ok tt /\
  check_gtis [(2, 5); (9, 12)] = Ok tt /\
  check_separate [(0, 3); (4, 7)] [(2, 5); (9, 12)] = Ok false /\
  join_gtis (ties := first_come) [(0, 3); (4, 7)] [(2, 5); (9, 12)]
  = Raise TypeError /\
  check_gtis [(8, 9)] = Ok tt /\
  check_separate [(0, 3); (4, 7)] [(8, 9)] = Ok true /\
  join_gtis (ties := first_come) [(0, 3); (4, 7)] [(8, 9)]
  = Ok [(0, 3); (4, 7); (8, 9)].
Proof.
  split; [reflexivity|]. split; [reflexivity|]. split; [reflexivity|].
  split.
  - apply (@join_gtis_outcome first_come [(0, 3); (4, 7)]
             [(2, 5); (9, 12)]); reflexivity.
  - split; [reflexivity|]. split; [reflexivity|].
    apply (@join_gtis_outcome first_come [(0, 3); (4, 7)] [(8, 9)]);
      reflexivity.
Defined.

Lemma wrap64_small (z : Z) : - 2 ^ 63 <= z < 2 ^ 63 -> wrap64 z = z.
Proof. intros H. unfold wrap64. rewrite Z.mod_small; lia. Qed.

Lemma wrap64_range (z : Z) : - 2 ^ 63 <= wrap64 z < 2 ^ 63.
Proof.
  unfold wrap64.
  pose proof (Z.mod_pos_bound (z + 2 ^ 63) (2 ^ 64) ltac:(lia)). lia.
Qed.

Lemma wrap64_turns (z k : Z) : wrap64 (z + k * 2 ^ 64) = wrap64 z.
Proof.
  unfold wrap64.
  replace (z + k * 2 ^ 64 + 2 ^ 63) with (z + 2 ^ 63 + k * 2 ^ 64) by lia.
  rewrite Z.mod_add by lia. reflexivity.
Qed.

Lemma wrap64_of (z : Z) : exists k, wrap64 z = z + k * 2 ^ 64.
Proof.
  exists (- ((z + 2 ^ 63) / 2 ^ 64)). unfold wrap64.
  rewrite Z.mod_eq by lia. lia.
Qed.

Lemma wrap64_add (a b : Z) :
  wrap64 (wrap64 a + wrap64 b) = wrap64 (a + b).
Proof.
  destruct (wrap64_of a) as [k ->]. destruct (wrap64_of b) as [k' ->].
  replace (a + k * 2 ^ 64 + (b + k' * 2 ^ 64))
    with (a + b + (k + k') * 2 ^ 64) by lia.
  apply wrap64_turns.
Qed.

Lemma wrap64_idem (z : Z) : wrap64 (wrap64 z) = wrap64 z.
Proof. apply wrap64_small, wrap64_range. Qed.

Lemma exact_len_cons (p : Z * Z) (g : gti) :
  exact_len (p :: g) = snd p - fst p + exact_len g.
Proof. reflexivity. Qed.

Lemma gti_len_loop (g : gti) (acc : Z) :
  wrap64 acc = acc ->
  fold_left (fun a d => wrap64 (a + d))
    (map (fun p => wrap64 (snd p - fst p)) g) acc
  = wrap64 (acc + exact_len g).
Proof.
  revert acc. induction g as [|p g IH]; intros acc Hacc.
  - unfold exact_len. simpl. rewrite Z.add_0_r. symmetry. exact Hacc.
  - cbn [map fold_left]. rewrite IH by apply wrap64_idem.
    rewrite exact_len_cons.
    destruct (wrap64_of (snd p - fst p)) as [k ->].
    destruct (wrap64_of (acc + (snd p - fst p + k * 2 ^ 64))) as [k' ->].
    replace (acc + (snd p - fst p + k * 2 ^ 64) + k' * 2 ^ 64
             + exact_len g)
      with (acc + (snd p - fst p + exact_len g) + (k + k') * 2 ^ 64)
      by lia.
    apply wrap64_turns.
Qed.

(** [gti_len] is the total length brought back into the 64 bits. *)
Lemma gti_len_wrap (g : gti) : gti_len g = wrap64 (exact_len g).
Proof.
  unfold gti_len. rewrite gti_len_loop; [reflexivity|reflexivity].
Qed.

Lemma exact_len_app (g1 g2 : gti) :
  exact_len (g1 ++ g2) = exact_len g1 + exact_len g2.
Proof.
  induction g1 as [|p g1 IH]; [reflexivity|].
  simpl app. rewrite !exact_len_cons, IH. lia.
Qed.

Lemma exact_len_nonneg (g : gti) :
  Forall (fun p => fst p <= snd p) g -> 0 <= exact_len g.
Proof.
  induction 1 as [|p g Hp _ IH]; [reflexivity|].
  rewrite exact_len_cons. lia.
Qed.

Lemma last_cons_cons (A : Type) (x y : A) (l : list A) (d d' : A) :
  last (x :: y :: l) d = last (y :: l) d'.
Proof.
  revert x y. induction l as [|z l IH]; intros x y; [reflexivity|].
  change (last (x :: y :: z :: l) d) with (last (y :: z :: l) d).
  change (last (y :: z :: l) d') with (last (z :: l) d').
  rewrite <- (IH y z). reflexivity.
Qed.

Lemma exact_len_between (first : Z * Z) (rest : gti) :
  exact_len (first :: rest) + exact_len (between (first :: rest))
  = snd (last (first :: rest) first) - fst first.
Proof.
  revert first. induction rest as [|[c d] rest IH]; intros [a b].
  - unfold exact_len. simpl. lia.
  - rewrite (last_cons_cons (a, b) (c, d) rest (a, b) (c, d)).
    change (between ((a, b) :: (c, d) :: rest))
      with ((b, c) :: between ((c, d) :: rest)).
    rewrite !(exact_len_cons (a, b)), (exact_len_cons (b, c)).
    specialize (IH (c, d)). simpl fst in *. simpl snd in *. lia.
Qed.

Lemma between_nonneg (g : gti) :
  well_behaved g -> Forall (fun p => fst p <= snd p) (between g).
Proof.
  induction g as [|[a b] g IH]; intros H; [constructor|].
  destruct g as [|[c d] g']; [constructor|].
  change (between ((a, b) :: (c, d) :: g'))
    with ((b, c) :: between ((c, d) :: g')).
  constructor.
  - simpl in *. tauto.
  - apply IH. eapply well_behaved_tail, H.
Qed.

(** The sum of [gti_len] wraps around: the one interval from -2^62 to
    2^62 has the length -2^63. *)
Lemma gti_len_wraps : gti_len [(- 2 ^ 62, 2 ^ 62)] = - 2 ^ 63.
Proof. reflexivity. Qed.

(** X7: good and bad time part the span of a validated list.  Without
    bounds [get_btis] returns the rows of intervals [btis], and
    [gti_len gtis + gti_len btis] is the last stop minus the first start
    up to the wrap-around of the 64 bits; when that span is below 2^63 the
    two are equal and neither length is negative. *)
Theorem gti_len_partition (first : Z * Z) (rest : gti) :
  check_gtis (first :: rest) = Ok tt ->
  exists btis,
    get_btis (first :: rest) None None = Ok (rows_of btis) /\
    wrap64 (gti_len (first :: rest) + gti_len btis)
    = wrap64 (snd (last (first :: rest) first) - fst first) /\
    (snd (last (first :: rest) first) - fst first < 2 ^ 63 ->
     gti_len (first :: rest) + gti_len btis
     = snd (last (first :: rest) first) - fst first /\
     0 <= gti_len (first :: rest) /\ 0 <= gti_len btis).
Proof.
  intros C. apply check_gtis_Ok in C.
  exists (between (first :: rest)).
  split; [apply get_btis_unbounded, C|].
  pose proof (exact_len_between first rest) as Hsum.
  pose proof (exact_len_nonneg (@well_behaved_Forall _ C)) as H0.
  pose proof (exact_len_nonneg (@between_nonneg _ C)) as H1.
  rewrite !gti_len_wrap. split.
  - rewrite wrap64_add. f_equal. exact Hsum.
  - intros Hspan. rewrite !wrap64_small by lia. lia.
Qed.

Lemma gti_len_partition_witness :
  check_gtis [(2, 5); (6, 9); (12, 13)] = Ok tt /\
  13 - 2 < 2 ^ 63 /\
  exists btis,
    get_btis [(2, 5); (6, 9); (12, 13)] None None = Ok (rows_of btis) /\
    gti_len [(2, 5); (6, 9); (12, 13)] + gti_len btis = 13 - 2.
Proof.
  split; [reflexivity|]. split; [lia|].
  destruct (@gti_len_partition (2, 5) [(6, 9); (12, 13)] eq_refl)
    as (btis & E & _ & Hsum).
  exists btis. split; [exact E|].
  apply Hsum. simpl. lia.
Defined.

(** ** The length of a union of separate lists *)

(** X8: on validated lists for which [check_separate] answers True,
    [join_gtis] returns the two lists one after the other, and the
    [gti_len] of what it returns is the sum of the [gti_len] of the two
    lists, up to the wrap-around of the 64 bits and exactly when that sum
    is within them; joined with an empty list, a validated list is
    returned as it is. *)
Theorem join_gtis_length {ties : TieOrder} :
  (forall gti0 gti1 : gti,
      check_gtis gti0 = Ok tt -> check_gtis gti1 = Ok tt ->
      check_separate gti0 gti1 = Ok true ->
      join_gtis gti0 gti1 = Ok (gti0 ++ gti1) /\
      gti_len (gti0 ++ gti1) = wrap64 (gti_len gti0 + gti_len gti1) /\
      (- 2 ^ 63 <= gti_len gti0 + gti_len gti1 < 2 ^ 63 ->
       gti_len (gti0 ++ gti1) = gti_len gti0 + gti_len gti1)) /\
  (forall g : gti,
      check_gtis g = Ok tt ->
      join_gtis g [] = Ok g /\ join_gtis [] g = Ok g).
Proof.
  split.
  - intros gti0 gti1 C0 C1 Hsep. apply check_gtis_Ok in C0, C1.
    split; [apply join_gtis_separate; assumption|].
    assert (E : gti_len (gti0 ++ gti1)
                = wrap64 (gti_len gti0 + gti_len gti1)).
    { rewrite !gti_len_wrap, exact_len_app, wrap64_add. reflexivity. }
    split; [exact E|].
    intros Hb. rewrite E. apply wrap64_small, Hb.
  - intros g C. apply check_gtis_Ok in C. split.
    + rewrite join_gtis_separate; try assumption.
      * rewrite app_nil_r. reflexivity.
      * exact I.
      * unfold check_separate. destruct g; reflexivity.
    + apply (@join_gtis_separate ties [] g); [exact I|exact C|reflexivity].
Qed.

Lemma join_gtis_length_witness :
  check_gtis [(0, 5); (7, 9)] = Ok tt /\ check_gtis [(10, 12)] = Ok tt /\
  check_separate [(0, 5); (7, 9)] [(10, 12)] = Ok true /\
  join_gtis (ties := first_come) [(0, 5); (7, 9)] [(10, 12)]
  = Ok [(0, 5); (7, 9); (10, 12)] /\
  gti_len [(0, 5); (7, 9); (10, 12)] = 7 + 2.
Proof.
  split; [reflexivity|]. split; [reflexivity|]. split; [reflexivity|].
  destruct (proj1 (@join_gtis_length first_come) [(0, 5); (7, 9)]
              [(10, 12)] eq_refl eq_refl eq_refl) as (E & _ & Hlen).
  split; [exact E|].
  apply Hlen. vm_compute. split; [discriminate|reflexivity].
Defined.

(** ** The windows of time_intervals_from_gtis *)

Lemma sorted_map_seq (R : Z -> Z -> Prop) (f : nat -> Z) (n : nat) :
  forall s,
    (forall i j, (s <= i)%nat -> (i < j)%nat -> (j < s + n)%nat ->
                 R (f i) (f j)) ->
    StronglySorted R (map f (seq s n)).
Proof.
  induction n as [|n IH]; intros s H; simpl; constructor.
  - apply IH. intros i j Hi Hij Hj. apply H; lia.
  - apply Forall_forall. intros y Hy. apply in_map_iff in Hy.
    destruct Hy as (j & <- & Hj). apply in_seq in Hj. apply H; lia.
Qed.

Lemma arange_windows (g0 g1 chunk_length : Z) (l : list Z) :
  0 < chunk_length ->
  arange g0 (g1 - chunk_length) chunk_length = Ok l ->
  Forall (window_in chunk_length (g0, g1)) l /\
  StronglySorted (chunk_apart chunk_length) l.
Proof.
  intros Hc H. unfold arange in H.
  destruct (chunk_length =? 0) eqn:E0;
    [apply Z.eqb_eq in E0; lia|].
  injection H as <-. split.
  - apply Forall_forall. intros t Ht. apply in_map_iff in Ht.
    destruct Ht as (k & <- & Hk). apply in_seq in Hk.
    unfold window_in. simpl. split; [nia|].
    pose proof (Z.mul_succ_div_gt (g0 - (g1 - chunk_length)) chunk_length Hc)
      as Hdiv.
    set (q := (g0 - (g1 - chunk_length)) / chunk_length) in *.
    assert (Hq : Z.succ q <= - Z.of_nat k) by lia.
    assert (Hm : chunk_length * Z.succ q <= chunk_length * - Z.of_nat k)
      by (apply Z.mul_le_mono_nonneg_l; lia).
    nia.
  - apply sorted_map_seq. intros i j _ Hij _. unfold chunk_apart. nia.
Qed.

Lemma sorted_app (R : Z -> Z -> Prop) (l1 l2 : list Z) :
  StronglySorted R l1 -> StronglySorted R l2 ->
  (forall x y, In x l1 -> In y l2 -> R x y) ->
  StronglySorted R (l1 ++ l2).
Proof.
  induction 1 as [|x l1 S1 IH Hx]; intros S2 H; [exact S2|].
  simpl. constructor.
  - apply IH; [exact S2|]. intros a b Ha Hb. apply H; [right|]; assumption.
  - apply Forall_app. split; [exact Hx|].
    apply Forall_forall. intros y Hy. apply H; [left; reflexivity|exact Hy].
Qed.

Lemma chunk_starts_windows (chunk_length : Z) (gtis : gti) :
  0 < chunk_length ->
  forall acc starts,
    chunk_starts gtis chunk_length acc = Ok starts ->
    exists new,
      starts = acc ++ new /\
      Forall (fun t => exists g, In g gtis /\ window_in chunk_length g t)
             new /\
      (well_behaved gtis -> StronglySorted (chunk_apart chunk_length) new).
Proof.
  intros Hc. induction gtis as [|[g0 g1] gtis IH]; intros acc starts H.
  - simpl in H. injection H as <-. exists [].
    rewrite app_nil_r. repeat split; constructor.
  - cbn [chunk_starts fst snd] in H.
    destruct (g1 - g0 <? chunk_length).
    + destruct (IH acc starts H) as (new & E & F & S).
      exists new. split; [exact E|]. split.
      * eapply Forall_impl; [|exact F]. simpl.
        intros t (g & Hg & Hw). exists g. split; [right|]; assumption.
      * intros Hwb. apply S. eapply well_behaved_tail, Hwb.
    + destruct (arange g0 (g1 - chunk_length) chunk_length) as [l|] eqn:Ea;
        [|discriminate].
      cbn [bind] in H.
      destruct (arange_windows _ _ Hc Ea) as [Fl Sl].
      destruct (IH (acc ++ l) starts H) as (new & E & F & S).
      exists (l ++ new). split; [rewrite E, app_assoc; reflexivity|].
      split.
      * apply Forall_app. split.
        -- eapply Forall_impl; [|exact Fl]. simpl. intros t Hw.
           exists (g0, g1). split; [left; reflexivity|exact Hw].
        -- eapply Forall_impl; [|exact F]. simpl.
           intros t (g & Hg & Hw). exists g. split; [right|]; assumption.
      * intros Hwb. apply sorted_app; [exact Sl| |].
        -- apply S. eapply well_behaved_tail, Hwb.
        -- intros x y Hx Hy. rewrite Forall_forall in Fl, F.
           specialize (Fl x Hx). destruct (F y Hy) as (g & Hg & Hw).
           pose proof (well_behaved_after Hwb) as Ha.
           rewrite Forall_forall in Ha. specialize (Ha g Hg).
           unfold window_in, chunk_apart in *. simpl in *. lia.
Qed.

Lemma windows_well_behaved (chunk_length : Z) (starts : list Z) :
  0 < chunk_length ->
  StronglySorted (chunk_apart chunk_length) starts ->
  well_behaved (combine starts (map (fun t => t + chunk_length) starts)).
Proof.
  intros Hc. induction 1 as [|t l S IH Ht]; [exact I|].
  simpl combine. apply well_behaved_cons; [lia| |exact IH].
  apply Forall_forall. intros [u v] Huv.
  apply in_combine_l in Huv. rewrite Forall_forall in Ht.
  specialize (Ht u Huv). unfold chunk_apart in Ht. simpl. exact Ht.
Qed.

(** X9: with a positive chunk length, every window that
    [time_intervals_from_gtis] returns starts at or after the start of one
    of the GTIs and stops, a chunk later, before that GTI stops; there is
    at least one window, and on a validated GTI list the windows in their
    order pass [check_gtis]. *)
Theorem time_intervals_inside (gtis : gti) (chunk_length : Z)
  (starts stops : list Z) :
  0 < chunk_length ->
  time_intervals_from_gtis gtis chunk_length = Ok (starts, stops) ->
  starts <> [] /\
  stops = map (fun t => t + chunk_length) starts /\
  Forall (fun t => exists g, In g gtis /\ window_in chunk_length g t)
         starts /\
  (check_gtis gtis = Ok tt -> check_gtis (combine starts stops) = Ok tt).
Proof.
  intros Hc H. unfold time_intervals_from_gtis in H.
  destruct (chunk_starts gtis chunk_length []) as [l|] eqn:E;
    [|discriminate].
  cbn [bind] in H.
  destruct (0 <? length l)%nat eqn:El; [|discriminate].
  injection H as <- <-.
  destruct (chunk_starts_windows gtis Hc _ E) as (new & En & F & S).
  simpl in En. subst new.
  split; [destruct l; [discriminate El|discriminate]|].
  split; [reflexivity|]. split; [exact F|].
  intros C. apply check_gtis_Ok in C. apply check_gtis_Ok.
  apply windows_well_behaved; [exact Hc|apply S, C].
Qed.

Lemma time_intervals_inside_witness :
  0 < 5 /\
  time_intervals_from_gtis [(0, 12); (20, 23); (30, 41)] 5
  = Ok ([0; 5; 30; 35], [5; 10; 35; 40]) /\
  check_gtis (combine [0; 5; 30; 35] [5; 10; 35; 40]) = Ok tt.
Proof.
  split; [lia|]. split; [reflexivity|].
  apply (@time_intervals_inside [(0, 12); (20, 23); (30, 41)] 5
           [0; 5; 30; 35] [5; 10; 35; 40]).
  - lia.
  - reflexivity.
  - reflexivity.
Defined.

(** ** gti_border_bins *)

Lemma argmin_from_bound (l : list Z) :
  forall best bi i, (bi < i)%nat ->
                    (argmin_from best bi i l < i + length l)%nat.
Proof.
  induction l as [|x r IH]; intros best bi i Hbi; simpl; [lia|].
  destruct (x <? best).
  - specialize (IH x i (S i)). lia.
  - specialize (IH best bi (S i)). lia.
Qed.

Lemma argmin_bound (l : list Z) (p : nat) :
  argmin l = Some p -> (p < length l)%nat.
Proof.
  destruct l as [|x r]; [discriminate|]. simpl. intros H.
  injection H as <-.
  pose proof (@argmin_from_bound r x 0%nat 1%nat). lia.
Qed.

Lemma argmin_some (l : list Z) :
  l <> [] -> exists p, argmin l = Some p.
Proof.
  destruct l as [|x r]; [congruence|]. intros _. simpl. eauto.
Qed.

Lemma at_index_ok (a : list Z) (i : nat) :
  (i < length a)%nat -> exists x, at_index a i = Ok x.
Proof.
  intros H. unfold at_index.
  destruct (nth_error a i) as [x|] eqn:E; [eauto|].
  apply nth_error_None in E. lia.
Qed.

Lemma border_bins_bounds (time : list Z) (bintime : Z) (g : Z * Z) :
  time <> [] ->
  exists bins,
    border_bins time bintime g = Ok bins /\
    slice_index time (fst bins) /\ slice_index time (snd bins).
Proof.
  intros Hne. unfold border_bins.
  destruct (@argmin_some
              (map (fun t => Z.abs (2 * t - bintime - 2 * fst g)) time))
    as [p Hp].
  { intros E. apply map_eq_nil in E. congruence. }
  destruct (@argmin_some
              (map (fun t => Z.abs (2 * t + bintime - 2 * snd g)) time))
    as [q Hq].
  { intros E. apply map_eq_nil in E. congruence. }
  rewrite Hp, Hq.
  apply argmin_bound in Hp, Hq. rewrite length_map in Hp, Hq.
  destruct (at_index_ok time Hp) as [x ->].
  destruct (at_index_ok time Hq) as [y ->].
  cbn [bind]. eexists. split; [reflexivity|].
  unfold slice_index.
  destruct (x <? fst g); destruct (2 * y <? 2 * snd g + bintime);
    cbn [fst snd]; lia.
Qed.

Lemma select_map_nil (f : Z -> bool) (l : list Z) :
  select l (map f l) = [] <-> Forall (fun t => f t = false) l.
Proof.
  induction l as [|x l IH]; simpl.
  - split; [constructor|reflexivity].
  - destruct (f x) eqn:E.
    + split; [discriminate|]. intros H. inversion H; congruence.
    + rewrite IH. split; [constructor; assumption|].
      intros H. inversion H; assumption.
Qed.

Lemma no_bin_enclosed (time : list Z) (bintime : Z) (g : Z * Z) :
  (length (select time (enclosed false time bintime g)) =? 0)%nat = true
  <-> forall t, In t time -> ~ bin_within bintime g t.
Proof.
  rewrite Nat.eqb_eq, length_zero_iff_nil. unfold enclosed.
  rewrite select_map_nil, Forall_forall.
  split; intros H t Ht; specialize (H t Ht); unfold bin_within in *.
  - intros [H1 H2]. apply andb_false_iff in H.
    rewrite Z.geb_leb, Z.leb_gt, Z.leb_gt in H. lia.
  - apply andb_false_iff. rewrite Z.geb_leb, !Z.leb_gt. lia.
Qed.

Lemma select_map_In (f : Z -> bool) (l : list Z) (t : Z) :
  In t (select l (map f l)) -> In t l /\ f t = true.
Proof.
  induction l as [|x l IH]; simpl; [intros []|].
  destruct (f x) eqn:E.
  - intros [<-|H]; [split; [left; reflexivity|exact E]|].
    destruct (IH H) as [H1 H2]. split; [right; exact H1|exact H2].
  - intros H. destruct (IH H) as [H1 H2]. split; [right; exact H1|exact H2].
Qed.

Lemma some_bin_enclosed (time : list Z) (bintime : Z) (g : Z * Z) :
  (length (select time (enclosed false time bintime g)) =? 0)%nat = false ->
  exists t, In t time /\ bin_within bintime g t.
Proof.
  intros H. apply Nat.eqb_neq in H.
  destruct (select time (enclosed false time bintime g)) as [|t r] eqn:E;
    [simpl in H; lia|].
  assert (Ht : In t (select time (enclosed false time bintime g)))
    by (rewrite E; left; reflexivity).
  unfold enclosed in Ht. apply select_map_In in Ht. destruct Ht as [Ht Hb].
  exists t. split; [exact Ht|]. apply andb_true_iff in Hb.
  rewrite !Z.geb_leb, !Z.leb_le in Hb. unfold bin_within. lia.
Qed.

Lemma border_loop_spec (time : list Z) (bintime : Z) (gtis : gti) :
  time <> [] ->
  forall starts stops,
    exists new_starts new_stops,
      border_loop time bintime gtis starts stops
      = Ok (starts ++ new_starts, stops ++ new_stops) /\
      length new_starts = length new_stops /\
      (length new_starts <= length gtis)%nat /\
      Forall (slice_index time) new_starts /\
      Forall (slice_index time) new_stops /\
      (new_starts = [] <->
       forall g t, In g gtis -> In t time -> ~ bin_within bintime g t) /\
      (new_starts <> [] ->
       exists g t, In g gtis /\ In t time /\ bin_within bintime g t).
Proof.
  intros Hne. induction gtis as [|g gtis IH]; intros starts stops.
  - exists [], []. rewrite !app_nil_r. simpl.
    split; [reflexivity|]. split; [reflexivity|]. split; [lia|].
    split; [constructor|]. split; [constructor|]. split.
    + split; [intros _ g t []|reflexivity].
    + intros H. congruence.
  - cbn [border_loop].
    destruct (length (select time (enclosed false time bintime g)) =? 0)%nat
      eqn:E.
    + pose proof (proj1 (@no_bin_enclosed time bintime g) E) as E'.
      clear E. rename E' into E.
      destruct (IH starts stops)
        as (n1 & n2 & El & L & Lg & F1 & F2 & Hn & Hs).
      exists n1, n2. split; [exact El|]. split; [exact L|].
      split; [simpl; lia|]. split; [exact F1|]. split; [exact F2|].
      split.
      * rewrite Hn. split.
        -- intros H g' t [<-|Hg] Ht; [apply E, Ht|apply H; assumption].
        -- intros H g' t Hg Ht. apply H; [right|]; assumption.
      * intros Hn1. destruct (Hs Hn1) as (g' & t & Hg & Ht & Hb).
        exists g', t. split; [right; exact Hg|]. split; assumption.
    + destruct (@border_bins_bounds time bintime g Hne)
        as ([a b] & -> & Ba & Bb).
      cbn [bind fst snd].
      destruct (IH (starts ++ [a]) (stops ++ [b]))
        as (n1 & n2 & El & L & Lg & F1 & F2 & _).
      exists (a :: n1), (b :: n2).
      split; [rewrite El, <- !app_assoc; reflexivity|].
      split; [simpl; lia|]. split; [simpl; lia|].
      split; [constructor; assumption|].
      split; [constructor; assumption|].
      split; [split; [discriminate|]|].
      * intros H. exfalso.
        assert (Hnone : (length (select time (enclosed false time bintime g))
                         =? 0)%nat = true).
        { apply (proj2 (@no_bin_enclosed time bintime g)). intros t Ht.
          apply H; [left; reflexivity|exact Ht]. }
        congruence.
      * intros _. destruct (@some_bin_enclosed time bintime g E)
          as (t & Ht & Hb).
        exists g, t. split; [left; reflexivity|]. split; assumption.
Qed.

(** X11: [gti_border_bins] raises IndexError exactly when the time axis
    has fewer than two samples; otherwise it raises the assertion exactly
    when no GTI holds a whole bin (the bin time being the distance of the
    first two samples), and what it returns are two arrays of one length,
    with at most one entry for each GTI and at least one, all of them
    indices from 0 to the length of the time axis. *)
Theorem gti_border_bins_outcome (gtis : gti) (time : list Z) :
  match gti_border_bins gtis time with
  | Ok (starts, stops) =>
      (exists t0 t1 rest g t,
          time = t0 :: t1 :: rest /\
          In g gtis /\ In t time /\ bin_within (t1 - t0) g t) /\
      length starts = length stops /\
      (0 < length starts <= length gtis)%nat /\
      Forall (slice_index time) starts /\
      Forall (slice_index time) stops
  | Raise e =>
      (e = IndexError /\ (length time < 2)%nat) \/
      (e = NoChunks /\
       exists t0 t1 rest,
         time = t0 :: t1 :: rest /\
         forall g t, In g gtis -> In t time -> ~ bin_within (t1 - t0) g t)
  end.
Proof.
  unfold gti_border_bins.
  destruct (bin_time_cases time) as [(t0 & t1 & rest & Et & ->)|[Hl ->]].
  - cbn [bind].
    destruct (@border_loop_spec time (t1 - t0) gtis) with (starts := @nil Z)
      (stops := @nil Z) as (n1 & n2 & -> & L & Lg & F1 & F2 & Hn & Hs).
    { rewrite Et. discriminate. }
    cbn [bind fst snd app].
    destruct n1 as [|a n1].
    + simpl. right. split; [reflexivity|].
      exists t0, t1, rest. split; [exact Et|]. apply Hn. reflexivity.
    + simpl Nat.ltb. cbv iota.
      destruct Hs as (g & t & Hg & Ht & Hb); [discriminate|].
      split; [exists t0, t1, rest, g, t; auto|].
      split; [exact L|]. split; [simpl in *; lia|].
      split; assumption.
  - simpl. left. split; [reflexivity|exact Hl].
Qed.

(** ** bin_intervals_from_gtis *)

Lemma bin_loop_spec (time : list Z) (bintime chunk_length nbin : Z)
  (gtis : gti) :
  time <> [] ->
  forall spectrum_start_bins r,
    bin_loop time bintime chunk_length nbin gtis spectrum_start_bins = Ok r ->
    exists new,
      r = spectrum_start_bins ++ new /\
      (nbin <> 0 \/ new = []) /\
      (0 < nbin -> Forall (chunk_of_bins time nbin) new).
Proof.
  intros Hne. induction gtis as [|g gtis IH]; intros starts r H;
    cbn [bin_loop] in H.
  - injection H as <-. exists []. rewrite app_nil_r.
    split; [reflexivity|]. split; [right; reflexivity|]. intros _.
    constructor.
  - destruct (snd g - fst g <? chunk_length); [apply IH, H|].
    destruct (length (select time (enclosed true time bintime g)) =? 0)%nat;
      [apply IH, H|].
    destruct (@border_bins_bounds time bintime g Hne)
      as ([a b] & Eb & Ba & Bb).
    rewrite Eb in H. cbn [bind fst snd] in H.
    destruct (arange a (b - nbin + 1) nbin) as [nb|e] eqn:Ea;
      [|discriminate].
    cbn [bind] in H. apply IH in H. destruct H as (new & -> & Hz & F).
    exists (nb ++ new). split; [rewrite app_assoc; reflexivity|]. split.
    + left. intros ->. unfold arange in Ea. simpl in Ea. discriminate.
    + intros Hpos. apply Forall_app. split; [|apply F, Hpos].
      replace (b - nbin + 1) with ((b + 1) - nbin) in Ea by lia.
      destruct (@arange_windows a (b + 1) nbin nb Hpos Ea) as [W _].
      eapply Forall_impl; [|exact W].
      intros x [Hx1 Hx2]. unfold chunk_of_bins, slice_index in *.
      cbn [fst snd] in *. lia.
Qed.

(** X12: on a time axis of at least two samples, what
    [bin_intervals_from_gtis] returns is never empty, the stop bins are the
    start bins moved by the number of bins of a chunk (the quotient of the
    chunk length by the distance of the first two samples, truncated), that
    number is not zero, and when it is positive every chunk starts at a bin
    index that is not negative and stops at one that is at most the length
    of the time axis. *)
Theorem bin_intervals_chunks (gtis : gti) (chunk_length : Z)
  (time : list Z) (t0 t1 : Z) (rest starts stops : list Z) :
  time = t0 :: t1 :: rest ->
  bin_intervals_from_gtis gtis chunk_length time = Some (Ok (starts, stops)) ->
  Z.quot chunk_length (t1 - t0) <> 0 /\
  starts <> [] /\
  stops = map (fun b => b + Z.quot chunk_length (t1 - t0)) starts /\
  (0 < Z.quot chunk_length (t1 - t0) ->
   Forall (chunk_of_bins time (Z.quot chunk_length (t1 - t0))) starts).
Proof.
  intros Et H. unfold bin_intervals_from_gtis in H.
  assert (Hne : time <> []) by (rewrite Et; discriminate).
  assert (Eb : bin_time time = Ok (t1 - t0)) by (rewrite Et; reflexivity).
  rewrite Eb in H. unfold whole_bins in H.
  destruct (t1 - t0 =? 0); [discriminate|].
  set (nbin := Z.quot chunk_length (t1 - t0)) in *.
  injection H as H.
  destruct (bin_loop time (t1 - t0) chunk_length nbin gtis []) as [l|e] eqn:El;
    [|discriminate].
  cbn [bind] in H.
  destruct (0 <? length l)%nat eqn:E0; [|discriminate].
  injection H as <- <-.
  destruct (@bin_loop_spec time (t1 - t0) chunk_length nbin gtis Hne [] l El)
    as (new & En & Hz & F).
  simpl in En. subst new.
  assert (Hl : l <> []) by (destruct l; [discriminate E0|discriminate]).
  split; [destruct Hz as [Hz|Hz]; [exact Hz|contradiction]|].
  split; [exact Hl|]. split; [reflexivity|exact F].
Qed.

Lemma bin_intervals_chunks_witness :
  bin_intervals_from_gtis [(0, 20); (24, 50)] 4
    [1; 3; 5; 7; 9; 11; 13; 15; 17; 19; 21; 23; 25]
  = Some (Ok ([0; 2; 4; 6; 8], [2; 4; 6; 8; 10])) /\
  Forall (chunk_of_bins [1; 3; 5; 7; 9; 11; 13; 15; 17; 19; 21; 23; 25] 2)
         [0; 2; 4; 6; 8].
Proof.
  split; [reflexivity|].
  apply (@bin_intervals_chunks [(0, 20); (24, 50)] 4
           [1; 3; 5; 7; 9; 11; 13; 15; 17; 19; 21; 23; 25] 1 3
           [5; 7; 9; 11; 13; 15; 17; 19; 21; 23; 25]
           [0; 2; 4; 6; 8] [2; 4; 6; 8; 10]).
  - reflexivity.
  - reflexivity.
  - reflexivity.
Defined.

(** ** check_separate and append_gtis *)

Lemma well_behaved_span (g : gti) (p : Z * Z) :
  well_behaved g -> In p g ->
  hd 0 (col0 g) <= fst p /\ snd p <= last (col1 g) 0.
Proof.
  intros H Hp. split.
  - destruct g as [|[a b] r]; [destruct Hp|]. simpl.
    destruct Hp as [<-|Hp]; [simpl; lia|].
    pose proof (@well_behaved_after a b r H) as Ha.
    rewrite Forall_forall in Ha. specialize (Ha p Hp).
    simpl in H. lia.
  - revert p Hp. induction g as [|[a b] r IH]; intros p Hp; [destruct Hp|].
    destruct r as [|[c d] r'].
    + destruct Hp as [<-|[]]. simpl. lia.
    + assert (Hr : well_behaved ((c, d) :: r')) by (simpl in *; tauto).
      change (last (col1 ((a, b) :: (c, d) :: r')) 0)
        with (last (col1 ((c, d) :: r')) 0).
      destruct Hp as [<-|Hp]; [|apply IH; assumption].
      specialize (IH Hr (c, d) (or_introl eq_refl)).
      simpl in H. cbn [snd] in *. lia.
Qed.

Lemma span_ends (g : gti) :
  g <> [] ->
  (exists p, In p g /\ fst p = hd 0 (col0 g)) /\
  (exists q, In q g /\ snd q = last (col1 g) 0).
Proof.
  intros Hne. split.
  - destruct g as [|p r]; [congruence|]. exists p.
    split; [left; reflexivity|reflexivity].
  - destruct (@exists_last _ g Hne) as (g' & q & ->). exists q.
    split; [apply in_or_app; right; left; reflexivity|].
    unfold col1. rewrite map_app. simpl. rewrite last_last. reflexivity.
Qed.

Lemma check_separate_nonempty (gti0 gti1 : gti) :
  check_gtis gti0 = Ok tt -> check_gtis gti1 = Ok tt ->
  gti0 <> [] -> gti1 <> [] ->
  check_separate gti0 gti1
  = Ok ((last (col1 gti0) 0 <=? hd 0 (col0 gti1))
        || (last (col1 gti1) 0 <=? hd 0 (col0 gti0))).
Proof.
  intros C0 C1 N0 N1. unfold check_separate.
  destruct gti0 as [|p0 r0]; [congruence|].
  destruct gti1 as [|p1 r1]; [congruence|].
  cbn [length Nat.eqb orb]. rewrite C0, C1. cbn [bind].
  destruct ((last (col1 (p0 :: r0)) 0 <=? hd 0 (col0 (p1 :: r1)))
            || (last (col1 (p1 :: r1)) 0 <=? hd 0 (col0 (p0 :: r0))));
    reflexivity.
Qed.

Lemma ends_in_order (gti0 gti1 : gti) :
  well_behaved gti0 -> well_behaved gti1 -> gti0 <> [] -> gti1 <> [] ->
  last (col1 gti0) 0 <= hd 0 (col0 gti1) <-> all_before gti0 gti1.
Proof.
  intros H0 H1 N0 N1. split.
  - intros Hle p q Hp Hq.
    pose proof (@well_behaved_span gti0 p H0 Hp) as [_ Hp'].
    pose proof (@well_behaved_span gti1 q H1 Hq) as [Hq' _]. lia.
  - intros Hall.
    destruct (@span_ends gti0 N0) as [_ (p & Hp & <-)].
    destruct (@span_ends gti1 N1) as [(q & Hq & <-) _].
    apply Hall; assumption.
Qed.

Lemma sorted_app_inv (R : Z * Z -> Z * Z -> Prop) (l1 l2 : gti) :
  StronglySorted R (l1 ++ l2) ->
  forall x y, In x l1 -> In y l2 -> R x y.
Proof.
  induction l1 as [|a l1 IH]; intros S x y Hx Hy; [destruct Hx|].
  simpl in S. inversion S as [|? ? S' Ha]; subst.
  destruct Hx as [<-|Hx].
  - rewrite Forall_forall in Ha. apply Ha, in_or_app. right. exact Hy.
  - apply IH; assumption.
Qed.

(** X13: for validated lists that are not empty, [check_separate] answers
    True exactly when all the intervals of one list stop at or before the
    start of all the intervals of the other; lists whose intervals
    alternate without overlapping are thus not separate.  The answer does
    not depend on the order of the two lists. *)
Theorem check_separate_meaning (gti0 gti1 : gti) :
  check_gtis gti0 = Ok tt -> check_gtis gti1 = Ok tt ->
  gti0 <> [] -> gti1 <> [] ->
  (check_separate gti0 gti1 = Ok true <->
   all_before gti0 gti1 \/ all_before gti1 gti0) /\
  (check_separate gti0 gti1 = Ok false <->
   ~ (all_before gti0 gti1 \/ all_before gti1 gti0)) /\
  check_separate gti1 gti0 = check_separate gti0 gti1.
Proof.
  intros C0 C1 N0 N1.
  rewrite (@check_separate_nonempty gti0 gti1 C0 C1 N0 N1).
  rewrite (@check_separate_nonempty gti1 gti0 C1 C0 N1 N0).
  pose proof (proj1 (@check_gtis_Ok gti0) C0) as H0.
  pose proof (proj1 (@check_gtis_Ok gti1) C1) as H1.
  pose proof (@ends_in_order gti0 gti1 H0 H1 N0 N1) as E01.
  pose proof (@ends_in_order gti1 gti0 H1 H0 N1 N0) as E10.
  rewrite <- E01, <- E10, <- !Z.leb_le, <- orb_true_iff.
  destruct ((last (col1 gti0) 0 <=? hd 0 (col0 gti1))
            || (last (col1 gti1) 0 <=? hd 0 (col0 gti0))) eqn:E.
  - split; [tauto|]. split; [split; [discriminate|congruence]|].
    rewrite orb_comm, E. reflexivity.
  - split; [split; [discriminate|congruence]|].
    split; [split; [congruence|reflexivity]|].
    rewrite orb_comm, E. reflexivity.
Qed.

Lemma check_separate_meaning_witness :
  check_separate [(0, 1); (4, 5)] [(2, 3)] = Ok false /\
  check_separate [(2, 3)] [(0, 1); (4, 5)]
  = check_separate [(0, 1); (4, 5)] [(2, 3)].
Proof.
  split; [reflexivity|].
  apply (@check_separate_meaning [(0, 1); (4, 5)] [(2, 3)]).
  - reflexivity.
  - reflexivity.
  - discriminate.
  - discriminate.
Defined.

(** X14: on validated lists [append_gtis] raises its ValueError when
    [check_separate] answers False and returns the first list followed by
    the second otherwise; what it returns passes [check_gtis] exactly when
    one of the lists is empty or the first lies before the second. *)
Theorem append_gtis_outcome (gti0 gti1 : gti) :
  check_gtis gti0 = Ok tt -> check_gtis gti1 = Ok tt ->
  (check_separate gti0 gti1 = Ok false /\
   append_gtis gti0 gti1 = Raise NotExclusive) \/
  (check_separate gti0 gti1 = Ok true /\
   append_gtis gti0 gti1 = Ok (gti0 ++ gti1) /\
   (check_gtis (gti0 ++ gti1) = Ok tt <->
    gti0 = [] \/ gti1 = [] \/ all_before gti0 gti1)).
Proof.
  intros C0 C1.
  pose proof (proj1 (@check_gtis_Ok gti0) C0) as H0.
  pose proof (proj1 (@check_gtis_Ok gti1) C1) as H1.
  destruct (@check_separate_total gti0 gti1 H0 H1) as [Hsep|Hsep].
  - right. split; [exact Hsep|]. split.
    { unfold append_gtis. rewrite C0, C1, Hsep. reflexivity. }
    rewrite check_gtis_Ok. split.
    + intros H.
      destruct gti0 as [|p0 r0]; [left; reflexivity|].
      destruct gti1 as [|p1 r1]; [right; left; reflexivity|].
      right. right. apply well_behaved_pairwise in H. destruct H as [_ S].
      intros p q Hp Hq. exact (@sorted_app_inv precedes _ _ S p q Hp Hq).
    + intros [->|[->|Hall]].
      * exact H1.
      * rewrite app_nil_r. exact H0.
      * apply well_behaved_app; [exact H0|exact H1|].
        intros N0 N1. apply ends_in_order; assumption.
  - left. split; [exact Hsep|].
    unfold append_gtis. rewrite C0, C1, Hsep. reflexivity.
Qed.

Lemma append_gtis_outcome_witness :
  append_gtis [(0, 1); (2, 3)] [(3, 8)] = Ok [(0, 1); (2, 3); (3, 8)] /\
  append_gtis [(3, 8)] [(0, 1); (2, 3)] = Ok [(3, 8); (0, 1); (2, 3)] /\
  ((check_separate [(0, 3)] [(2, 8)] = Ok false /\
    append_gtis [(0, 3)] [(2, 8)] = Raise NotExclusive) \/
   (check_separate [(0, 3)] [(2, 8)] = Ok true /\
    append_gtis [(0, 3)] [(2, 8)] = Ok ([(0, 3)] ++ [(2, 8)]) /\
    (check_gtis ([(0, 3)] ++ [(2, 8)]) = Ok tt <->
     [(0, 3)] = [] \/ [(2, 8)] = [] \/ all_before [(0, 3)] [(2, 8)]))).
Proof.
  split; [reflexivity|]. split; [reflexivity|].
  apply (@append_gtis_outcome [(0, 3)] [(2, 8)]).
  - reflexivity.
  - reflexivity.
Defined.
